(** * The weak-reference pool of the Golua runtime

    A shallow embedding of [runtime/internal/weakref]: the [UnsafePool]
    (registry of weak references keyed by the data word of an interface
    value, the queue of values pending finalization, the mark counter), its
    [weakRef] handles with their three statuses, and the non-retaining copy
    [wiface] of an interface value.

    Three things live outside the package and are modelled around it:
    - the Go runtime's finalizer table ([runtime.SetFinalizer] and the
      collector running a finalizer), kept as a map from object address to
      the pointer type the finalizer was registered with;
    - [sort.Sort], taken as a parameter with the contract of the [sort]
      package (a permutation, ordered with respect to [Less]);
    - [runPrefinalizers], which the extraction methods call but which is
      defined in another file of the package; taken as a parameter.

    Every method body runs under the pool mutex, so each is one atomic
    step on the state. *)

From stdpp Require Import gmap list sorting strings.
From Stdlib Require Import ZArith Lia Ascii.

Open Scope Z_scope.

(** ** Machine integers *)

(** Go's [int] on a 64-bit platform: two's complement, wrapping. *)
Definition int_min : Z := - 2 ^ 63.
Definition int_max : Z := 2 ^ 63 - 1.
Definition wrap_int (z : Z) : Z := (z + 2 ^ 63) mod 2 ^ 64 - 2 ^ 63.

(** ** Interface values and their non-retaining copies *)

(** An [interface{}] value is two words: the address of its type
    descriptor and the address of its data. The nil interface has both
    words zero. *)
Record Iface := { itype : Z; idata : Z }.

Global Instance Iface_eq_dec : EqDecision Iface.
Proof. solve_decision. Defined.

Definition nil_iface : Iface := {| itype := 0; idata := 0 |}.

(** [type wiface [2]uintptr] *)
Definition wiface : Type := Z * Z.

Definition getwiface (iface : Iface) : wiface := (itype iface, idata iface).

(** [func (w wiface) id() uintptr { return w[1] }] *)
Definition id (w0 : wiface) : Z := snd w0.

(** [func (w wiface) iface() interface{}] *)
Definition iface (w0 : wiface) : Iface := {| itype := fst w0; idata := snd w0 |}.

(** ** Mark flags declared by the package *)


(** ** Weak references *)

(** [wrAlive wrStatus = iota], [wrDead], [wrResurrected]. *)
Inductive wrStatus := wrAlive | wrDead | wrResurrected.

Global Instance wrStatus_eq_dec : EqDecision wrStatus.
Proof. solve_decision. Defined.

(** [type weakRef struct { w wiface; markOrder int; status wrStatus; pool
    *UnsafePool }]. There is one pool in the model, so the back pointer is
    left out. *)
Record weakRef := { w : wiface; markOrder : Z; status : wrStatus }.

Definition with_markOrder (o : Z) (r : weakRef) : weakRef :=
  {| w := w r; markOrder := o; status := status r |}.

Definition with_status (st : wrStatus) (r : weakRef) : weakRef :=
  {| w := w r; markOrder := markOrder r; status := st |}.

(** ** Values ordered by mark *)

Record orderedVal := { val : Iface; order : Z }.

(** [type sortabelVals []orderedVal] *)
Definition sortabelVals : Type := list orderedVal.

(** [func (vs sortabelVals) Less(i, j int) bool { return vs[i].order >
    vs[j].order }], on the two elements compared. *)
Definition Less (a b : orderedVal) : bool := order b <? order a.

(** [func (vs sortabelVals) vals() []interface{}] *)
Definition vals (vs : sortabelVals) : list Iface := val <$> vs.

(** [func (vs sortabelVals) Len() int { return len(vs) }] *)
Definition Len (vs : sortabelVals) : Z := Z.of_nat (length vs).

(** [vs[i]] for an [int] index: out of range is a run-time panic,
    [None]. *)
Definition at_index (vs : sortabelVals) (i : Z) : option orderedVal :=
  if (0 <=? i) && (i <? Len vs) then (vs : list orderedVal) !! Z.to_nat i
  else None.

(** [func (vs sortabelVals) Less(i, j int) bool] as [sort.Sort] calls it,
    on indices. *)
Definition Less_at (vs : sortabelVals) (i j : Z) : option bool :=
  match at_index vs i, at_index vs j with
  | Some a, Some b => Some (Less a b)
  | _, _ => None
  end.

(** [func (vs sortabelVals) Swap(i, j int) { vs[i], vs[j] = vs[j], vs[i] }]:
    both operands are read, then both elements are assigned. *)
Definition Swap (vs : sortabelVals) (i j : Z) : option sortabelVals :=
  match at_index vs j, at_index vs i with
  | Some b, Some a =>
      Some (<[Z.to_nat j := a]> (<[Z.to_nat i := b]> (vs : list orderedVal)))
  | _, _ => None
  end.

(** A sort satisfying the contract of [sort.Sort], used to run the model
    on concrete pools: insertion before the first element that is not
    [Less] than the new one. *)
Fixpoint insert_sorted (x : orderedVal) (vs : sortabelVals) : sortabelVals :=
  match vs with
  | [] => [x]
  | y :: vs' => if Less y x then y :: insert_sorted x vs' else x :: y :: vs'
  end.

Definition insertion_sort (vs : sortabelVals) : sortabelVals :=
  foldr insert_sorted [] vs.

(** ** The state: pool, weakRef objects, finalizer table *)

(** [weakrefs], [pending] and [lastMarkOrder] are the fields of
    [UnsafePool]. [*weakRef] pointers are indices into [refs], the
    weakRef objects allocated so far; [pending == nil] is the empty list.
    [finalizers] is the runtime's table: the address of each object that
    has [p.addPendingGC] set as its finalizer, with the type word the
    object was registered under. *)
Record State := {
  weakrefs : gmap Z nat;
  pending : sortabelVals;
  lastMarkOrder : Z;
  refs : list weakRef;
  finalizers : gmap Z Z
}.

Definition set_weakrefs (f : gmap Z nat → gmap Z nat) (s : State) : State :=
  {| weakrefs := f (weakrefs s); pending := pending s;
     lastMarkOrder := lastMarkOrder s; refs := refs s;
     finalizers := finalizers s |}.

Definition set_pending (f : sortabelVals → sortabelVals) (s : State) : State :=
  {| weakrefs := weakrefs s; pending := f (pending s);
     lastMarkOrder := lastMarkOrder s; refs := refs s;
     finalizers := finalizers s |}.

Definition set_lastMarkOrder (f : Z → Z) (s : State) : State :=
  {| weakrefs := weakrefs s; pending := pending s;
     lastMarkOrder := f (lastMarkOrder s); refs := refs s;
     finalizers := finalizers s |}.

Definition set_refs (f : list weakRef → list weakRef) (s : State) : State :=
  {| weakrefs := weakrefs s; pending := pending s;
     lastMarkOrder := lastMarkOrder s; refs := f (refs s);
     finalizers := finalizers s |}.

Definition set_finalizers (f : gmap Z Z → gmap Z Z) (s : State) : State :=
  {| weakrefs := weakrefs s; pending := pending s;
     lastMarkOrder := lastMarkOrder s; refs := refs s;
     finalizers := f (finalizers s) |}.

(** [func NewUnsafePool() *UnsafePool], in a runtime with no finalizers
    set. *)
Definition NewUnsafePool : State :=
  {| weakrefs := ∅; pending := []; lastMarkOrder := 0; refs := [];
     finalizers := ∅ |}.

(** ** A state-and-fault monad *)

(** The ways a call can abort: the three fatal errors of
    [runtime.SetFinalizer] that the pool can provoke, and the use of a
    [*weakRef] that was never allocated (no Go program can do that). *)
Inductive fault :=
  | FinalizerNilArgument
  | FinalizerNotPointer
  | FinalizerAlreadySet
  | InvalidRef.

Definition M (A : Type) : Type := State → fault + (A * State).

Definition ret {A} (a : A) : M A := λ s, inr (a, s).

Definition bind {A B} (m : M A) (k : A → M B) : M B :=
  λ s, match m s with
       | inl e => inl e
       | inr (a, s') => k a s'
       end.

Definition throw {A} (e : fault) : M A := λ _, inl e.

Definition gets {A} (f : State → A) : M A := λ s, inr (f s, s).

Definition modify (f : State → State) : M unit := λ s, inr (tt, f s).

Declare Scope pool_scope.
Delimit Scope pool_scope with pool.
Notation "'let*' x ':=' m 'in' k" := (bind m (λ x, k))
  (at level 10, x name, m at level 100, k at level 200) : pool_scope.
Notation "m ';;;' k" := (bind m (λ _, k))
  (at level 100, k at level 200, right associativity) : pool_scope.
Open Scope pool_scope.

(** [*r] for reading and [*r = v] for writing a weakRef object. *)
Definition load (r : nat) : M weakRef :=
  λ s, match refs s !! r with
       | Some wr => inr (wr, s)
       | None => inl InvalidRef
       end.

Definition store (r : nat) (f : weakRef → weakRef) : M unit :=
  let* wr := load r in modify (set_refs (λ h, <[r := f wr]> h)).

(** [&weakRef{...}]: a new object at the next free index. *)
Definition alloc (wr : weakRef) : M nat :=
  λ s, inr (length (refs s), set_refs (λ h, h ++ [wr]) s).

(** ** A small runtime to run the model on *)

(** Two pointer types, with descriptors at 0x1000 and 0x1008; every other
    type word stands for a type that is not a pointer type. *)
Definition example_kinds (t : Z) : bool := (t =? 4096) || (t =? 4104).

(** A prefinalizer hook that hands back the list it is given. *)
Definition example_hook (vs : list Iface) : list Iface := vs.

(** Two objects of the first pointer type. *)
Definition objA : Iface := {| itype := 4096; idata := 100 |}.
Definition objB : Iface := {| itype := 4096; idata := 200 |}.

(** A pointer of the second type to the address of [objA], as a pointer
    to the first field of a struct is to the pointer to the struct. *)
Definition objA_field : Iface := {| itype := 4104; idata := 100 |}.

(** A value of a type that is not a pointer type, such as a boxed
    integer. *)
Definition int_value : Iface := {| itype := 8192; idata := 300 |}.

(** The pool after [Get(objA)]. *)
Definition pool_A_registered : State :=
  {| weakrefs := {[ 100 := 0%nat ]};
     pending := [];
     lastMarkOrder := 0;
     refs := [{| w := (4096, 100); markOrder := 0; status := wrAlive |}];
     finalizers := {[ 100 := 4096 ]} |}.

(** The pool after [Get(objA)] and a call of [Value()] on the handle. *)
Definition pool_A_resurrected : State :=
  {| weakrefs := {[ 100 := 0%nat ]};
     pending := [];
     lastMarkOrder := 0;
     refs := [{| w := (4096, 100); markOrder := 0; status := wrResurrected |}];
     finalizers := {[ 100 := 4096 ]} |}.

(** The pool after [Mark(objA)]. *)
Definition pool_A_marked : State :=
  {| weakrefs := {[ 100 := 0%nat ]};
     pending := [];
     lastMarkOrder := 1;
     refs := [{| w := (4096, 100); markOrder := 1; status := wrAlive |}];
     finalizers := {[ 100 := 4096 ]} |}.

(** The pool after [Mark(objA)] and [ExtractAllMarked()]: the handle is
    registered, its mark and the finalizer of [objA] are gone. *)
Definition pool_A_released : State :=
  {| weakrefs := {[ 100 := 0%nat ]};
     pending := [];
     lastMarkOrder := 1;
     refs := [{| w := (4096, 100); markOrder := 0; status := wrAlive |}];
     finalizers := ∅ |}.

(** The pool after [Mark(objA)], [Mark(objB)] and the collection of
    [objA]: one value queued, one marked and registered. *)
Definition pool_A_queued_B_marked : State :=
  {| weakrefs := {[ 200 := 1%nat ]};
     pending := [{| val := objA; order := 1 |}];
     lastMarkOrder := 2;
     refs := [{| w := (4096, 100); markOrder := 1; status := wrDead |};
              {| w := (4096, 200); markOrder := 2; status := wrAlive |}];
     finalizers := {[ 200 := 4096 ]} |}.

(** The pool after [Mark(objA)], [Mark(objB)] and the collection of both,
    [objA] first. *)
Definition pool_A_B_queued : State :=
  {| weakrefs := ∅;
     pending := [{| val := objA; order := 1 |}; {| val := objB; order := 2 |}];
     lastMarkOrder := 2;
     refs := [{| w := (4096, 100); markOrder := 1; status := wrDead |};
              {| w := (4096, 200); markOrder := 2; status := wrDead |}];
     finalizers := ∅ |}.


(** * The constant compiler of [ircomp]

    [ConstantCompiler] numbers the constants of a compilation unit in the
    order in which they are first queued. The code builder, the IR
    constants and their visitor methods belong to other packages; the
    fields that hold them are kept abstract. *)

(** [type ConstantCompiler struct]; [uint] keys as [N], [int] as [Z]. *)
Record ConstantCompiler (Builder Constant : Type) := {
  builder : Builder;
  constants : list Constant;
  constantMap : gmap N Z;
  compiledCount : Z;
  queue : list N;
  offset : Z
}.

Arguments builder {_ _} _.
Arguments constants {_ _} _.
Arguments constantMap {_ _} _.
Arguments compiledCount {_ _} _.
Arguments queue {_ _} _.
Arguments offset {_ _} _.

(** [func NewConstantCompiler(constants []ir.Constant, cc *code.Builder)
    *ConstantCompiler] *)
Definition NewConstantCompiler {Builder Constant}
    (constants0 : list Constant) (cc : Builder)
  : ConstantCompiler Builder Constant :=
  {| builder := cc; constants := constants0; constantMap := ∅;
     compiledCount := 0; queue := []; offset := 0 |}.

(** [func (kc *ConstantCompiler) GetConstant(ki uint) ir.Constant]; an
    index out of range panics, [None]. *)
Definition GetConstant {Builder Constant}
    (kc : ConstantCompiler Builder Constant) (ki : N) : option Constant :=
  constants kc !! N.to_nat ki.

(** [func (kc *ConstantCompiler) QueueConstant(ki uint) int] *)
Definition QueueConstant {Builder Constant} (ki : N)
    (kc : ConstantCompiler Builder Constant)
  : Z * ConstantCompiler Builder Constant :=
  match constantMap kc !! ki with
  | Some cki => (cki, kc)
  | None =>
      let offset' := wrap_int (offset kc + 1) in
      (wrap_int (offset' - 1),
       {| builder := builder kc; constants := constants kc;
          constantMap := <[ki := offset kc]> (constantMap kc);
          compiledCount := compiledCount kc;
          queue := queue kc ++ [ki];
          offset := offset' |})
  end.

(** Successive calls of [QueueConstant], with the indices they return. *)
Fixpoint QueueConstants {Builder Constant} (kis : list N)
    (kc : ConstantCompiler Builder Constant)
  : list Z * ConstantCompiler Builder Constant :=
  match kis with
  | [] => ([], kc)
  | ki :: kis' =>
      let '(cki, kc1) := QueueConstant ki kc in
      let '(ckis, kc2) := QueueConstants kis' kc1 in
      (cki :: ckis, kc2)
  end.

(** The constants queued so far are numbered by their place in the queue,
    and [offset] is the next number. *)
Record numbered {Builder Constant}
    (kc : ConstantCompiler Builder Constant) : Prop := {
  num_offset : offset kc = Z.of_nat (length (queue kc));
  num_map : ∀ ki j, constantMap kc !! ki = Some j ↔
                    0 ≤ j ∧ queue kc !! Z.to_nat j = Some ki;
  num_NoDup : NoDup (queue kc)
}.

(** The keys of a list, each once, in the order of their first
    occurrence. *)
Definition first_occurrences (kis : list N) : list N :=
  reverse (remove_dups (reverse kis)).


(** * [string.pack]: the packer of [stringlib]

    [PackValues] walks a format string and appends the binary encoding
    of one Lua value per conversion option to a buffer. The model keeps
    the packer struct and its methods as they are written. Outside the
    file, and taken as they are documented:
    - [binary.Write] on a fixed-size integer or float appends its bytes
      in the given byte order and returns no error;
    - [rt.ToInt], [rt.ToFloat] and [rt.AsString], the conversions of Lua
      values, the float operations, [nativeEndian] and
      [defaultMaxAlignement] are parameters, gathered in [Host];
    - the error values are package variables, known here by name. *)

Module stringlib.

(** [binary.LittleEndian] and [binary.BigEndian], the two values
    [p.byteOrder] is compared with. *)
Inductive ByteOrder := LittleEndian | BigEndian.

Inductive error :=
  | errBadFormatString
  | errExpectedOption
  | errBadOptionArg
  | errMissingSize
  | errNotEnoughValues
  | errBadType
  | errOutOfBounds
  | errBadAlignment.

(** The run-time panics the code could raise. *)
Inductive panic := IndexOutOfRange | DivideByZero.

(** Go's [uint] on a 64-bit platform. *)
Definition wrap_uint (z : Z) : Z := z mod 2 ^ 64.

(** [x << k] on [int64] with a [uint] count: 0 once the count reaches
    the width. *)
Definition shl_int64 (x k : Z) : Z :=
  if 64 <=? k then 0 else wrap_int (x * 2 ^ k).

(** The [n] low bytes of [x], least significant first (two's complement
    for a negative [x]). *)
Fixpoint le_bytes (n : nat) (x : Z) : list Z :=
  match n with
  | O => []
  | S n' => x mod 256 :: le_bytes n' (x / 256)
  end.

(** What [binary.Write] appends for an integer of [size] bytes. *)
Definition put (bo : ByteOrder) (size : nat) (x : Z) : list Z :=
  match bo with
  | LittleEndian => le_bytes size x
  | BigEndian => reverse (le_bytes size x)
  end.

(** The code of a character of the format string. *)
Definition char (c : ascii) : Z := Z.of_N (N_of_ascii c).

(** A Go string as its bytes. *)
Fixpoint bytes (s : string) : list Z :=
  match s with
  | EmptyString => []
  | String c s' => char c :: bytes s'
  end.

(** The loop of [getOptSize] over the bytes of the format from index [i]
    on: [n = n*10 + uint(c-'0')] while [c] is a digit. *)
Fixpoint getOptSize_loop (rest : list Z) (i : nat) (n : Z) (ok : bool)
  : nat * Z * bool :=
  match rest with
  | [] => (i, n, ok)
  | c :: rest' =>
      if (48 <=? c) && (c <=? 57)
      then getOptSize_loop rest' (S i) (wrap_uint (n * 10 + (c - 48))) true
      else (i, n, ok)
  end.

(** The digits a format continues with, and the number they write in
    base ten. *)
Definition is_digit (c : Z) : bool := (48 <=? c) && (c <=? 57).

Fixpoint leading_digits (l : list Z) : list Z :=
  match l with
  | [] => []
  | c :: l' => if is_digit c then c :: leading_digits l' else []
  end.

Definition decimal_from (n : Z) (ds : list Z) : Z :=
  foldl (λ acc c, acc * 10 + (c - 48)) n ds.

Definition decimal (ds : list Z) : Z := decimal_from 0 ds.

(** The number a sequence of bytes encodes in a byte order, unsigned and
    in two's complement. *)
Fixpoint le_value (bs : list Z) : Z :=
  match bs with
  | [] => 0
  | b :: bs' => b + 256 * le_value bs'
  end.

Definition unsigned (bo : ByteOrder) (bs : list Z) : Z :=
  le_value (match bo with LittleEndian => bs | BigEndian => reverse bs end).

Definition signed (bo : ByteOrder) (bs : list Z) : Z :=
  let u := unsigned bo bs in
  let width := 8 * Z.of_nat (length bs) in
  if u <? 2 ^ (width - 1) then u else u - 2 ^ width.

(** The Lua runtime, the float arithmetic and the platform constants the
    packer relies on. [rt_ToInt v] is [Some n] when [rt.ToInt(v)]
    reports [rt.IsInt]; [Float32bits x] are the bits of [float32(x)];
    [nativeEndian] is one of the two byte orders of [encoding/binary]. *)
Class Host := {
  rt_Value : Type;
  rt_ToInt : rt_Value → option Z;
  float64 : Type;
  rt_ToFloat : rt_Value → option float64;
  rt_AsString : rt_Value → option (list Z);
  float_zero : float64;
  float_neg : float64 → float64;
  float_le : float64 → float64 → bool;
  MaxFloat32 : float64;
  Float32bits : float64 → Z;
  Float64bits : float64 → Z;
  nativeEndian : ByteOrder;
  defaultMaxAlignement : Z
}.

Section packer.

Context `{Host}.

(** [type packer struct]. The indices [i] and [j] count up from 0 and
    never pass the length of the slice they index, so they are natural
    numbers; [optSize] and [maxAlignment] are [uint], [intVal] is
    [int64]. [val] is [None] for the zero [rt.Value]. *)
Record packer := {
  format : list Z;
  i : nat;
  byteOrder : ByteOrder;
  maxAlignment : Z;
  err : option error;
  optSize : Z;
  values : list rt_Value;
  j : nat;
  val : option rt_Value;
  intVal : Z;
  floatVal : float64;
  strVal : list Z;
  w : list Z;
  alignOnly : bool
}.

Definition set_i (x : nat) (p : packer) : packer :=
  {| format := format p; i := x; byteOrder := byteOrder p;
     maxAlignment := maxAlignment p; err := err p; optSize := optSize p;
     values := values p; j := j p; val := val p; intVal := intVal p;
     floatVal := floatVal p; strVal := strVal p; w := w p;
     alignOnly := alignOnly p |}.

Definition set_byteOrder (x : ByteOrder) (p : packer) : packer :=
  {| format := format p; i := i p; byteOrder := x;
     maxAlignment := maxAlignment p; err := err p; optSize := optSize p;
     values := values p; j := j p; val := val p; intVal := intVal p;
     floatVal := floatVal p; strVal := strVal p; w := w p;
     alignOnly := alignOnly p |}.

Definition set_maxAlignment (x : Z) (p : packer) : packer :=
  {| format := format p; i := i p; byteOrder := byteOrder p;
     maxAlignment := x; err := err p; optSize := optSize p;
     values := values p; j := j p; val := val p; intVal := intVal p;
     floatVal := floatVal p; strVal := strVal p; w := w p;
     alignOnly := alignOnly p |}.

Definition set_err (x : option error) (p : packer) : packer :=
  {| format := format p; i := i p; byteOrder := byteOrder p;
     maxAlignment := maxAlignment p; err := x; optSize := optSize p;
     values := values p; j := j p; val := val p; intVal := intVal p;
     floatVal := floatVal p; strVal := strVal p; w := w p;
     alignOnly := alignOnly p |}.

Definition set_optSize (x : Z) (p : packer) : packer :=
  {| format := format p; i := i p; byteOrder := byteOrder p;
     maxAlignment := maxAlignment p; err := err p; optSize := x;
     values := values p; j := j p; val := val p; intVal := intVal p;
     floatVal := floatVal p; strVal := strVal p; w := w p;
     alignOnly := alignOnly p |}.

Definition set_j (x : nat) (p : packer) : packer :=
  {| format := format p; i := i p; byteOrder := byteOrder p;
     maxAlignment := maxAlignment p; err := err p; optSize := optSize p;
     values := values p; j := x; val := val p; intVal := intVal p;
     floatVal := floatVal p; strVal := strVal p; w := w p;
     alignOnly := alignOnly p |}.

Definition set_val (x : option rt_Value) (p : packer) : packer :=
  {| format := format p; i := i p; byteOrder := byteOrder p;
     maxAlignment := maxAlignment p; err := err p; optSize := optSize p;
     values := values p; j := j p; val := x; intVal := intVal p;
     floatVal := floatVal p; strVal := strVal p; w := w p;
     alignOnly := alignOnly p |}.

Definition set_intVal (x : Z) (p : packer) : packer :=
  {| format := format p; i := i p; byteOrder := byteOrder p;
     maxAlignment := maxAlignment p; err := err p; optSize := optSize p;
     values := values p; j := j p; val := val p; intVal := x;
     floatVal := floatVal p; strVal := strVal p; w := w p;
     alignOnly := alignOnly p |}.

Definition set_floatVal (x : float64) (p : packer) : packer :=
  {| format := format p; i := i p; byteOrder := byteOrder p;
     maxAlignment := maxAlignment p; err := err p; optSize := optSize p;
     values := values p; j := j p; val := val p; intVal := intVal p;
     floatVal := x; strVal := strVal p; w := w p;
     alignOnly := alignOnly p |}.

Definition set_strVal (x : list Z) (p : packer) : packer :=
  {| format := format p; i := i p; byteOrder := byteOrder p;
     maxAlignment := maxAlignment p; err := err p; optSize := optSize p;
     values := values p; j := j p; val := val p; intVal := intVal p;
     floatVal := floatVal p; strVal := x; w := w p;
     alignOnly := alignOnly p |}.

Definition set_w (x : list Z) (p : packer) : packer :=
  {| format := format p; i := i p; byteOrder := byteOrder p;
     maxAlignment := maxAlignment p; err := err p; optSize := optSize p;
     values := values p; j := j p; val := val p; intVal := intVal p;
     floatVal := floatVal p; strVal := strVal p; w := x;
     alignOnly := alignOnly p |}.

Definition set_alignOnly (x : bool) (p : packer) : packer :=
  {| format := format p; i := i p; byteOrder := byteOrder p;
     maxAlignment := maxAlignment p; err := err p; optSize := optSize p;
     values := values p; j := j p; val := val p; intVal := intVal p;
     floatVal := floatVal p; strVal := strVal p; w := w p;
     alignOnly := x |}.

(** A method that reports success: it panics, or returns a boolean and
    the packer it leaves. *)
Definition step : Type := packer → panic + (bool * packer).

(** [a && b] on method calls: [b] runs only if [a] returned true. *)
Definition and_then (a b : step) : step :=
  λ p, match a p with
       | inl e => inl e
       | inr (true, p1) => b p1
       | inr (false, p1) => inr (false, p1)
       end.

Infix "&&&" := and_then (at level 40, left associativity).

(** [p.err = e; return false] *)
Definition fail (e : error) : step := λ p, inr (false, set_err (Some e) p).

(** [func (p *packer) hasNext() bool] *)
Definition hasNext (p : packer) : bool := (i p <? length (format p))%nat.

(** [func (p *packer) nextOption() byte] *)
Definition nextOption (p : packer) : panic + (Z * packer) :=
  match format p !! i p with
  | Some opt => inr (opt, set_i (S (i p)) p)
  | None => inl IndexOutOfRange
  end.

(** [func (p *packer) getOptSize() bool] *)
Definition getOptSize (p : packer) : bool * packer :=
  let '(i', n, ok) := getOptSize_loop (drop (i p) (format p)) (i p) 0 false in
  (ok, set_optSize n (set_i i' p)).

(** [func (p *packer) smallOptSize(defaultSize uint) bool] *)
Definition smallOptSize (defaultSize : Z) : step :=
  λ p, let '(_, p1) := getOptSize p in
       if 16 <? optSize p1 then fail errBadOptionArg p1
       else if optSize p1 =? 0 then
         if defaultSize =? 0 then fail errMissingSize p1
         else inr (true, set_optSize defaultSize p1)
       else inr (true, p1).

(** [func (p *packer) mustGetOptSize() bool] *)
Definition mustGetOptSize : step :=
  λ p, let '(ok, p1) := getOptSize p in
       if ok then inr (true, p1) else fail errMissingSize p1.

(** [func (p *packer) nextValue() bool] *)
Definition nextValue : step :=
  λ p, if (j p <? length (values p))%nat then
         match values p !! j p with
         | Some v => inr (true, set_j (S (j p)) (set_val (Some v) p))
         | None => inl IndexOutOfRange
         end
       else fail errNotEnoughValues p.

(** [func (p *packer) nextIntValue() bool] *)
Definition nextIntValue : step :=
  λ p, match nextValue p with
       | inl e => inl e
       | inr (false, p1) => inr (false, p1)
       | inr (true, p1) =>
           match val p1 ≫= rt_ToInt with
           | Some n => inr (true, set_intVal (wrap_int n) p1)
           | None => fail errBadType p1
           end
       end.

(** [func (p *packer) nextFloatValue() bool] *)
Definition nextFloatValue : step :=
  λ p, match nextValue p with
       | inl e => inl e
       | inr (false, p1) => inr (false, p1)
       | inr (true, p1) =>
           match val p1 ≫= rt_ToFloat with
           | Some f => inr (true, set_floatVal f p1)
           | None => fail errBadType p1
           end
       end.

(** [func (p *packer) nextStringValue() bool] *)
Definition nextStringValue : step :=
  λ p, match nextValue p with
       | inl e => inl e
       | inr (false, p1) => inr (false, p1)
       | inr (true, p1) =>
           match val p1 ≫= rt_AsString with
           | Some s =>
               inr (true, set_intVal (wrap_int (Z.of_nat (length s)))
                            (set_strVal s p1))
           | None => fail errBadType p1
           end
       end.

(** [func (p *packer) checkBounds(min, max int64) bool] *)
Definition checkBounds (min max : Z) : step :=
  λ p, if (min <=? intVal p) && (intVal p <=? max) then inr (true, p)
       else fail errOutOfBounds p.

(** [func (p *packer) checkFloatSize(max float64) bool] *)
Definition checkFloatSize (max : float64) : step :=
  λ p, if float_le (float_neg max) (floatVal p) && float_le (floatVal p) max
       then inr (true, p)
       else fail errOutOfBounds p.

(** [func (p *packer) writeByte(b byte) bool] *)
Definition writeByte (b : Z) : step := λ p, inr (true, set_w (w p ++ [b]) p).

(** [func (p *packer) write(x interface{}) bool], for a value whose
    encoding is [bs]: [binary.Write] returns nil. *)
Definition write (bs : list Z) : step :=
  λ p, inr (true, set_err None (set_w (w p ++ bs) p)).

(** [p.write(T(p.intVal))] for an integer type [T] of [size] bytes; the
    conversion keeps the low bytes. *)
Definition write_intVal (size : nat) : step :=
  λ p, write (put (byteOrder p) size (intVal p)) p.

(** [p.write(float32(p.floatVal))] and [p.write(p.floatVal)] *)
Definition write_float32 : step :=
  λ p, write (put (byteOrder p) 4 (Float32bits (floatVal p))) p.

Definition write_float64 : step :=
  λ p, write (put (byteOrder p) 8 (Float64bits (floatVal p))) p.

(** [func (p *packer) fill(n uint, c byte)]. The buffer is a list and
    has no bound; the program stops when [n] bytes do not fit in
    memory. *)
Definition fill (n : Z) (c : Z) (p : packer) : packer :=
  set_w (w p ++ replicate (Z.to_nat n) c) p.

(** [func (p *packer) writeStr(maxLen uint) bool] *)
Definition writeStr (maxLen : Z) : step :=
  λ p, let diff := if 0 <? maxLen
                   then wrap_int (wrap_int maxLen - Z.of_nat (length (strVal p)))
                   else 0 in
       if diff <? 0 then fail errOutOfBounds p
       else
         let p1 := set_w (w p ++ strVal p) p in
         inr (true, if 0 <? diff then fill (wrap_uint diff) 0 p1 else p1).

(** [func (p *packer) align(n uint) bool] *)
Definition align (n : Z) : step :=
  λ p,
    let finish (p1 : packer) : panic + (bool * packer) :=
      if alignOnly p1 then inr (false, set_alignOnly false p1)
      else inr (true, p1) in
    if n =? 0 then finish p
    else
      let n := if maxAlignment p <? n then maxAlignment p else n in
      if negb (Z.land (wrap_uint (n - 1)) n =? 0) then fail errBadAlignment p
      else if n =? 0 then inl DivideByZero
      else
        let r := wrap_uint (Z.of_nat (length (w p))) mod n in
        finish (if negb (r =? 0) then fill (wrap_uint (n - r)) 0 p else p).

(** [func (p *packer) packInt() bool] *)
Definition packInt : step :=
  λ p,
    let n := optSize p in
    if n =? 4 then (checkBounds (- 2 ^ 31) (2 ^ 31 - 1) &&& write_intVal 4) p
    else if n =? 8 then write_intVal 8 p
    else if 8 <=? n then
      let fill0 := if intVal p <? 0 then 255 else 0 in
      let p1 := match byteOrder p with
                | BigEndian => fill (wrap_uint (n - 8)) fill0 p
                | LittleEndian => p
                end in
      match write_intVal 8 p1 with
      | inl e => inl e
      | inr (false, p2) => inr (false, p2)
      | inr (true, p2) =>
          inr (true, match byteOrder p2 with
                     | LittleEndian => fill (wrap_uint (n - 8)) fill0 p2
                     | BigEndian => p2
                     end)
      end
    else
      let max := shl_int64 1 (wrap_uint (wrap_uint (n * 8) - 1)) in
      match checkBounds (wrap_int (- max)) (wrap_int (max - 1)) p with
      | inl e => inl e
      | inr (false, p1) => inr (false, p1)
      | inr (true, p1) =>
          let ww := put (byteOrder p1) 8 (intVal p1) in
          inr (true, match byteOrder p1 with
                     | LittleEndian => set_w (w p1 ++ take (Z.to_nat n) ww) p1
                     | BigEndian => set_w (w p1 ++ drop (Z.to_nat (8 - n)) ww) p1
                     end)
      end.

(** [func (p *packer) packUint() bool] *)
Definition packUint : step :=
  λ p,
    let n := optSize p in
    if n =? 4 then (checkBounds 0 (2 ^ 32 - 1) &&& write_intVal 4) p
    else if n =? 8 then (checkBounds 0 (2 ^ 63 - 1) &&& write_intVal 8) p
    else if 8 <? n then
      let p1 := match byteOrder p with
                | BigEndian => fill (wrap_uint (n - 8)) 0 p
                | LittleEndian => p
                end in
      match write_intVal 8 p1 with
      | inl e => inl e
      | inr (false, p2) => inr (false, p2)
      | inr (true, p2) =>
          inr (true, match byteOrder p2 with
                     | LittleEndian => fill (wrap_uint (n - 8)) 0 p2
                     | BigEndian => p2
                     end)
      end
    else
      let max := shl_int64 1 (wrap_uint (n * 8)) in
      match checkBounds 0 (wrap_int (max - 1)) p with
      | inl e => inl e
      | inr (false, p1) => inr (false, p1)
      | inr (true, p1) =>
          let ww := put (byteOrder p1) 8 (intVal p1) in
          inr (true, match byteOrder p1 with
                     | LittleEndian => set_w (w p1 ++ take (Z.to_nat n) ww) p1
                     | BigEndian => set_w (w p1 ++ drop (Z.to_nat (8 - n)) ww) p1
                     end)
      end.

(** [_ = a && b && ...]: the boolean is dropped. *)
Definition discard (a : step) : packer → panic + packer :=
  λ p, match a p with
       | inl e => inl e
       | inr (_, p1) => inr p1
       end.

(** The [switch p.nextOption()] of [PackValues], on the option byte. *)
Definition PackValues_switch (opt : Z) : packer → panic + packer :=
  λ p,
    if opt =? char "<" then inr (set_byteOrder LittleEndian p)
    else if opt =? char ">" then inr (set_byteOrder BigEndian p)
    else if opt =? char "=" then inr (set_byteOrder nativeEndian p)
    else if opt =? char "!" then
      match smallOptSize defaultMaxAlignement p with
      | inl e => inl e
      | inr (true, p1) => inr (set_maxAlignment (optSize p1) p1)
      | inr (false, p1) => inr p1
      end
    else if opt =? char "b" then
      discard (align 0 &&& nextIntValue &&& checkBounds (- 2 ^ 7) (2 ^ 7 - 1)
               &&& write_intVal 1) p
    else if opt =? char "B" then
      discard (align 0 &&& nextIntValue &&& checkBounds 0 (2 ^ 8 - 1)
               &&& write_intVal 1) p
    else if opt =? char "h" then
      discard (align 2 &&& nextIntValue &&& checkBounds (- 2 ^ 15) (2 ^ 15 - 1)
               &&& write_intVal 2) p
    else if opt =? char "H" then
      discard (align 2 &&& nextIntValue &&& checkBounds 0 (2 ^ 16 - 1)
               &&& write_intVal 2) p
    else if (opt =? char "l") || (opt =? char "j") then
      discard (align 8 &&& nextIntValue &&& write_intVal 8) p
    else if (opt =? char "L") || (opt =? char "J") || (opt =? char "T") then
      discard (align 8 &&& nextIntValue &&& checkBounds 0 (2 ^ 63 - 1)
               &&& write_intVal 8) p
    else if opt =? char "i" then
      discard (smallOptSize 4 &&& (λ p1, align (optSize p1) p1)
               &&& nextIntValue &&& packInt) p
    else if opt =? char "I" then
      discard (smallOptSize 4 &&& (λ p1, align (optSize p1) p1)
               &&& nextIntValue &&& packUint) p
    else if opt =? char "f" then
      discard (align 4 &&& nextFloatValue &&& checkFloatSize MaxFloat32
               &&& write_float32) p
    else if (opt =? char "d") || (opt =? char "n") then
      discard (align 8 &&& nextFloatValue &&& write_float64) p
    else if opt =? char "c" then
      discard (align 0 &&& mustGetOptSize &&& nextStringValue
               &&& (λ p1, writeStr (optSize p1) p1)) p
    else if opt =? char "z" then
      discard (align 0 &&& nextStringValue &&& writeStr 0 &&& writeByte 0) p
    else if opt =? char "s" then
      discard (smallOptSize 8 &&& (λ p1, align (optSize p1) p1)
               &&& nextStringValue &&& packUint &&& writeStr 0) p
    else if opt =? char "x" then
      discard (align 0 &&& writeByte 0) p
    else if opt =? char "X" then inr (set_alignOnly true p)
    else if opt =? char " " then inr p
    else inr (set_err (Some errBadFormatString) p).

(** The packer [PackValues] starts from. *)
Definition new_packer (format0 : list Z) (values0 : list rt_Value) : packer :=
  {| format := format0; i := 0; byteOrder := nativeEndian;
     maxAlignment := defaultMaxAlignement; err := None; optSize := 0;
     values := values0; j := 0; val := None; intVal := 0;
     floatVal := float_zero; strVal := []; w := []; alignOnly := false |}.

(** What a call of [PackValues] comes to: a panic, or the returned
    string and error. *)
Definition outcome : Type := panic + (list Z * option error).

(** The loop of [PackValues] and the return that follows it, run for at
    most [fuel] iterations; [None] when they do not suffice. *)
Fixpoint PackValues_loop (fuel : nat) (p : packer) : option outcome :=
  match fuel with
  | O => None
  | S fuel' =>
      if (if err p is None then true else false) && hasNext p then
        match nextOption p with
        | inl e => Some (inl e)
        | inr (opt, p1) =>
            match PackValues_switch opt p1 with
            | inl e => Some (inl e)
            | inr p2 =>
                match err p2 with
                | Some e => Some (inr ([], Some e))
                | None => PackValues_loop fuel' p2
                end
            end
        end
      else if alignOnly p then Some (inr ([], Some errExpectedOption))
      else Some (inr (w p, None))
  end.

(** [func PackValues(format string, values []rt.Value) (string, error)];
    every iteration of the loop consumes a byte of the format. *)
Definition PackValues (format0 : list Z) (values0 : list rt_Value)
  : option outcome :=
  PackValues_loop (S (length format0)) (new_packer format0 values0).

(** The largest option size and alignment bound a run can meet: 16, or
    the default alignment bound if that is larger. *)
Definition max_size : Z := Z.max 16 defaultMaxAlignement.

(** The invariant of the loop of [PackValues], with respect to an index
    [B] of the format that is its length or the place of a byte that is
    not a digit, and a bound [L] on the lengths of the strings among the
    values: the packer's index has not passed [B], the alignment bound is
    positive, the alignment bound and the option size are at most
    [max_size], and the current string is no longer than [L]. *)
Definition packer_ok (B L : nat) (p : packer) : Prop :=
  (i p ≤ B)%nat ∧ (∀ c, format p !! B = Some c → is_digit c = false) ∧
  1 ≤ maxAlignment p ≤ max_size ∧ 0 ≤ optSize p ≤ max_size ∧
  (length (strVal p) ≤ L)%nat ∧
  (∀ v s, v ∈ values p → rt_AsString v = Some s → (length s ≤ L)%nat).

(** [q] is [p] further on: the same format and values, an index that has
    not gone back nor passed [B], and at most [g] bytes more in the
    buffer. *)
Definition advances (B : nat) (g : Z) (p q : packer) : Prop :=
  format q = format p ∧ values q = values p ∧
  (i p ≤ i q ≤ B)%nat ∧
  0 ≤ g ∧ Z.of_nat (length (w q)) ≤ Z.of_nat (length (w p)) + g.

(** A method that never panics, writes at most [g] bytes and keeps the
    invariant unless it has set an error. *)
Definition safe (B L : nat) (g : Z) (a : step) : Prop :=
  ∀ p, packer_ok B L p →
    ∃ b q, a p = inr (b, q) ∧ advances B g p q ∧
           (b = true ∨ err q = None → packer_ok B L q).

(** The most one option writes when it is not [c]: padding and an
    integer of at most [max_size] bytes each, a string among the values
    and one byte. *)
Definition option_growth (L : nat) : Z := 2 * max_size + Z.of_nat L + 1.

End packer.

(** A small runtime to run the packer on: a Lua value is an integer or a
    string, there are no floats, the platform is little-endian and the
    default alignment bound is 1. *)
Inductive example_value := VInt (n : Z) | VString (s : list Z).

Definition example_host : Host :=
  {| rt_Value := example_value;
     rt_ToInt := λ v, match v with VInt n => Some n | VString _ => None end;
     float64 := unit;
     rt_ToFloat := λ _, None;
     rt_AsString := λ v, match v with VString s => Some s | VInt _ => None end;
     float_zero := tt;
     float_neg := λ x, x;
     float_le := λ _ _, true;
     MaxFloat32 := tt;
     Float32bits := λ _, 0;
     Float64bits := λ _, 0;
     nativeEndian := LittleEndian;
     defaultMaxAlignement := 1 |}.

(** Packers to run the methods on: one byte written under an alignment
    bound of 4; the integer -2 to be packed in 3 bytes, big-endian; the
    integer -1 to be packed unsigned in 12 bytes; the string "Lua". *)
Definition example_new (format0 : string) (values0 : list example_value)
  : packer (H := example_host) :=
  new_packer (H := example_host) (bytes format0) values0.

Definition example_packer : packer (H := example_host) :=
  set_w [7] (set_maxAlignment 4 (example_new "i4" [VInt 5])).

Definition example_int_packer : packer (H := example_host) :=
  set_optSize 3 (set_intVal (-2) (set_byteOrder BigEndian
    (example_new ">i3" [VInt (-2)]))).

Definition example_uint_packer : packer (H := example_host) :=
  set_optSize 12 (set_intVal (-1) (example_new "I12" [VInt (-1)])).


End stringlib.
Section Pool.

(** The runtime's type descriptors: whether the type at this address is a
    pointer type. *)
Variable kind_is_ptr : Z → bool.

(** [sort.Sort] on [sortabelVals]. *)
Variable sort_Sort : sortabelVals → sortabelVals.

(** [runPrefinalizers], defined elsewhere in the package. *)
Variable runPrefinalizers : list Iface → list Iface.

(** ** The Go runtime *)

(** [runtime.SetFinalizer(obj, finalizer)], with [finalizer] either
    [p.addPendingGC] ([true]) or [nil] ([false]). The runtime aborts when
    [obj] is nil, when its type is not a pointer type and, for a non-nil
    finalizer, when the object already has one. Data words of pointer
    types are taken to address the start of a heap object: the aborts of
    the runtime on a pointer into the middle of a block or outside the
    heap (a typed nil pointer) are not modelled, so a call of [Get] or
    [Mark] that returns here on a value not yet registered may abort in
    the program. *)
Definition SetFinalizer (obj : Iface) (finalizer : bool) : M unit :=
  if itype obj =? 0 then throw FinalizerNilArgument
  else if negb (kind_is_ptr (itype obj)) then throw FinalizerNotPointer
  else if finalizer then
    let* fs := gets finalizers in
    match fs !! idata obj with
    | Some _ => throw FinalizerAlreadySet
    | None => modify (set_finalizers (λ m, <[idata obj := itype obj]> m))
    end
  else modify (set_finalizers (λ m, delete (idata obj) m)).

(** ** The pool *)

(** [func (p *UnsafePool) get(iface interface{}) *weakRef] *)
Definition get (v : Iface) : M nat :=
  let w0 := getwiface v in
  let i := id w0 in
  let* r := gets (λ s, weakrefs s !! i) in
  match r with
  | Some r => ret r
  | None =>
      SetFinalizer v true ;;;
      let* r := alloc {| w := getwiface v; markOrder := 0; status := wrAlive |} in
      modify (set_weakrefs (λ m, <[i := r]> m)) ;;;
      ret r
  end.

(** [func (p *UnsafePool) Get(iface interface{}) WeakRef] *)
Definition Get (v : Iface) : M nat := get v.

(** [func (p *UnsafePool) Mark(iface interface{})] *)
Definition Mark (v : Iface) : M unit :=
  modify (set_lastMarkOrder (λ n, wrap_int (n + 1))) ;;;
  let* r := get v in
  let* n := gets lastMarkOrder in
  store r (with_markOrder n).

(** [func (p *UnsafePool) ExtractDeadMarked() []interface{}]; the
    [log.Printf] line writes to the process log only. *)
Definition ExtractDeadMarked : M (list Iface) :=
  let* pending0 := gets pending in
  match pending0 with
  | [] => ret []
  | _ =>
      modify (set_pending (λ _, [])) ;;;
      ret (runPrefinalizers (vals (sort_Sort pending0)))
  end.

(** The body of [for _, r := range p.weakrefs] in [ExtractAllMarked], run
    over the registry entries in the order the iteration visits them. *)
Fixpoint rangeMarked (entries : list (Z * nat)) (marked : sortabelVals)
  : M sortabelVals :=
  match entries with
  | [] => ret marked
  | (_, r) :: entries' =>
      let* wr := load r in
      if 0 <? markOrder wr then
        let v := iface (w wr) in
        store r (with_markOrder 0) ;;;
        SetFinalizer v false ;;;
        rangeMarked entries' (marked ++ [{| val := v; order := markOrder wr |}])
      else rangeMarked entries' marked
  end.

(** [func (p *UnsafePool) ExtractAllMarked() []interface{}] *)
Definition ExtractAllMarked : M (list Iface) :=
  let* marked0 := gets pending in
  let* entries := gets (λ s, map_to_list (weakrefs s)) in
  let* marked := rangeMarked entries marked0 in
  modify (set_pending (λ _, [])) ;;;
  ret (runPrefinalizers (vals (sort_Sort marked))).

(** [func (p *UnsafePool) addPendingGC(iface interface{})] *)
Definition addPendingGC (v : Iface) : M unit :=
  let i := id (getwiface v) in
  let* r := gets (λ s, weakrefs s !! i) in
  match r with
  | None => ret tt
  | Some r =>
      let* wr := load r in
      if decide (status wr = wrResurrected) then
        store r (with_status wrAlive) ;;;
        SetFinalizer v true
      else
        store r (with_status wrDead) ;;;
        (if 0 <? markOrder wr then
           modify (set_pending (λ q, q ++ [{| val := v; order := markOrder wr |}]))
         else ret tt) ;;;
        modify (set_weakrefs (λ m, delete i m))
  end.

(** [func (r *weakRef) Value() interface{}] *)
Definition Value (r : nat) : M Iface :=
  let* wr := load r in
  if decide (status wr = wrDead) then ret nil_iface
  else
    store r (with_status wrResurrected) ;;;
    ret (iface (w wr)).

(** The collector finds the object at address [d] unreachable: if it has
    a finalizer, the runtime clears the association and calls the
    finalizer with the object, typed as it was registered. The two
    happen in one step here; in the program the finalizer runs in a
    goroutine of its own and waits for the pool's lock, so that other
    calls can come between them. A callback that comes late is
    [addPendingGC] called on its own. *)
Definition runFinalizer (d : Z) : M unit :=
  let* fs := gets finalizers in
  match fs !! d with
  | None => ret tt
  | Some t =>
      modify (set_finalizers (λ m, delete d m)) ;;;
      addPendingGC {| itype := t; idata := d |}
  end.

(** ** Auxiliary notions for the statements *)

(** A well-typed pointer argument: not nil, of pointer type. *)
Definition pointer_value (v : Iface) : Prop :=
  itype v ≠ 0 ∧ kind_is_ptr (itype v) = true.

(** The state [get] leaves behind when it creates a handle for [v]. *)
Definition registered (v : Iface) (s : State) : State :=
  {| weakrefs := <[idata v := length (refs s)]> (weakrefs s);
     pending := pending s;
     lastMarkOrder := lastMarkOrder s;
     refs := refs s ++ [{| w := getwiface v; markOrder := 0; status := wrAlive |}];
     finalizers := <[idata v := itype v]> (finalizers s) |}.

(** The state [addPendingGC] leaves behind when it declares [r] dead. *)
Definition declared_dead (v : Iface) (r : nat) (wr : weakRef) (s : State)
  : State :=
  {| weakrefs := delete (idata v) (weakrefs s);
     pending := if 0 <? markOrder wr
                then pending s ++ [{| val := v; order := markOrder wr |}]
                else pending s;
     lastMarkOrder := lastMarkOrder s;
     refs := <[r := with_status wrDead wr]> (refs s);
     finalizers := finalizers s |}.

(** Every registry entry points at an allocated weakRef that copies a
    pointer value with that data word and is not dead; a finalizer is only
    ever set on a registered object, under a pointer type. *)
Record pool_ok (s : State) : Prop := {
  ok_registry : ∀ i r, weakrefs s !! i = Some r →
    ∃ wr, refs s !! r = Some wr ∧ id (w wr) = i ∧ status wr ≠ wrDead ∧
          pointer_value (iface (w wr));
  ok_finalizers : ∀ d t, finalizers s !! d = Some t →
    pointer_value {| itype := t; idata := d |} ∧ is_Some (weakrefs s !! d)
}.

(** The calls a runtime and the collector make on a pool. *)
Inductive op :=
  | OpGet (v : Iface)
  | OpMark (v : Iface)
  | OpValue (r : nat)
  | OpCollect (d : Z)
  | OpExtractDeadMarked
  | OpExtractAllMarked.

(** One call; its result is the list of values an extraction hands out,
    empty for the other calls. *)
Definition step (o : op) : M (list Iface) :=
  match o with
  | OpGet v => Get v ;;; ret []
  | OpMark v => Mark v ;;; ret []
  | OpValue r => Value r ;;; ret []
  | OpCollect d => runFinalizer d ;;; ret []
  | OpExtractDeadMarked => ExtractDeadMarked
  | OpExtractAllMarked => ExtractAllMarked
  end.

(** A sequence of calls; the result collects everything handed out. *)
Fixpoint run (ops : list op) : M (list Iface) :=
  match ops with
  | [] => ret []
  | o :: ops' =>
      let* out := step o in
      let* outs := run ops' in
      ret (out ++ outs)
  end.

(** [n] collector cycles in each of which the holder of handle [r] reads
    the value at address [d] before the collector runs its finalizer. *)
Fixpoint resurrections (n : nat) (r : nat) (d : Z) : M unit :=
  match n with
  | O => ret tt
  | S n' => Value r ;;; runFinalizer d ;;; resurrections n' r d
  end.

(** The value a computation returns, if it does not abort. *)
Definition result {A} (x : fault + (A * State)) : option A :=
  match x with
  | inl _ => None
  | inr (a, _) => Some a
  end.

(** The state a computation ends in, if it does not abort. *)
Definition final {A} (x : fault + (A * State)) : option State :=
  match x with
  | inl _ => None
  | inr (_, s) => Some s
  end.

(** What the loop of [ExtractAllMarked] appends for one registry entry,
    given the weakRef objects [h]: the value and order of a handle whose
    mark order is positive. *)
Definition marked_entry (h : list weakRef) (e : Z * nat) : option orderedVal :=
  match h !! e.2 with
  | Some wr =>
      if 0 <? markOrder wr
      then Some {| val := iface (w wr); order := markOrder wr |}
      else None
  | None => None
  end.

(** The marked values still in the registry, in iteration order. *)
Definition marked_registry (s : State) : sortabelVals :=
  omap (marked_entry (refs s)) (map_to_list (weakrefs s)).

(** Nothing is queued and no registered handle carries a mark. *)
Definition unmarked (s : State) : Prop :=
  pending s = [] ∧
  ∀ i r wr, weakrefs s !! i = Some r → refs s !! r = Some wr →
            markOrder wr ≤ 0.


(** The call is a [Mark]. *)
Definition is_Mark (o : op) : bool :=
  match o with
  | OpMark _ => true
  | _ => false
  end.

(** The number of calls of [Mark] in a sequence of calls. *)
Definition marks (ops : list op) : Z := Z.of_nat (length (filter is_Mark ops)).

(** The object at address [d], registered under type [t], has the live
    handle [r] with mark order [o] and its finalizer set. *)
Definition tracked (s : State) (d t o : Z) (r : nat) : Prop :=
  weakrefs s !! d = Some r ∧
  refs s !! r = Some {| w := (t, d); markOrder := o; status := wrAlive |} ∧
  finalizers s !! d = Some t.

(** [x] comes before [y] in the list [l]. *)
Definition before {A} (x y : A) (l : list A) : Prop :=
  ∃ l1 l2 l3, l = l1 ++ x :: l2 ++ y :: l3.

(** How many times [v] occurs in a list of values. *)
Definition occurrences (v : Iface) (l : list Iface) : nat :=
  length (filter (λ x, x = v) l).

(** The values of a list that have data word [d]. *)
Definition at_address (d : Z) (l : list Iface) : list Iface :=
  filter (λ v, idata v = d) l.

(** The call may create a handle for the object at address [d]. *)
Definition registers (d : Z) (o : op) : Prop :=
  match o with
  | OpGet v | OpMark v => idata v = d
  | _ => False
  end.

(** The object at address [i] is registered with mark order [o]. *)
Definition reg (s : State) (i o : Z) : Prop :=
  ∃ r wr, weakrefs s !! i = Some r ∧ refs s !! r = Some wr ∧ markOrder wr = o.

(** The mark orders in use are apart: those in the queue are positive,
    pairwise distinct and distinct from those of registered handles; no
    two registered handles share a positive one; none exceeds the
    counter. *)
Record orders_ok (s : State) : Prop := {
  ord_counter : 0 ≤ lastMarkOrder s;
  ord_pending : ∀ x, x ∈ pending s → 0 < order x ≤ lastMarkOrder s;
  ord_pending_NoDup : NoDup (order <$> pending s);
  ord_registry : ∀ i o, reg s i o → o ≤ lastMarkOrder s;
  ord_apart : ∀ i o x, reg s i o → x ∈ pending s → o ≠ order x;
  ord_registry_inj : ∀ i i' o, reg s i o → reg s i' o → 0 < o → i = i'
}.

(** Every allocated handle that is not dead is the one registered under
    the data word it copied. *)
Definition live_registered (s : State) : Prop :=
  ∀ r wr, refs s !! r = Some wr → status wr ≠ wrDead →
          weakrefs s !! id (w wr) = Some r.

(** The mark order of the handle registered for [v], 0 if there is none. *)
Definition order_of (s : State) (v : Iface) : Z :=
  match weakrefs s !! idata v with
  | Some r =>
      match refs s !! r with
      | Some wr => markOrder wr
      | None => 0
      end
  | None => 0
  end.

(** The values [vs] with the orders [base + 1], [base + 2], ... that
    successive calls of [Mark] give them. *)
Fixpoint stamped (base : Z) (vs : list Iface) : sortabelVals :=
  match vs with
  | [] => []
  | v :: vs' => {| val := v; order := base + 1 |} :: stamped (base + 1) vs'
  end.

(** ** Consequences of the contract, for any sort that meets it *)

Hypothesis sort_perm : ∀ vs, sort_Sort vs ≡ₚ vs.
Hypothesis sort_sorted :
  ∀ vs, StronglySorted (λ a b, Less b a = false) (sort_Sort vs).

Lemma sort_nil : sort_Sort [] = [].
Proof. apply Permutation_nil_r, sort_perm. Qed.

Lemma sort_vals_perm vs : vals (sort_Sort vs) ≡ₚ vals vs.
Proof. unfold vals. by rewrite sort_perm. Qed.

(** Descending, not necessarily strictly. *)
Lemma sort_descending vs :
  StronglySorted (λ a b, order b ≤ order a) (sort_Sort vs).
Proof.
  eapply StronglySorted_ind with (R := λ a b, Less b a = false);
    [constructor| |apply sort_sorted].
  intros a l _ IH Ha. constructor; [done|].
  eapply Forall_impl; [exact Ha|].
  intros b Hb. unfold Less in Hb. by apply Z.ltb_ge in Hb.
Qed.

(** Strictly descending when no two orders coincide. *)
Lemma sort_strictly_descending vs :
  NoDup (order <$> vs) →
  StronglySorted (λ a b, order b < order a) (sort_Sort vs).
Proof.
  intros Hnd.
  assert (NoDup (order <$> sort_Sort vs)) as Hnd'.
  { by rewrite sort_perm. }
  pose proof (sort_descending vs) as Hs.
  induction Hs as [|a l Hl IH Ha]; [constructor|].
  rewrite fmap_cons in Hnd'. apply NoDup_cons in Hnd' as [Hnotin Hnd'].
  constructor; [by apply IH|].
  rewrite Forall_forall in Ha |- *. intros b Hb.
  specialize (Ha b Hb).
  assert (order b ≠ order a); [|lia].
  intros Heq. apply Hnotin. rewrite <- Heq.
  by apply list_elem_of_fmap_2.
Qed.

(** With distinct orders the outcome is the same for every sort. *)
Lemma sort_unique vs sorted :
  sorted ≡ₚ vs →
  StronglySorted (λ a b, order b < order a) sorted →
  sort_Sort vs = sorted.
Proof.
  intros Hp Hs.
  assert (NoDup (order <$> vs)) as Hnd.
  { rewrite <- Hp. clear Hp.
    induction Hs as [|a l Hl IH Ha]; [constructor|].
    rewrite fmap_cons. apply NoDup_cons. split; [|done].
    intros Hin. apply list_elem_of_fmap in Hin as (b & Hb & Hbl).
    rewrite Forall_forall in Ha. specialize (Ha b Hbl). lia. }
  apply (StronglySorted_unique_strong (λ a b, order b < order a));
    [|by apply sort_strictly_descending|done|by rewrite sort_perm].
  intros x1 x2 _ _ ??. lia.
Qed.

(** Modelled from the spec: [runPrefinalizers] is called by the extraction
    methods but its body is not among the source files; the hook "must
    preserve order", and it hands back the list it was given. *)
Hypothesis runPrefinalizers_preserves : ∀ vs, runPrefinalizers vs = vs.

(** ** What each method computes *)

Ltac unfold_M :=
  unfold store, alloc; unfold bind, ret, gets, modify, throw, load.

Lemma bind_ok {A B} (m : M A) (k : A → M B) s a s' :
  m s = inr (a, s') → bind m k s = k a s'.
Proof. unfold bind. by intros ->. Qed.

Lemma bind_fault {A B} (m : M A) (k : A → M B) s e :
  m s = inl e → bind m k s = inl e.
Proof. unfold bind. by intros ->. Qed.

Lemma bind_inv {A B} (m : M A) (k : A → M B) s b s' :
  bind m k s = inr (b, s') → ∃ a s1, m s = inr (a, s1) ∧ k a s1 = inr (b, s').
Proof.
  unfold bind. destruct (m s) as [e|[a s1]]; [done|]. eauto.
Qed.

Lemma load_ok r s wr : refs s !! r = Some wr → load r s = inr (wr, s).
Proof. unfold load. by intros ->. Qed.

Lemma store_ok r f s wr :
  refs s !! r = Some wr →
  store r f s = inr (tt, set_refs (λ h, <[r := f wr]> h) s).
Proof. intros H. unfold store. by rewrite (bind_ok _ _ _ _ _ (load_ok _ _ _ H)). Qed.

Lemma SetFinalizer_eq v fin s :
  SetFinalizer v fin s =
  if itype v =? 0 then inl FinalizerNilArgument
  else if negb (kind_is_ptr (itype v)) then inl FinalizerNotPointer
  else if fin then
    match finalizers s !! idata v with
    | Some _ => inl FinalizerAlreadySet
    | None => inr (tt, set_finalizers (λ m, <[idata v := itype v]> m) s)
    end
  else inr (tt, set_finalizers (λ m, delete (idata v) m) s).
Proof.
  unfold SetFinalizer. unfold_M.
  repeat case_match; done.
Qed.


Lemma SetFinalizer_set v s :
  pointer_value v → finalizers s !! idata v = None →
  SetFinalizer v true s =
  inr (tt, set_finalizers (λ m, <[idata v := itype v]> m) s).
Proof.
  intros [Hnil Hptr] Hfin. rewrite SetFinalizer_eq.
  apply Z.eqb_neq in Hnil. by rewrite Hnil, Hptr, Hfin.
Qed.

Lemma SetFinalizer_clear v s :
  pointer_value v →
  SetFinalizer v false s =
  inr (tt, set_finalizers (λ m, delete (idata v) m) s).
Proof.
  intros [Hnil Hptr]. rewrite SetFinalizer_eq.
  apply Z.eqb_neq in Hnil. by rewrite Hnil, Hptr.
Qed.

Lemma SetFinalizer_inv v fin s s' :
  SetFinalizer v fin s = inr (tt, s') →
  pointer_value v ∧
  s' = set_finalizers
         (λ m, if fin then <[idata v := itype v]> m else delete (idata v) m) s ∧
  (fin = true → finalizers s !! idata v = None).
Proof.
  rewrite SetFinalizer_eq. unfold pointer_value.
  destruct (itype v =? 0) eqn:Hnil; [done|]. apply Z.eqb_neq in Hnil.
  destruct (kind_is_ptr (itype v)); simpl; [|done].
  destruct fin.
  - destruct (finalizers s !! idata v); [done|]. by intros [= <-].
  - by intros [= <-].
Qed.


Lemma get_eq v s :
  get v s =
  match weakrefs s !! idata v with
  | Some r => inr (r, s)
  | None =>
      if itype v =? 0 then inl FinalizerNilArgument
      else if negb (kind_is_ptr (itype v)) then inl FinalizerNotPointer
      else match finalizers s !! idata v with
           | Some _ => inl FinalizerAlreadySet
           | None => inr (length (refs s), registered v s)
           end
  end.
Proof.
  unfold get, SetFinalizer. unfold_M. simpl.
  repeat case_match; simplify_eq/=; done.
Qed.

Lemma get_hit v s r : weakrefs s !! idata v = Some r → get v s = inr (r, s).
Proof. intros H. by rewrite get_eq, H. Qed.

Lemma get_miss v s :
  weakrefs s !! idata v = None →
  pointer_value v → finalizers s !! idata v = None →
  get v s = inr (length (refs s), registered v s).
Proof.
  intros H [Hnil Hptr] Hfin. apply Z.eqb_neq in Hnil.
  by rewrite get_eq, H, Hnil, Hptr, Hfin.
Qed.

Lemma get_inv v s r s' :
  get v s = inr (r, s') →
  (weakrefs s !! idata v = Some r ∧ s' = s) ∨
  (weakrefs s !! idata v = None ∧ pointer_value v ∧
   finalizers s !! idata v = None ∧
   r = length (refs s) ∧ s' = registered v s).
Proof.
  rewrite get_eq. unfold pointer_value.
  destruct (weakrefs s !! idata v) as [r0|]; [intros [= <- <-]; by left|].
  destruct (itype v =? 0) eqn:Hnil; [done|]. apply Z.eqb_neq in Hnil.
  destruct (kind_is_ptr (itype v)); simpl; [|done].
  destruct (finalizers s !! idata v); [done|].
  intros [= <- <-]. by right.
Qed.

Lemma Mark_eq v s :
  Mark v s =
  match get v (set_lastMarkOrder (λ n, wrap_int (n + 1)) s) with
  | inl e => inl e
  | inr (r, s1) =>
      match refs s1 !! r with
      | Some wr =>
          inr (tt, set_refs (λ h, <[r := with_markOrder (lastMarkOrder s1) wr]> h) s1)
      | None => inl InvalidRef
      end
  end.
Proof.
  unfold Mark. unfold_M.
  destruct (get v _) as [e|[r s1]]; [done|].
  by destruct (refs s1 !! r).
Qed.


Lemma addPendingGC_eq v s :
  addPendingGC v s =
  match weakrefs s !! idata v with
  | None => inr (tt, s)
  | Some r =>
      match refs s !! r with
      | None => inl InvalidRef
      | Some wr =>
          if decide (status wr = wrResurrected) then
            SetFinalizer v true
              (set_refs (λ h, <[r := with_status wrAlive wr]> h) s)
          else inr (tt, declared_dead v r wr s)
      end
  end.
Proof.
  unfold addPendingGC. unfold_M. simpl.
  destruct (weakrefs s !! idata v) as [r|]; [|done].
  destruct (refs s !! r) as [wr|] eqn:Hr; [|done].
  destruct (decide (status wr = wrResurrected)).
  - by rewrite Hr.
  - rewrite Hr. unfold declared_dead. by destruct (0 <? markOrder wr).
Qed.

Lemma Value_eq r s :
  Value r s =
  match refs s !! r with
  | None => inl InvalidRef
  | Some wr =>
      if decide (status wr = wrDead) then inr (nil_iface, s)
      else inr (iface (w wr),
                set_refs (λ h, <[r := with_status wrResurrected wr]> h) s)
  end.
Proof.
  unfold Value. unfold_M.
  destruct (refs s !! r) as [wr|] eqn:Hr; [|done].
  destruct (decide (status wr = wrDead)); [done|]. by rewrite Hr.
Qed.

Lemma runFinalizer_eq d s :
  runFinalizer d s =
  match finalizers s !! d with
  | None => inr (tt, s)
  | Some t =>
      addPendingGC {| itype := t; idata := d |}
        (set_finalizers (λ m, delete d m) s)
  end.
Proof.
  unfold runFinalizer. unfold_M. by destruct (finalizers s !! d).
Qed.

Lemma ExtractDeadMarked_eq s :
  ExtractDeadMarked s =
  match pending s with
  | [] => inr ([], s)
  | _ => inr (vals (sort_Sort (pending s)), set_pending (λ _, []) s)
  end.
Proof.
  unfold ExtractDeadMarked. unfold_M.
  destruct (pending s); [done|]. by rewrite runPrefinalizers_preserves.
Qed.

Lemma set_pending_nil s : pending s = [] → set_pending (λ _, []) s = s.
Proof. destruct s. simpl. by intros ->. Qed.

Lemma ExtractDeadMarked_run s :
  ExtractDeadMarked s =
  inr (vals (sort_Sort (pending s)), set_pending (λ _, []) s).
Proof.
  rewrite ExtractDeadMarked_eq. destruct (pending s) eqn:Hp; [|done].
  by rewrite sort_nil, set_pending_nil.
Qed.

Lemma rangeMarked_cons i r entries marked s :
  rangeMarked ((i, r) :: entries) marked s =
  match refs s !! r with
  | None => inl InvalidRef
  | Some wr =>
      if 0 <? markOrder wr then
        match SetFinalizer (iface (w wr)) false
                (set_refs (λ h, <[r := with_markOrder 0 wr]> h) s) with
        | inl e => inl e
        | inr (_, s1) =>
            rangeMarked entries
              (marked ++ [{| val := iface (w wr); order := markOrder wr |}]) s1
        end
      else rangeMarked entries marked s
  end.
Proof.
  simpl. unfold_M.
  destruct (refs s !! r) as [wr|] eqn:Hr; [|done].
  destruct (0 <? markOrder wr); [|done].
  rewrite Hr. by destruct (SetFinalizer _ _ _) as [e|[[] s1]].
Qed.

Lemma ExtractAllMarked_eq s :
  ExtractAllMarked s =
  match rangeMarked (map_to_list (weakrefs s)) (pending s) s with
  | inl e => inl e
  | inr (marked, s1) =>
      inr (vals (sort_Sort marked), set_pending (λ _, []) s1)
  end.
Proof.
  unfold ExtractAllMarked. unfold_M.
  destruct (rangeMarked _ _ _) as [e|[marked s1]]; [done|].
  by rewrite runPrefinalizers_preserves.
Qed.

(** ** The invariant is maintained *)


Lemma pool_ok_new : pool_ok NewUnsafePool.
Proof. split; simpl; intros ??; by rewrite lookup_empty. Qed.

(** Two registry keys never share a weakRef. *)
Lemma registry_inj s i i' r :
  pool_ok s → weakrefs s !! i = Some r → weakrefs s !! i' = Some r → i = i'.
Proof.
  intros Hok Hi Hi'.
  destruct (ok_registry _ Hok _ _ Hi) as (wr & Hr & Hid & _).
  destruct (ok_registry _ Hok _ _ Hi') as (wr' & Hr' & Hid' & _).
  congruence.
Qed.

Lemma pool_ok_set_ref s r wr wr' :
  pool_ok s → refs s !! r = Some wr → w wr' = w wr →
  (status wr ≠ wrDead → status wr' ≠ wrDead) →
  pool_ok (set_refs (λ h, <[r := wr']> h) s).
Proof.
  intros Hok Hr Hw Hst. split; simpl.
  - intros i r0 Hi.
    destruct (ok_registry _ Hok _ _ Hi) as (wr0 & Hr0 & Hid & Hdead & Hptr).
    destruct (decide (r0 = r)) as [->|Hne].
    + exists wr'. assert (wr0 = wr) as -> by congruence.
      rewrite list_lookup_insert_eq by (by eapply lookup_lt_Some).
      rewrite Hw. auto.
    + exists wr0. by rewrite list_lookup_insert_ne.
  - apply (ok_finalizers _ Hok).
Qed.

Lemma pool_ok_registered v s :
  pool_ok s → pointer_value v → pool_ok (registered v s).
Proof.
  intros Hok Hv. split; simpl.
  - intros i r. rewrite lookup_insert. case_decide as Hi.
    + intros [= <-]. eexists. split; [|split; [|split]].
      * rewrite lookup_app_r by lia. by rewrite Nat.sub_diag.
      * by subst.
      * done.
      * by destruct v.
    + intros Hr. destruct (ok_registry _ Hok _ _ Hr) as (wr & Hwr & ?).
      exists wr. split; [|done]. by apply lookup_app_l_Some.
  - intros d t. destruct (decide (idata v = d)) as [<-|Hd].
    + rewrite !lookup_insert_eq. intros [= <-]. split; [by destruct v|eauto].
    + rewrite !lookup_insert_ne by done. apply (ok_finalizers _ Hok).
Qed.

Lemma pool_ok_get v s r s' : pool_ok s → get v s = inr (r, s') → pool_ok s'.
Proof.
  intros Hok Hget.
  apply get_inv in Hget as [[_ ->]|(_ & Hv & _ & _ & ->)]; [done|].
  by apply pool_ok_registered.
Qed.

(** The handle [get] returns is allocated. *)
Lemma get_allocated v s r s' :
  pool_ok s → get v s = inr (r, s') → weakrefs s' !! idata v = Some r ∧
  ∃ wr, refs s' !! r = Some wr.
Proof.
  intros Hok Hget. pose proof (pool_ok_get _ _ _ _ Hok Hget) as Hok'.
  assert (weakrefs s' !! idata v = Some r) as Hr.
  { apply get_inv in Hget as [[? ->]|(_ & _ & _ & -> & ->)]; [done|].
    simpl. by rewrite lookup_insert_eq. }
  split; [done|].
  destruct (ok_registry _ Hok' _ _ Hr) as (wr & ? & _). eauto.
Qed.

Lemma pool_ok_Mark v s s' : pool_ok s → Mark v s = inr (tt, s') → pool_ok s'.
Proof.
  intros Hok. rewrite Mark_eq.
  destruct (get v _) as [e|[r s1]] eqn:Hget; [done|].
  assert (pool_ok s1) as Hok1.
  { eapply pool_ok_get; [|exact Hget]. by destruct Hok. }
  destruct (refs s1 !! r) as [wr|] eqn:Hr; [|done].
  intros [= <-]. by eapply pool_ok_set_ref.
Qed.

Lemma pool_ok_Value r s v s' : pool_ok s → Value r s = inr (v, s') → pool_ok s'.
Proof.
  intros Hok. rewrite Value_eq.
  destruct (refs s !! r) as [wr|] eqn:Hr; [|done].
  destruct (decide (status wr = wrDead)); intros [= <- <-]; [done|].
  by eapply pool_ok_set_ref.
Qed.

Lemma pool_ok_ExtractDeadMarked s out s' :
  pool_ok s → ExtractDeadMarked s = inr (out, s') → pool_ok s'.
Proof.
  intros Hok. rewrite ExtractDeadMarked_run. intros [= <- <-].
  by destruct Hok.
Qed.

Lemma pool_ok_clear_finalizer d s :
  pool_ok s → pool_ok (set_finalizers (λ m, delete d m) s).
Proof.
  intros Hok. split; simpl; [apply (ok_registry _ Hok)|].
  intros d' t Hd'. apply lookup_delete_Some in Hd' as [_ Hd'].
  by apply (ok_finalizers _ Hok).
Qed.

Lemma pool_ok_declared_dead v r wr s :
  pool_ok s → weakrefs s !! idata v = Some r → refs s !! r = Some wr →
  finalizers s !! idata v = None →
  pool_ok (declared_dead v r wr s).
Proof.
  intros Hok Hi Hr Hfin. split; simpl.
  - intros i r0 Hi0. apply lookup_delete_Some in Hi0 as [Hne Hi0].
    destruct (ok_registry _ Hok _ _ Hi0) as (wr0 & Hr0 & Hrest).
    exists wr0. split; [|done].
    rewrite list_lookup_insert_ne; [done|].
    intros <-. apply Hne. by eapply registry_inj.
  - intros d t Hd. destruct (ok_finalizers _ Hok _ _ Hd) as [Hptr Hreg].
    split; [done|]. rewrite lookup_delete_ne; [done|]. congruence.
Qed.

Lemma pool_ok_runFinalizer d s s' :
  pool_ok s → runFinalizer d s = inr (tt, s') → pool_ok s'.
Proof.
  intros Hok. rewrite runFinalizer_eq.
  destruct (finalizers s !! d) as [t|] eqn:Hfin; [|by intros [= <-]].
  rewrite addPendingGC_eq. simpl.
  pose proof (pool_ok_clear_finalizer d s Hok) as Hok0.
  destruct (weakrefs s !! d) as [r|] eqn:Hi; [|by intros [= <-]].
  destruct (refs s !! r) as [wr|] eqn:Hr; [|done].
  destruct (decide (status wr = wrResurrected)) as [Hst|Hst].
  - intros Hset. apply SetFinalizer_inv in Hset as (Hptr & -> & _).
    assert (pool_ok (set_refs (λ h, <[r := with_status wrAlive wr]> h)
                       (set_finalizers (λ m, delete d m) s))) as Hok1.
    { by apply (pool_ok_set_ref _ r wr). }
    split; simpl.
    + apply (ok_registry _ Hok1).
    + intros d' t'. rewrite lookup_insert. case_decide as Hd.
      * intros [= <-]. subst d'. split; [done|eauto].
      * intros Hd'. apply lookup_delete_Some in Hd' as [_ Hd'].
        by apply (ok_finalizers _ Hok).
  - intros [= <-].
    apply (pool_ok_declared_dead {| itype := t; idata := d |} r wr _ Hok0);
      simpl; [done|done|]. apply lookup_delete_eq.
Qed.

Lemma pool_ok_rangeMarked entries marked s marked' s' :
  pool_ok s → rangeMarked entries marked s = inr (marked', s') → pool_ok s'.
Proof.
  revert marked s. induction entries as [|[i r] entries IH]; intros marked s Hok.
  { by intros [= <- <-]. }
  rewrite rangeMarked_cons.
  destruct (refs s !! r) as [wr|] eqn:Hr; [|done].
  destruct (0 <? markOrder wr); [|by apply IH].
  destruct (SetFinalizer _ _ _) as [e|[[] s1]] eqn:Hset; [done|].
  apply SetFinalizer_inv in Hset as (_ & -> & _).
  apply IH. apply pool_ok_clear_finalizer.
  by eapply pool_ok_set_ref.
Qed.

Lemma pool_ok_ExtractAllMarked s out s' :
  pool_ok s → ExtractAllMarked s = inr (out, s') → pool_ok s'.
Proof.
  intros Hok. rewrite ExtractAllMarked_eq.
  destruct (rangeMarked _ _ _) as [e|[marked s1]] eqn:Hrange; [done|].
  intros [= <- <-].
  apply pool_ok_rangeMarked in Hrange; [|done]. by destruct Hrange.
Qed.

(** ** Handles: [Get] and [Value] *)

Lemma unregistered_no_finalizer s d :
  pool_ok s → weakrefs s !! d = None → finalizers s !! d = None.
Proof.
  intros Hok Hd. destruct (finalizers s !! d) as [t|] eqn:Hf; [|done].
  destruct (ok_finalizers _ Hok _ _ Hf) as [_ [r Hr]]. congruence.
Qed.

Lemma Get_succeeds v s :
  pool_ok s → pointer_value v → ∃ r s1, Get v s = inr (r, s1).
Proof.
  intros Hok Hv. unfold Get.
  destruct (weakrefs s !! idata v) as [r|] eqn:Hi.
  - rewrite (get_hit _ _ _ Hi). eauto.
  - rewrite (get_miss _ _ Hi Hv); [eauto|].
    by apply unregistered_no_finalizer.
Qed.

Lemma iface_getwiface v : iface (getwiface v) = v.
Proof. by destruct v. Qed.

(** C7. For a pointer value [V], [Get(V)] succeeds and a second [Get(V)]
    returns the same weakRef pointer and leaves the whole state, hence the
    handle's mark order and status, as it was; this holds in whatever
    state the second call is made, as long as the handle is registered. *)
Theorem Get_twice_same_handle v s :
  pool_ok s → pointer_value v →
  ∃ r s1,
    Get v s = inr (r, s1) ∧
    Get v s1 = inr (r, s1) ∧
    weakrefs s1 !! id (getwiface v) = Some r ∧
    (∀ s2, weakrefs s2 !! id (getwiface v) = Some r → Get v s2 = inr (r, s2)).
Proof.
  intros Hok Hv. destruct (Get_succeeds v s Hok Hv) as (r & s1 & Hget).
  exists r, s1. unfold Get in *.
  destruct (get_allocated _ _ _ _ Hok Hget) as [Hreg _].
  split; [done|]. split; [by apply get_hit|]. split; [done|].
  intros s2 Hs2. by apply get_hit.
Qed.

(** The handle [Get] returns is registered under the data word, so it is
    the one any value with that data word gets; its [Value()] rebuilds
    the value whose words it copied. *)
Lemma Get_shared_handle v1 v2 s r s1 :
  pool_ok s → idata v1 = idata v2 →
  Get v1 s = inr (r, s1) →
  Get v2 s1 = inr (r, s1) ∧
  ∃ wr,
    refs s1 !! r = Some wr ∧
    Value r s1 =
      inr (iface (w wr),
           set_refs (λ h, <[r := with_status wrResurrected wr]> h) s1) ∧
    (weakrefs s !! idata v1 = None → iface (w wr) = v1).
Proof.
  intros Hok Hdata Hget. unfold Get in *.
  destruct (get_allocated _ _ _ _ Hok Hget) as [Hreg _].
  pose proof (pool_ok_get _ _ _ _ Hok Hget) as Hok1.
  split; [apply get_hit; by rewrite <- Hdata|].
  destruct (ok_registry _ Hok1 _ _ Hreg) as (wr & Hr & _ & Hst & _).
  exists wr. split; [done|]. split.
  - rewrite Value_eq, Hr. by rewrite decide_False.
  - intros Hnone.
    apply get_inv in Hget as [[? _]|(_ & _ & _ & -> & ->)]; [congruence|].
    simpl in Hr. rewrite lookup_app_r in Hr by lia.
    rewrite Nat.sub_diag in Hr. simpl in Hr. simplify_eq. simpl.
    apply iface_getwiface.
Qed.

(** C10. The registry key is the data word alone, so two values with the
    same data word get the same weakRef, whatever the type word of the
    second; the handle's [Value()] rebuilds the value whose words it
    copied, which is the first one registered, with its type word. *)
Theorem Get_same_data_word v1 v2 s r s1 :
  pool_ok s → idata v1 = idata v2 →
  Get v1 s = inr (r, s1) →
  id (getwiface v1) = idata v1 ∧
  id (getwiface v2) = id (getwiface v1) ∧
  Get v2 s1 = inr (r, s1) ∧
  ∃ wr,
    refs s1 !! r = Some wr ∧
    Value r s1 =
      inr (iface (w wr),
           set_refs (λ h, <[r := with_status wrResurrected wr]> h) s1) ∧
    (weakrefs s !! idata v1 = None → iface (w wr) = v1).
Proof.
  intros Hok Hdata Hget.
  split; [done|]. split; [by simpl|].
  by apply Get_shared_handle.
Qed.

(** C8, amended. [Get(V).Value()] returns the value whose words the
    registered handle copied; this is [V] itself when the handle under
    [V]'s data word, if there is one already, was made for [V]. *)
Theorem Get_then_Value v s :
  pool_ok s → pointer_value v →
  (∀ r wr, weakrefs s !! idata v = Some r → refs s !! r = Some wr →
           w wr = getwiface v) →
  ∃ r s1 s2, Get v s = inr (r, s1) ∧ Value r s1 = inr (v, s2).
Proof.
  intros Hok Hv Hsame.
  destruct (Get_succeeds v s Hok Hv) as (r & s1 & Hget).
  destruct (Get_shared_handle v v s r s1 Hok eq_refl Hget)
    as (_ & wr & Hr & Hval & Hfirst).
  exists r, s1. eexists. split; [done|]. rewrite Hval.
  assert (iface (w wr) = v) as ->; [|done].
  unfold Get in Hget.
  destruct (weakrefs s !! idata v) as [r0|] eqn:Hi; [|by apply Hfirst].
  rewrite (get_hit _ _ _ Hi) in Hget. simplify_eq.
  rewrite (Hsame _ _ eq_refl Hr). apply iface_getwiface.
Qed.

(** ** The reclamation callback *)

Lemma set_finalizers_restore s d t :
  finalizers s !! d = Some t →
  set_finalizers (λ m, <[d := t]> m) (set_finalizers (λ m, delete d m) s) = s.
Proof.
  intros Hf. destruct s as [wk pd lm rf fs]. unfold set_finalizers. simpl in *.
  f_equal. rewrite insert_delete_eq. by apply insert_id.
Qed.

Lemma set_refs_finalizers f g s :
  set_finalizers g (set_refs f s) = set_refs f (set_finalizers g s).
Proof. done. Qed.

(** The callback on a resurrected handle: only the status changes. *)
Lemma resurrected_callback_run d s r wr t :
  pool_ok s →
  weakrefs s !! d = Some r → refs s !! r = Some wr →
  status wr = wrResurrected → finalizers s !! d = Some t →
  runFinalizer d s =
  inr (tt, set_refs (λ h, <[r := with_status wrAlive wr]> h) s).
Proof.
  intros Hok Hi Hr Hst Hf.
  rewrite runFinalizer_eq, Hf, addPendingGC_eq. simpl.
  rewrite Hi, Hr, decide_True by done.
  destruct (ok_finalizers _ Hok _ _ Hf) as [Hptr _].
  rewrite SetFinalizer_set; [|done|simpl; apply lookup_delete_eq]. simpl.
  by rewrite set_refs_finalizers, set_finalizers_restore.
Qed.

(** The callback on a handle nobody read since the last one: the handle
    dies, its value is queued if marked, the registry entry goes. *)
Lemma dead_callback_run d s r wr t :
  weakrefs s !! d = Some r → refs s !! r = Some wr →
  status wr ≠ wrResurrected → finalizers s !! d = Some t →
  runFinalizer d s =
  inr (tt, declared_dead {| itype := t; idata := d |} r wr
             (set_finalizers (λ m, delete d m) s)).
Proof.
  intros Hi Hr Hst Hf.
  rewrite runFinalizer_eq, Hf, addPendingGC_eq. simpl.
  by rewrite Hi, Hr, decide_False.
Qed.

Lemma Value_live_run r s wr :
  refs s !! r = Some wr → status wr ≠ wrDead →
  Value r s =
  inr (iface (w wr), set_refs (λ h, <[r := with_status wrResurrected wr]> h) s).
Proof. intros Hr Hst. by rewrite Value_eq, Hr, decide_False. Qed.

Lemma resurrection_cycle d s r t :
  pool_ok s → weakrefs s !! d = Some r → finalizers s !! d = Some t →
  ∃ s' wr',
    (Value r ;;; runFinalizer d) s = inr (tt, s') ∧
    pool_ok s' ∧
    pending s' = pending s ∧ weakrefs s' = weakrefs s ∧
    finalizers s' = finalizers s ∧
    refs s' !! r = Some wr' ∧ status wr' = wrAlive.
Proof.
  intros Hok Hi Hf.
  destruct (ok_registry _ Hok _ _ Hi) as (wr & Hr & _ & Hst & _).
  rewrite (bind_ok _ _ _ _ _ (Value_live_run _ _ _ Hr Hst)).
  set (s1 := set_refs (λ h, <[r := with_status wrResurrected wr]> h) s).
  assert (pool_ok s1) as Hok1 by (by eapply pool_ok_set_ref).
  assert (refs s1 !! r = Some (with_status wrResurrected wr)) as Hr1.
  { simpl. apply list_lookup_insert_eq. by eapply lookup_lt_Some. }
  rewrite (resurrected_callback_run d s1 r _ t Hok1 Hi Hr1 eq_refl Hf).
  eexists _, _. split; [done|].
  split; [by eapply pool_ok_set_ref|]. simpl.
  do 3 (split; [done|]). split.
  - apply list_lookup_insert_eq. rewrite length_insert.
    by eapply lookup_lt_Some.
  - done.
Qed.

Lemma resurrections_alive n d s r t wr :
  pool_ok s → weakrefs s !! d = Some r → finalizers s !! d = Some t →
  refs s !! r = Some wr → status wr = wrAlive →
  ∃ s' wr',
    resurrections n r d s = inr (tt, s') ∧
    pending s' = pending s ∧ weakrefs s' = weakrefs s ∧
    finalizers s' = finalizers s ∧
    refs s' !! r = Some wr' ∧ status wr' = wrAlive.
Proof.
  revert s wr. induction n as [|n IH]; intros s wr Hok Hi Hf Hr Hst.
  { by exists s, wr. }
  destruct (resurrection_cycle d s r t Hok Hi Hf)
    as (s1 & wr1 & Hrun & Hok1 & Hp & Hw & Hfs & Hr1 & Hst1).
  apply bind_inv in Hrun as (v & s0 & Hv & Hfin).
  simpl. rewrite (bind_ok _ _ _ _ _ Hv), (bind_ok _ _ _ _ _ Hfin).
  destruct (IH s1 wr1) as (s' & wr' & Hrun' & Hp' & Hw' & Hfs' & Hr' & Hst');
    [done|by rewrite Hw|by rewrite Hfs|done|done|].
  exists s', wr'. split; [done|].
  split; [congruence|]. split; [congruence|]. split; [congruence|]. done.
Qed.

(** C2. When the handle of the object at [d] is Resurrected, the next
    reclamation callback sets it back to Alive, sets the finalizer on the
    object again and queues nothing: the state is the old one with that
    status changed. So over any number of collector cycles in which
    [Value()] is called before the callback, the pending queue stays as it
    is and the value stays registered; the cycle that follows without a
    call of [Value()] is the one that declares the handle dead and queues
    the value if it is marked. *)
Theorem runFinalizer_resurrected d s r wr t :
  pool_ok s →
  weakrefs s !! d = Some r → refs s !! r = Some wr →
  finalizers s !! d = Some t →
  (status wr = wrResurrected →
   ∃ s', runFinalizer d s = inr (tt, s') ∧
         s' = set_refs (λ h, <[r := with_status wrAlive wr]> h) s ∧
         refs s' !! r = Some (with_status wrAlive wr) ∧
         finalizers s' !! d = Some t ∧
         weakrefs s' !! d = Some r ∧
         pending s' = pending s) ∧
  (∀ n, ∃ sn wrn,
     resurrections n r d s = inr (tt, sn) ∧
     pending sn = pending s ∧ weakrefs sn !! d = Some r ∧
     finalizers sn !! d = Some t ∧
     refs sn !! r = Some wrn ∧
     (n ≠ O → status wrn = wrAlive ∧
       runFinalizer d sn =
       inr (tt, declared_dead {| itype := t; idata := d |} r wrn
                  (set_finalizers (λ m, delete d m) sn)))).
Proof.
  intros Hok Hi Hr Hf. split.
  - intros Hst. eexists. split; [by eapply resurrected_callback_run|].
    split; [done|]. simpl. split; [|done].
    apply list_lookup_insert_eq. by eapply lookup_lt_Some.
  - intros n. destruct n as [|n].
    { by exists s, wr. }
    destruct (resurrection_cycle d s r t Hok Hi Hf)
      as (s1 & wr1 & Hrun & Hok1 & Hp & Hw & Hfs & Hr1 & Hst1).
    apply bind_inv in Hrun as (v & s0 & Hv & Hfin).
    simpl. rewrite (bind_ok _ _ _ _ _ Hv), (bind_ok _ _ _ _ _ Hfin).
    destruct (resurrections_alive n d s1 r t wr1)
      as (s' & wr' & Hrun' & Hp' & Hw' & Hfs' & Hr' & Hst');
      [done|by rewrite Hw|by rewrite Hfs|done|done|].
    exists s', wr'. split; [done|].
    split; [congruence|]. split; [congruence|]. split; [congruence|].
    split; [done|]. intros _. split; [done|].
    apply dead_callback_run; [congruence|done|by rewrite Hst'|congruence].
Qed.

(** ** Sequences of calls *)

Lemma step_inv o s out s' :
  step o s = inr (out, s') →
  match o with
  | OpGet v => out = [] ∧ ∃ r, get v s = inr (r, s')
  | OpMark v => out = [] ∧ Mark v s = inr (tt, s')
  | OpValue r => out = [] ∧ ∃ v, Value r s = inr (v, s')
  | OpCollect d => out = [] ∧ runFinalizer d s = inr (tt, s')
  | OpExtractDeadMarked => ExtractDeadMarked s = inr (out, s')
  | OpExtractAllMarked => ExtractAllMarked s = inr (out, s')
  end.
Proof.
  destruct o; simpl; try done; unfold Get; intros H;
    apply bind_inv in H as (a & s1 & Hm & Hret);
    unfold ret in Hret; simplify_eq; try destruct a; eauto.
Qed.

Lemma run_cons_inv o ops s outs s' :
  run (o :: ops) s = inr (outs, s') →
  ∃ out s1 outs', step o s = inr (out, s1) ∧ run ops s1 = inr (outs', s') ∧
                  outs = out ++ outs'.
Proof.
  simpl. intros H.
  apply bind_inv in H as (out & s1 & Hstep & H).
  apply bind_inv in H as (outs' & s2 & Hrun & Hret).
  unfold ret in Hret. simplify_eq. eauto 6.
Qed.

Lemma pool_ok_step o s out s' : pool_ok s → step o s = inr (out, s') → pool_ok s'.
Proof.
  intros Hok Hstep. apply step_inv in Hstep. destruct o.
  - destruct Hstep as [_ [r Hget]]. by eapply pool_ok_get.
  - destruct Hstep as [_ HM]. by eapply pool_ok_Mark.
  - destruct Hstep as [_ [v Hval]]. by eapply pool_ok_Value.
  - destruct Hstep as [_ Hfin]. by eapply pool_ok_runFinalizer.
  - by eapply pool_ok_ExtractDeadMarked.
  - by eapply pool_ok_ExtractAllMarked.
Qed.

Lemma pool_ok_run ops s outs s' : pool_ok s → run ops s = inr (outs, s') → pool_ok s'.
Proof.
  revert s outs. induction ops as [|o ops IH]; intros s outs Hok.
  { by intros [= <- <-]. }
  intros (out & s1 & outs' & Hstep & Hrun & _)%run_cons_inv.
  eapply IH; [|exact Hrun]. by eapply pool_ok_step.
Qed.

(** ** What the calls do to the pending queue *)

Lemma Mark_pending v s s' : Mark v s = inr (tt, s') → pending s' = pending s.
Proof.
  rewrite Mark_eq. destruct (get v _) as [e|[r s1]] eqn:Hget; [done|].
  destruct (refs s1 !! r); [|done]. intros [= <-]. simpl.
  apply get_inv in Hget as [[_ ->]|(_ & _ & _ & _ & ->)]; done.
Qed.

Lemma rangeMarked_pending entries marked s marked' s' :
  rangeMarked entries marked s = inr (marked', s') → pending s' = pending s.
Proof.
  revert marked s. induction entries as [|[i r] entries IH]; intros marked s.
  { by intros [= <- <-]. }
  rewrite rangeMarked_cons.
  destruct (refs s !! r) as [wr|]; [|done].
  destruct (0 <? markOrder wr); [|by apply IH].
  destruct (SetFinalizer _ _ _) as [e|[[] s1]] eqn:Hset; [done|].
  apply SetFinalizer_inv in Hset as (_ & -> & _).
  intros H. by apply IH in H.
Qed.

(** A queue entry present after a call was there before, or the call was
    the collection of the object it refers to. *)
Lemma step_pending o s out s' x :
  step o s = inr (out, s') → x ∈ pending s' →
  x ∈ pending s ∨ o = OpCollect (idata (val x)).
Proof.
  intros Hstep Hx. apply step_inv in Hstep. destruct o.
  - destruct Hstep as [_ [r Hget]].
    apply get_inv in Hget as [[_ ->]|(_ & _ & _ & _ & ->)]; by left.
  - destruct Hstep as [_ HM]. left. by rewrite <- (Mark_pending _ _ _ HM).
  - destruct Hstep as [_ [v Hv]]. rewrite Value_eq in Hv.
    destruct (refs s !! r) as [wr|]; [|done].
    destruct (decide _); simplify_eq; by left.
  - destruct Hstep as [_ Hfin]. rewrite runFinalizer_eq in Hfin.
    destruct (finalizers s !! d) as [t|]; [|simplify_eq; by left].
    rewrite addPendingGC_eq in Hfin. simpl in Hfin.
    destruct (weakrefs s !! d) as [r|]; [|simplify_eq; by left].
    destruct (refs s !! r) as [wr|]; [|done].
    destruct (decide _).
    + apply SetFinalizer_inv in Hfin as (_ & -> & _). by left.
    + simplify_eq. simpl in Hx.
      destruct (0 <? markOrder wr); [|by left].
      apply elem_of_app in Hx as [Hx|Hx]; [by left|].
      apply list_elem_of_singleton in Hx as ->. by right.
  - rewrite ExtractDeadMarked_run in Hstep. simplify_eq.
    simpl in Hx. by apply elem_of_nil in Hx.
  - rewrite ExtractAllMarked_eq in Hstep.
    destruct (rangeMarked _ _ _) as [e|[marked s1]]; [done|].
    simplify_eq. simpl in Hx. by apply elem_of_nil in Hx.
Qed.

Lemma run_pending ops s outs s' x :
  run ops s = inr (outs, s') → x ∈ pending s' →
  x ∈ pending s ∨ OpCollect (idata (val x)) ∈ ops.
Proof.
  revert s outs. induction ops as [|o ops IH]; intros s outs.
  { intros [= <- <-]. by left. }
  intros (out & s1 & outs' & Hstep & Hrun & _)%run_cons_inv Hx.
  destruct (IH _ _ Hrun Hx) as [Hx1|Hin]; [|right; by right].
  destruct (step_pending _ _ _ _ _ Hstep Hx1) as [?| ->]; [by left|].
  right. by left.
Qed.

(** ** Extraction of the pending values *)

(** C1. [ExtractDeadMarked], the pool's extraction of the values pending
    finalization, returns exactly the values of the queue, one for each
    entry, in strictly descending mark order (the orders in the queue
    being pairwise distinct, as [reachable_pending_NoDup] shows them to be
    in the states a new pool reaches) and leaves the queue empty; called
    again at once it returns the empty list, and whatever it returns after
    further calls on the pool was queued by a reclamation callback that
    ran in between. *)
Theorem ExtractDeadMarked_sorted s :
  NoDup (order <$> pending s) →
  ∃ sorted out s1,
    ExtractDeadMarked s = inr (out, s1) ∧
    out = val <$> sorted ∧
    sorted ≡ₚ pending s ∧
    StronglySorted (λ a b, order b < order a) sorted ∧
    out ≡ₚ val <$> pending s ∧
    length out = length (pending s) ∧
    (∀ x, x ∈ pending s → val x ∈ out) ∧
    (∀ v, v ∈ out → ∃ x, x ∈ pending s ∧ val x = v) ∧
    s1 = set_pending (λ _, []) s ∧
    ExtractDeadMarked s1 = inr ([], s1) ∧
    ∀ ops outs s2 out' s3,
      run ops s1 = inr (outs, s2) →
      ExtractDeadMarked s2 = inr (out', s3) →
      ∀ v, v ∈ out' → OpCollect (idata v) ∈ ops.
Proof.
  intros Hnd.
  exists (sort_Sort (pending s)), (val <$> sort_Sort (pending s)),
         (set_pending (λ _, []) s).
  split; [apply ExtractDeadMarked_run|].
  split; [done|].
  split; [apply sort_perm|].
  split; [by apply sort_strictly_descending|].
  split; [by rewrite sort_perm|].
  split; [by rewrite length_fmap, sort_perm|].
  split.
  { intros x Hx. apply list_elem_of_fmap_2. by rewrite sort_perm. }
  split.
  { intros v (x & -> & Hx)%list_elem_of_fmap. exists x.
    split; [by rewrite <- (sort_perm (pending s))|done]. }
  split; [done|].
  split; [by rewrite ExtractDeadMarked_eq|].
  intros ops outs s2 out' s3 Hrun Hext v Hv.
  rewrite ExtractDeadMarked_run in Hext. simplify_eq.
  rewrite sort_vals_perm in Hv.
  apply list_elem_of_fmap in Hv as (x & -> & Hx).
  destruct (run_pending _ _ _ _ _ Hrun Hx) as [Hx0|?]; [|done].
  simpl in Hx0. by apply elem_of_nil in Hx0.
Qed.

(** ** Extraction of all marked values *)

Lemma registry_values_NoDup s :
  pool_ok s → NoDup (map_to_list (weakrefs s)).*2.
Proof.
  intros Hok. apply NoDup_fmap_2_strong; [|apply NoDup_map_to_list].
  intros [i r] [i' r'] Hi Hi' Heq. simpl in Heq. subst r'.
  apply elem_of_map_to_list in Hi, Hi'.
  f_equal. by eapply registry_inj.
Qed.

Lemma omap_ext_elem {A B} (f g : A → option B) (l : list A) :
  (∀ x, x ∈ l → f x = g x) → omap f l = omap g l.
Proof.
  induction l as [|x l IH]; intros Hfg; [done|]. csimpl.
  rewrite (Hfg x) by left. rewrite IH; [done|].
  intros y Hy. apply Hfg. by right.
Qed.

Lemma snd_fresh (entries : list (Z * nat)) e r :
  r ∉ entries.*2 → e ∈ entries → r ≠ e.2.
Proof. intros Hr He ->. apply Hr. by apply list_elem_of_fmap_2. Qed.

Lemma marked_entry_insert_ne h r wr e :
  e.2 ≠ r → marked_entry (<[r := wr]> h) e = marked_entry h e.
Proof. intros Hne. unfold marked_entry. by rewrite list_lookup_insert_ne. Qed.

(** The loop over a duplicate-free list of allocated handles: it appends
    the marked ones, resets their mark order, and touches nothing else of
    the pool. *)
Lemma rangeMarked_run entries marked s :
  NoDup entries.*2 →
  (∀ e, e ∈ entries →
        ∃ wr, refs s !! e.2 = Some wr ∧ pointer_value (iface (w wr))) →
  ∃ s',
    rangeMarked entries marked s =
      inr (marked ++ omap (marked_entry (refs s)) entries, s') ∧
    weakrefs s' = weakrefs s ∧ pending s' = pending s ∧
    lastMarkOrder s' = lastMarkOrder s ∧
    length (refs s') = length (refs s) ∧
    (∀ r, r ∉ entries.*2 → refs s' !! r = refs s !! r) ∧
    (∀ e wr, e ∈ entries → refs s !! e.2 = Some wr →
       refs s' !! e.2 =
         Some (if 0 <? markOrder wr then with_markOrder 0 wr else wr)).
Proof.
  revert marked s.
  induction entries as [|[i r] entries IH]; intros marked s Hnd Hall.
  { exists s. simpl. rewrite app_nil_r. repeat split; try done.
    intros e wr He. by apply elem_of_nil in He. }
  rewrite fmap_cons in Hnd. apply NoDup_cons in Hnd as [Hr Hnd]. simpl in Hr.
  destruct (Hall (i, r)) as (wr & Hwr & Hptr); [by left|]. simpl in Hwr.
  rewrite rangeMarked_cons, Hwr.
  destruct (0 <? markOrder wr) eqn:Hmark.
  - rewrite SetFinalizer_clear by done.
    set (s1 := set_finalizers _ _).
    destruct (IH (marked ++ [{| val := iface (w wr); order := markOrder wr |}])
                s1 Hnd) as (s' & Hrun & Hw & Hp & Hl & Hlen & Hout & Hin).
    { intros e He. destruct (Hall e) as (wr' & Hwr' & Hptr'); [by right|].
      exists wr'. split; [|done]. simpl.
      rewrite list_lookup_insert_ne; [done|]. by eapply snd_fresh. }
    exists s'. split.
    { rewrite Hrun. f_equal. f_equal. rewrite <- app_assoc. f_equal.
      simpl. unfold marked_entry at 2. simpl. rewrite Hwr, Hmark. simpl.
      f_equal. apply omap_ext_elem.
      intros e He. apply marked_entry_insert_ne.
      apply not_eq_sym. by eapply snd_fresh. }
    split; [done|]. split; [done|]. split; [done|].
    split; [by rewrite Hlen; simpl; rewrite length_insert|].
    split.
    + intros r0 Hr0. rewrite fmap_cons in Hr0. simpl in Hr0.
      apply not_elem_of_cons in Hr0 as [Hne Hr0].
      rewrite (Hout _ Hr0). simpl. by rewrite list_lookup_insert_ne.
    + intros e wr0 He Hwr0. apply elem_of_cons in He as [->|He].
      * simpl in *. rewrite (Hout _ Hr). simpl.
        assert (wr0 = wr) as -> by congruence. rewrite Hmark.
        apply list_lookup_insert_eq. by eapply lookup_lt_Some.
      * apply Hin; [done|]. simpl. rewrite list_lookup_insert_ne; [done|].
        by eapply snd_fresh.
  - destruct (IH marked s Hnd) as (s' & Hrun & Hw & Hp & Hl & Hlen & Hout & Hin).
    { intros e He. apply Hall. by right. }
    exists s'. split.
    { rewrite Hrun. simpl. unfold marked_entry at 2. simpl.
      by rewrite Hwr, Hmark. }
    split; [done|]. split; [done|]. split; [done|]. split; [done|].
    split.
    + intros r0 Hr0. rewrite fmap_cons in Hr0.
      apply not_elem_of_cons in Hr0 as [_ Hr0]. by apply Hout.
    + intros e wr0 He Hwr0. apply elem_of_cons in He as [->|He].
      * simpl in *. rewrite (Hout _ Hr).
        assert (wr0 = wr) as -> by congruence. by rewrite Hmark.
      * by apply Hin.
Qed.






(** [ExtractAllMarked] on a pool that satisfies the invariant. *)
Lemma ExtractAllMarked_run s :
  pool_ok s →
  ∃ s1,
    ExtractAllMarked s =
      inr (vals (sort_Sort (pending s ++ marked_registry s)), s1) ∧
    weakrefs s1 = weakrefs s ∧
    (∀ i r wr, weakrefs s !! i = Some r → refs s !! r = Some wr →
       refs s1 !! r =
         Some (if 0 <? markOrder wr then with_markOrder 0 wr else wr)) ∧
    unmarked s1.
Proof.
  intros Hok.
  destruct (rangeMarked_run (map_to_list (weakrefs s)) (pending s) s)
    as (s' & Hrun & Hw & Hp & Hl & Hlen & Hout & Hin).
  { by apply registry_values_NoDup. }
  { intros [i r] He. apply elem_of_map_to_list in He.
    destruct (ok_registry _ Hok _ _ He) as (wr & Hr & _ & _ & Hptr). eauto. }
  fold (marked_registry s) in Hrun.
  assert (∀ i r wr, weakrefs s !! i = Some r → refs s !! r = Some wr →
            refs s' !! r =
            Some (if 0 <? markOrder wr then with_markOrder 0 wr else wr))
    as Hreset.
  { intros i r wr Hi Hr. apply (Hin (i, r)); [|done].
    by apply elem_of_map_to_list. }
  exists (set_pending (λ _, []) s').
  split; [by rewrite ExtractAllMarked_eq, Hrun|].
  split; [done|]. split; [done|].
  split; [done|]. simpl. rewrite Hw. intros i r wr' Hi Hr'.
  destruct (ok_registry _ Hok _ _ Hi) as (wr & Hr & _).
  rewrite (Hreset _ _ _ Hi Hr) in Hr'. simplify_eq.
  destruct (0 <? markOrder wr) eqn:Hm; [done|]. by apply Z.ltb_ge.
Qed.


(** ** Marking *)

Lemma wrap_int_in_range z : int_min ≤ z ≤ int_max → wrap_int z = z.
Proof.
  unfold wrap_int, int_min, int_max. intros H.
  rewrite Z.mod_small; lia.
Qed.

Lemma Mark_fresh v s :
  weakrefs s !! idata v = None → pointer_value v →
  finalizers s !! idata v = None →
  Mark v s =
  inr (tt, {| weakrefs := <[idata v := length (refs s)]> (weakrefs s);
              pending := pending s;
              lastMarkOrder := wrap_int (lastMarkOrder s + 1);
              refs := refs s ++ [{| w := getwiface v;
                                    markOrder := wrap_int (lastMarkOrder s + 1);
                                    status := wrAlive |}];
              finalizers := <[idata v := itype v]> (finalizers s) |}).
Proof.
  intros Hi Hv Hf. rewrite Mark_eq.
  rewrite get_miss by done. simpl.
  rewrite lookup_app_r by lia. rewrite Nat.sub_diag. simpl.
  unfold set_refs, registered, with_markOrder. simpl. do 3 f_equal.
  rewrite insert_app_r_alt by lia. by rewrite Nat.sub_diag.
Qed.

Lemma Mark_registered v s r wr :
  weakrefs s !! idata v = Some r → refs s !! r = Some wr →
  Mark v s =
  inr (tt, set_refs
             (λ h, <[r := with_markOrder (wrap_int (lastMarkOrder s + 1)) wr]> h)
             (set_lastMarkOrder (λ n, wrap_int (n + 1)) s)).
Proof.
  intros Hi Hr. rewrite Mark_eq.
  rewrite (get_hit _ _ r) by done. simpl. by rewrite Hr.
Qed.

(** [Mark] on a pointer value goes through, and stamps the handle of the
    value with the counter it has just advanced. *)
Lemma Mark_stamps v s :
  pool_ok s → pointer_value v →
  ∃ r wr s',
    Mark v s = inr (tt, s') ∧
    lastMarkOrder s' = wrap_int (lastMarkOrder s + 1) ∧
    weakrefs s' !! idata v = Some r ∧ refs s' !! r = Some wr ∧
    markOrder wr = lastMarkOrder s'.
Proof.
  intros Hok Hv. destruct (weakrefs s !! idata v) as [r|] eqn:Hi.
  - destruct (ok_registry _ Hok _ _ Hi) as (wr & Hr & _).
    eexists r, _, _. split; [by apply Mark_registered|]. simpl.
    split; [done|]. split; [done|]. split.
    + apply list_lookup_insert_eq. by eapply lookup_lt_Some.
    + done.
  - eexists _, _, _. split.
    { apply Mark_fresh; [done|done|]. by apply unregistered_no_finalizer. }
    simpl. split; [done|]. split; [by rewrite lookup_insert_eq|].
    split.
    + rewrite lookup_app_r by lia. by rewrite Nat.sub_diag.
    + done.
Qed.

Lemma tracked_other_handle s d t o r d' t' o' r' :
  pool_ok s → tracked s d t o r → tracked s d' t' o' r' → d ≠ d' → r ≠ r'.
Proof.
  intros Hok (Hi & _) (Hi' & _) Hne <-. apply Hne. by eapply registry_inj.
Qed.

Lemma Mark_fresh_tracked v s :
  pool_ok s → pointer_value v → weakrefs s !! idata v = None →
  ∃ s',
    Mark v s = inr (tt, s') ∧ pool_ok s' ∧
    pending s' = pending s ∧
    lastMarkOrder s' = wrap_int (lastMarkOrder s + 1) ∧
    tracked s' (idata v) (itype v) (wrap_int (lastMarkOrder s + 1))
      (length (refs s)) ∧
    (∀ d, d ≠ idata v → weakrefs s' !! d = weakrefs s !! d) ∧
    (∀ d t o r, tracked s d t o r → tracked s' d t o r).
Proof.
  intros Hok Hv Hi.
  pose proof (unregistered_no_finalizer _ _ Hok Hi) as Hf.
  eexists. split; [by apply Mark_fresh|].
  split; [eapply pool_ok_Mark; [exact Hok|by apply Mark_fresh]|].
  unfold tracked. simpl. split; [done|]. split; [done|]. split.
  { rewrite !lookup_insert_eq. split; [done|]. split; [|done].
    rewrite lookup_app_r by lia. by rewrite Nat.sub_diag. }
  split; [intros d Hd; by rewrite lookup_insert_ne|].
  intros d t o r (Hd & Hr & Hfd).
  assert (d ≠ idata v) by congruence.
  rewrite !lookup_insert_ne by done. split; [done|]. split; [|done].
  by apply lookup_app_l_Some.
Qed.

Lemma Mark_again_tracked v s o r :
  pool_ok s → tracked s (idata v) (itype v) o r →
  ∃ s',
    Mark v s = inr (tt, s') ∧ pool_ok s' ∧
    pending s' = pending s ∧
    lastMarkOrder s' = wrap_int (lastMarkOrder s + 1) ∧
    tracked s' (idata v) (itype v) (wrap_int (lastMarkOrder s + 1)) r ∧
    (∀ d, weakrefs s' !! d = weakrefs s !! d) ∧
    (∀ d t o' r', d ≠ idata v → tracked s d t o' r' → tracked s' d t o' r').
Proof.
  intros Hok Htr. pose proof Htr as (Hi & Hr & Hf).
  eexists. split; [by eapply Mark_registered|].
  split; [eapply pool_ok_Mark; [exact Hok|by eapply Mark_registered]|].
  unfold tracked. simpl. split; [done|]. split; [done|]. split.
  { split; [done|]. split; [|done].
    apply list_lookup_insert_eq. by eapply lookup_lt_Some. }
  split; [done|].
  intros d t o' r' Hd Htr'. pose proof Htr' as (Hd' & Hr' & Hfd).
  split; [done|]. split; [|done].
  rewrite list_lookup_insert_ne; [done|].
  eapply tracked_other_handle; [exact Hok|exact Htr|exact Htr'|done].
Qed.

Lemma Collect_tracked s d t o r :
  pool_ok s → tracked s d t o r →
  ∃ s',
    runFinalizer d s = inr (tt, s') ∧ pool_ok s' ∧
    pending s' =
      (if 0 <? o then pending s ++ [{| val := {| itype := t; idata := d |};
                                       order := o |}]
       else pending s) ∧
    lastMarkOrder s' = lastMarkOrder s ∧
    weakrefs s' = delete d (weakrefs s) ∧
    refs s' !! r = Some {| w := (t, d); markOrder := o; status := wrDead |} ∧
    (∀ d' t' o' r', d' ≠ d → tracked s d' t' o' r' → tracked s' d' t' o' r').
Proof.
  intros Hok Htr. pose proof Htr as (Hi & Hr & Hf).
  assert (runFinalizer d s =
          inr (tt, declared_dead {| itype := t; idata := d |} r
                     {| w := (t, d); markOrder := o; status := wrAlive |}
                     (set_finalizers (λ m, delete d m) s))) as Hrun.
  { by apply dead_callback_run. }
  eexists. split; [exact Hrun|].
  split; [by eapply pool_ok_runFinalizer|].
  unfold tracked. simpl. split; [done|]. split; [done|]. split; [done|].
  split. { apply list_lookup_insert_eq. by eapply lookup_lt_Some. }
  intros d' t' o' r' Hd Htr'. pose proof Htr' as (Hd' & Hr' & Hfd).
  rewrite !lookup_delete_ne by done. split; [done|]. split; [|done].
  rewrite list_lookup_insert_ne; [done|].
  eapply tracked_other_handle; [exact Hok|exact Htr|exact Htr'|done].
Qed.

(** ** The mark counter *)

Lemma get_counter v s r s' :
  get v s = inr (r, s') → lastMarkOrder s' = lastMarkOrder s.
Proof. intros [[_ ->]|(_ & _ & _ & _ & ->)]%get_inv; done. Qed.

Lemma rangeMarked_counter entries marked s marked' s' :
  rangeMarked entries marked s = inr (marked', s') →
  lastMarkOrder s' = lastMarkOrder s.
Proof.
  revert marked s. induction entries as [|[i r] entries IH]; intros marked s.
  { by intros [= <- <-]. }
  rewrite rangeMarked_cons.
  destruct (refs s !! r) as [wr|]; [|done].
  destruct (0 <? markOrder wr); [|by apply IH].
  destruct (SetFinalizer _ _ _) as [e|[[] s1]] eqn:Hset; [done|].
  apply SetFinalizer_inv in Hset as (_ & -> & _).
  intros H. by apply IH in H.
Qed.

(** Only [Mark] moves the counter, by one wrapping increment. *)
Lemma step_counter o s out s' :
  step o s = inr (out, s') →
  lastMarkOrder s' =
    if is_Mark o then wrap_int (lastMarkOrder s + 1) else lastMarkOrder s.
Proof.
  intros Hstep. apply step_inv in Hstep. destruct o; simpl.
  - destruct Hstep as [_ [r Hget]]. by eapply get_counter.
  - destruct Hstep as [_ HM]. rewrite Mark_eq in HM.
    destruct (get v _) as [e|[r s1]] eqn:Hget; [done|].
    destruct (refs s1 !! r); [|done]. simplify_eq. simpl.
    by apply get_counter in Hget.
  - destruct Hstep as [_ [v Hv]]. rewrite Value_eq in Hv.
    destruct (refs s !! r); [|done]. by destruct (decide _); simplify_eq.
  - destruct Hstep as [_ Hfin]. rewrite runFinalizer_eq in Hfin.
    destruct (finalizers s !! d) as [t|]; [|by simplify_eq].
    rewrite addPendingGC_eq in Hfin. simpl in Hfin.
    destruct (weakrefs s !! d) as [r|]; [|by simplify_eq].
    destruct (refs s !! r) as [wr|]; [|done].
    destruct (decide _); [|by simplify_eq].
    by apply SetFinalizer_inv in Hfin as (_ & -> & _).
  - rewrite ExtractDeadMarked_run in Hstep. by simplify_eq.
  - rewrite ExtractAllMarked_eq in Hstep.
    destruct (rangeMarked _ _ _) as [e|[marked s1]] eqn:Hrange; [done|].
    simplify_eq. simpl. by eapply rangeMarked_counter.
Qed.

Lemma marks_cons o ops :
  marks (o :: ops) = (if is_Mark o then 1 else 0) + marks ops.
Proof.
  unfold marks. rewrite filter_cons. destruct (is_Mark o); simpl; lia.
Qed.

Lemma marks_nonneg ops : 0 ≤ marks ops.
Proof. unfold marks. lia. Qed.

Lemma run_counter ops s outs s' :
  0 ≤ lastMarkOrder s → lastMarkOrder s + marks ops ≤ int_max →
  run ops s = inr (outs, s') →
  lastMarkOrder s' = lastMarkOrder s + marks ops.
Proof.
  revert s outs. induction ops as [|o ops IH]; intros s outs Hlo Hhi.
  { intros [= <- <-]. unfold marks. simpl. lia. }
  intros (out & s1 & outs' & Hstep & Hrun & _)%run_cons_inv.
  apply step_counter in Hstep. rewrite marks_cons in Hhi |- *.
  pose proof (marks_nonneg ops).
  assert (lastMarkOrder s1 = lastMarkOrder s + (if is_Mark o then 1 else 0))
    as Hs1.
  { rewrite Hstep. destruct (is_Mark o); [|lia].
    apply wrap_int_in_range. unfold int_min, int_max in *. lia. }
  apply IH in Hrun; destruct (is_Mark o); lia.
Qed.

Lemma run_cons o ops s out s1 outs s' :
  step o s = inr (out, s1) → run ops s1 = inr (outs, s') →
  run (o :: ops) s = inr (out ++ outs, s').
Proof.
  intros Hstep Hrun. simpl.
  rewrite (bind_ok _ _ _ _ _ Hstep), (bind_ok _ _ _ _ _ Hrun). done.
Qed.

Lemma step_Mark v s s' :
  Mark v s = inr (tt, s') → step (OpMark v) s = inr ([], s').
Proof. intros H. simpl. by rewrite (bind_ok _ _ _ _ _ H). Qed.

Lemma step_Collect d s s' :
  runFinalizer d s = inr (tt, s') → step (OpCollect d) s = inr ([], s').
Proof. intros H. simpl. by rewrite (bind_ok _ _ _ _ _ H). Qed.

Lemma run_ExtractDeadMarked s :
  run [OpExtractDeadMarked] s =
  inr (vals (sort_Sort (pending s)), set_pending (λ _, []) s).
Proof.
  simpl. rewrite (bind_ok _ _ _ _ _ (ExtractDeadMarked_run s)).
  unfold_M. by rewrite app_nil_r.
Qed.

(** In a list in descending order, an element of greater order comes
    first. *)
Lemma sorted_before (l : sortabelVals) x y :
  StronglySorted (λ a b, order b ≤ order a) l →
  x ∈ l → y ∈ l → order y < order x →
  before x y l.
Proof.
  intros Hs Hx Hy Hlt.
  apply list_elem_of_split in Hx as (l1 & l2 & ->).
  apply elem_of_app in Hy as [Hy|Hy].
  - pose proof (StronglySorted_app_1_elem_of _ _ _ y x Hs Hy) as H.
    simpl in H. specialize (H ltac:(left)). lia.
  - apply elem_of_cons in Hy as [->|Hy]; [lia|].
    apply list_elem_of_split in Hy as (l2' & l3 & ->).
    by exists l1, l2', l3.
Qed.

Lemma before_fmap {A B} (f : A → B) x y (l : list A) :
  before x y l → before (f x) (f y) (f <$> l).
Proof.
  intros (l1 & l2 & l3 & ->).
  exists (f <$> l1), (f <$> l2), (f <$> l3).
  by rewrite fmap_app, fmap_cons, fmap_app, fmap_cons.
Qed.

Lemma before_pair {A} (x y : A) l : before x y l → l ≡ₚ [x; y] → l = [x; y].
Proof.
  intros (l1 & l2 & l3 & ->) Hp.
  apply Permutation_length in Hp. rewrite length_app in Hp. simpl in Hp.
  rewrite length_app in Hp. simpl in Hp.
  destruct l1, l2, l3; simpl in *; try lia. done.
Qed.

Lemma run_app ops1 ops2 s out1 s1 out2 s2 :
  run ops1 s = inr (out1, s1) → run ops2 s1 = inr (out2, s2) →
  run (ops1 ++ ops2) s = inr (out1 ++ out2, s2).
Proof.
  revert s out1. induction ops1 as [|o ops1 IH]; intros s out1.
  { by intros [= <- <-]. }
  intros (out & s0 & outs' & Hstep & Hrun & ->)%run_cons_inv Hrun2.
  rewrite <- app_comm_cons, <- app_assoc.
  eapply run_cons; [done|]. by apply IH.
Qed.

(** Two tracked objects are collected: both values join the queue. *)
Lemma collect_two s dA tA oA rA dB tB oB rB :
  pool_ok s → dA ≠ dB → 0 < oA → 0 < oB →
  tracked s dA tA oA rA → tracked s dB tB oB rB →
  ∃ s', run [OpCollect dA; OpCollect dB] s = inr ([], s') ∧
        pending s' =
          pending s ++ [{| val := {| itype := tA; idata := dA |}; order := oA |};
                        {| val := {| itype := tB; idata := dB |}; order := oB |}].
Proof.
  intros Hok Hne HoA HoB HA HB.
  destruct (Collect_tracked s dA tA oA rA Hok HA)
    as (s1 & Hrun1 & Hok1 & Hp1 & _ & _ & _ & Hframe).
  apply not_eq_sym in Hne. specialize (Hframe _ _ _ _ Hne HB).
  destruct (Collect_tracked s1 dB tB oB rB Hok1 Hframe)
    as (s2 & Hrun2 & _ & Hp2 & _).
  exists s2. split.
  - apply (run_cons _ _ _ [] s1 [] s2); [by apply step_Collect|].
    by apply (run_cons _ _ _ [] s2 [] s2); [apply step_Collect|].
  - rewrite Hp2, Hp1. apply Z.ltb_lt in HoA, HoB. rewrite HoA, HoB.
    by rewrite <- app_assoc.
Qed.

(** Mark A, mark B, mark A again, on two objects new to the pool. *)
Lemma mark_remark A B s :
  pool_ok s → pointer_value A → pointer_value B → idata A ≠ idata B →
  weakrefs s !! idata A = None → weakrefs s !! idata B = None →
  0 ≤ lastMarkOrder s → lastMarkOrder s + 3 ≤ int_max →
  ∃ s' rA rB,
    run [OpMark A; OpMark B; OpMark A] s = inr ([], s') ∧ pool_ok s' ∧
    pending s' = pending s ∧
    tracked s' (idata A) (itype A) (lastMarkOrder s + 3) rA ∧
    tracked s' (idata B) (itype B) (lastMarkOrder s + 2) rB.
Proof.
  intros Hok HA HB Hne HiA HiB Hlo Hhi.
  destruct (Mark_fresh_tracked A s Hok HA HiA)
    as (s1 & Hrun1 & Hok1 & Hp1 & Hl1 & HtA1 & Hreg1 & _).
  rewrite wrap_int_in_range in Hl1, HtA1 by (unfold int_min, int_max in *; lia).
  destruct (Mark_fresh_tracked B s1 Hok1 HB)
    as (s2 & Hrun2 & Hok2 & Hp2 & Hl2 & HtB2 & _ & Hframe2).
  { rewrite Hreg1; [done|]. by apply not_eq_sym. }
  rewrite Hl1 in Hl2, HtB2.
  rewrite wrap_int_in_range in Hl2, HtB2 by (unfold int_min, int_max in *; lia).
  specialize (Hframe2 _ _ _ _ HtA1).
  destruct (Mark_again_tracked A s2 _ _ Hok2 Hframe2)
    as (s3 & Hrun3 & Hok3 & Hp3 & Hl3 & HtA3 & _ & Hframe3).
  rewrite Hl2 in HtA3.
  rewrite wrap_int_in_range in HtA3 by (unfold int_min, int_max in *; lia).
  specialize (Hframe3 _ _ _ _ (not_eq_sym Hne) HtB2).
  exists s3, (length (refs s)), (length (refs s1)).
  split.
  { apply (run_cons _ _ _ [] s1 [] s3); [by apply step_Mark|].
    apply (run_cons _ _ _ [] s2 [] s3); [by apply step_Mark|].
    by apply (run_cons _ _ _ [] s3 [] s3); [apply step_Mark|]. }
  split; [done|]. split; [congruence|]. split.
  - by replace (lastMarkOrder s + 3) with (lastMarkOrder s + 1 + 1 + 1) by lia.
  - by replace (lastMarkOrder s + 2) with (lastMarkOrder s + 1 + 1) by lia.
Qed.

(** C6. The counter of a new pool is 0. Below the largest [int], every
    [Mark] of a pointer value adds one to it and writes the new count
    into the handle of the value as its mark order, whatever order the
    handle had; no other call changes the counter, so over any sequence
    of calls it grows by the number of [Mark]s among them and never
    decreases. Hence, after [Mark(A); Mark(B); Mark(A)] on two objects new
    to the pool and their collection in either order, the extraction
    returns [A] ahead of [B]. *)
Theorem Mark_advances_counter :
  lastMarkOrder NewUnsafePool = 0 ∧
  (∀ v s, pool_ok s → pointer_value v → 0 ≤ lastMarkOrder s < int_max →
     ∃ r wr s',
       Mark v s = inr (tt, s') ∧
       lastMarkOrder s' = lastMarkOrder s + 1 ∧
       weakrefs s' !! idata v = Some r ∧ refs s' !! r = Some wr ∧
       markOrder wr = lastMarkOrder s') ∧
  (∀ ops s outs s',
     0 ≤ lastMarkOrder s → lastMarkOrder s + marks ops ≤ int_max →
     run ops s = inr (outs, s') →
     lastMarkOrder s' = lastMarkOrder s + marks ops ∧
     lastMarkOrder s ≤ lastMarkOrder s') ∧
  (∀ A B s collects,
     pool_ok s → pointer_value A → pointer_value B → idata A ≠ idata B →
     weakrefs s !! idata A = None → weakrefs s !! idata B = None →
     0 ≤ lastMarkOrder s → lastMarkOrder s + 3 ≤ int_max →
     collects = [OpCollect (idata A); OpCollect (idata B)] ∨
     collects = [OpCollect (idata B); OpCollect (idata A)] →
     ∃ out s',
       run ([OpMark A; OpMark B; OpMark A] ++ collects ++ [OpExtractDeadMarked]) s
         = inr (out, s') ∧
       out ≡ₚ vals (pending s) ++ [A; B] ∧
       before A B out ∧
       (pending s = [] → out = [A; B])).
Proof.
  split; [done|]. split; [|split].
  - intros v s Hok Hv Hrange.
    destruct (Mark_stamps v s Hok Hv) as (r & wr & s' & HM & Hl & Hi & Hr & Hm).
    rewrite wrap_int_in_range in Hl by (unfold int_min, int_max in *; lia).
    by exists r, wr, s'.
  - intros ops s outs s' Hlo Hhi Hrun.
    rewrite (run_counter _ _ _ _ Hlo Hhi Hrun).
    pose proof (marks_nonneg ops). split; [done|lia].
  - intros A B s collects Hok HA HB Hne HiA HiB Hlo Hhi Hcollects.
    destruct (mark_remark A B s Hok HA HB Hne HiA HiB Hlo Hhi)
      as (s1 & rA & rB & Hrun1 & Hok1 & Hp1 & HtA & HtB).
    set (xA := {| val := {| itype := itype A; idata := idata A |};
                  order := lastMarkOrder s + 3 |}).
    set (xB := {| val := {| itype := itype B; idata := idata B |};
                  order := lastMarkOrder s + 2 |}).
    assert (∃ s2, run collects s1 = inr ([], s2) ∧
                  pending s2 ≡ₚ pending s ++ [xA; xB]) as (s2 & Hrun2 & Hp2).
    { assert (0 < lastMarkOrder s + 3) as HoA by lia.
      assert (0 < lastMarkOrder s + 2) as HoB by lia.
      destruct Hcollects as [-> | ->].
      - destruct (collect_two s1 _ _ _ _ _ _ _ _ Hok1 Hne HoA HoB HtA HtB)
          as (s2 & Hrun2 & Hp2).
        exists s2. split; [done|]. by rewrite Hp2, Hp1.
      - destruct (collect_two s1 _ _ _ _ _ _ _ _ Hok1 (not_eq_sym Hne)
                    HoB HoA HtB HtA) as (s2 & Hrun2 & Hp2).
        exists s2. split; [done|]. rewrite Hp2, Hp1.
        f_equiv. apply Permutation_swap. }
    exists (vals (sort_Sort (pending s2))), (set_pending (λ _, []) s2).
    assert (vals [xA; xB] = [A; B]) as Hvals.
    { unfold vals, xA, xB. simpl. by destruct A, B. }
    assert (vals (sort_Sort (pending s2)) ≡ₚ vals (pending s) ++ [A; B]) as Hperm.
    { rewrite sort_vals_perm. unfold vals in *.
      by rewrite Hp2, fmap_app, Hvals. }
    assert (before A B (vals (sort_Sort (pending s2)))) as Hbefore.
    { assert (before (val xA) (val xB) (val <$> sort_Sort (pending s2))) as Hb.
      { apply before_fmap. apply sorted_before.
        - apply sort_descending.
        - rewrite sort_perm, Hp2. apply elem_of_app. right. by left.
        - rewrite sort_perm, Hp2. apply elem_of_app. right. right. by left.
        - simpl. lia. }
      simpl in Hb. by destruct A, B. }
    split.
    { pose proof (run_app _ _ _ _ _ _ _ Hrun1
                    (run_app _ _ _ _ _ _ _ Hrun2 (run_ExtractDeadMarked s2))) as H.
      by simpl in H. }
    split; [done|]. split; [done|].
    intros Hnil. apply before_pair; [done|]. by rewrite Hperm, Hnil.
Qed.

(** ** One reclamation per registration *)

Lemma occurrences_app v l1 l2 :
  occurrences v (l1 ++ l2) = (occurrences v l1 + occurrences v l2)%nat.
Proof. unfold occurrences. by rewrite filter_app, length_app. Qed.

Lemma occurrences_perm v l1 l2 : l1 ≡ₚ l2 → occurrences v l1 = occurrences v l2.
Proof. unfold occurrences. by intros ->. Qed.

Lemma occurrences_self v : occurrences v [v] = 1%nat.
Proof. unfold occurrences. rewrite filter_cons, decide_True by done. done. Qed.

(** [Mark] takes a value and no flags, and a weakRef carries a mark order
    and no flags: the pool has the one queue. After [Mark(V)] on an
    object new to the pool and its reclamation, the next
    [ExtractDeadMarked] returns [V] once more than it was queued before,
    so exactly once when it was not queued, and the extraction after that
    returns nothing. *)
Theorem Mark_then_reclaim_once v s :
  pool_ok s → pointer_value v → weakrefs s !! idata v = None →
  0 ≤ lastMarkOrder s < int_max →
  ∃ out s1,
    run [OpMark v; OpCollect (idata v); OpExtractDeadMarked] s = inr (out, s1) ∧
    out ≡ₚ vals (pending s) ++ [v] ∧
    occurrences v out = S (occurrences v (vals (pending s))) ∧
    ExtractDeadMarked s1 = inr ([], s1).
Proof.
  intros Hok Hv Hi Hrange.
  destruct (Mark_fresh_tracked v s Hok Hv Hi)
    as (s1 & Hrun1 & Hok1 & Hp1 & Hl1 & Htr & _).
  rewrite wrap_int_in_range in Htr by (unfold int_min, int_max in *; lia).
  destruct (Collect_tracked s1 _ _ _ _ Hok1 Htr)
    as (s2 & Hrun2 & Hok2 & Hp2 & _).
  assert ((0 <? lastMarkOrder s + 1) = true) as Hpos by (apply Z.ltb_lt; lia).
  assert ({| itype := itype v; idata := idata v |} = v) as Hveq by (by destruct v).
  rewrite Hpos, Hp1, Hveq in Hp2.
  exists (vals (sort_Sort (pending s2))), (set_pending (λ _, []) s2).
  assert (vals (sort_Sort (pending s2)) ≡ₚ vals (pending s) ++ [v]) as Hperm.
  { rewrite sort_vals_perm, Hp2. unfold vals. by rewrite fmap_app. }
  split.
  { apply (run_cons _ _ _ [] s1 _ _); [by apply step_Mark|].
    apply (run_cons _ _ _ [] s2 _ _); [by apply step_Collect|].
    apply run_ExtractDeadMarked. }
  split; [done|]. split.
  - rewrite (occurrences_perm _ _ _ Hperm), occurrences_app, occurrences_self.
    lia.
  - by rewrite ExtractDeadMarked_eq.
Qed.

Local Instance at_address_perm d : Proper ((≡ₚ) ==> (≡ₚ)) (at_address d).
Proof. intros l1 l2 H. unfold at_address. by rewrite H. Qed.

Lemma at_address_app d l1 l2 :
  at_address d (l1 ++ l2) = at_address d l1 ++ at_address d l2.
Proof. unfold at_address. apply filter_app. Qed.

Lemma at_address_other d v : idata v ≠ d → at_address d [v] = [].
Proof. intros H. unfold at_address. by rewrite filter_cons, decide_False. Qed.

Lemma at_address_none d l : (∀ v, v ∈ l → idata v ≠ d) → at_address d l = [].
Proof.
  unfold at_address. induction l as [|v l IH]; intros Hall; [done|].
  rewrite filter_cons, decide_False by (apply Hall; left).
  apply IH. intros v' Hv'. apply Hall. by right.
Qed.

(** No marked value of the registry sits at an unregistered address. *)
Lemma marked_registry_elsewhere s d :
  pool_ok s → weakrefs s !! d = None →
  at_address d (vals (marked_registry s)) = [].
Proof.
  intros Hok Hd. apply at_address_none. intros v Hv.
  apply list_elem_of_fmap in Hv as (x & -> & Hx).
  apply list_elem_of_omap in Hx as ([i r] & He & Hx).
  apply elem_of_map_to_list in He. unfold marked_entry in Hx. simpl in Hx.
  destruct (ok_registry _ Hok _ _ He) as (wr & Hr & Hid & _).
  rewrite Hr in Hx. destruct (0 <? markOrder wr); [|done].
  simplify_eq. simpl. unfold id in He. congruence.
Qed.

Lemma Mark_weakrefs v s s' d :
  Mark v s = inr (tt, s') → d ≠ idata v → weakrefs s' !! d = weakrefs s !! d.
Proof.
  rewrite Mark_eq. destruct (get v _) as [e|[r s1]] eqn:Hget; [done|].
  destruct (refs s1 !! r); [|done]. intros [= <-] Hne. simpl.
  apply get_inv in Hget as [[_ ->]|(_ & _ & _ & _ & ->)]; [done|].
  simpl. by rewrite lookup_insert_ne.
Qed.

(** While the object at [d] has no handle, a call that does not register
    it leaves it without one, and the values at [d] that are queued or
    handed out by the call are those that were queued before. *)
Lemma step_unregistered d o s out s' :
  pool_ok s → weakrefs s !! d = None → ¬ registers d o →
  step o s = inr (out, s') →
  weakrefs s' !! d = None ∧
  at_address d (out ++ vals (pending s')) ≡ₚ at_address d (vals (pending s)).
Proof.
  intros Hok Hd Hreg Hstep. pose proof Hstep as Hstep'.
  apply step_inv in Hstep. destruct o; simpl in Hreg.
  - destruct Hstep as [-> [r Hget]].
    apply get_inv in Hget as [[_ ->]|(_ & _ & _ & _ & ->)]; [done|].
    simpl. by rewrite lookup_insert_ne.
  - destruct Hstep as [-> HM].
    rewrite (Mark_weakrefs _ _ _ d HM) by congruence.
    by rewrite (Mark_pending _ _ _ HM).
  - destruct Hstep as [-> [v Hv]]. rewrite Value_eq in Hv.
    destruct (refs s !! r); [|done]. by destruct (decide _); simplify_eq.
  - destruct Hstep as [-> Hfin]. rewrite runFinalizer_eq in Hfin.
    destruct (finalizers s !! d0) as [t|] eqn:Hf; [|by simplify_eq].
    assert (d0 ≠ d) as Hne.
    { intros ->. by rewrite (unregistered_no_finalizer _ _ Hok Hd) in Hf. }
    rewrite addPendingGC_eq in Hfin. simpl in Hfin.
    destruct (weakrefs s !! d0) as [r|]; [|by simplify_eq].
    destruct (refs s !! r) as [wr|]; [|done].
    destruct (decide _).
    + by apply SetFinalizer_inv in Hfin as (_ & -> & _).
    + simplify_eq. simpl. rewrite lookup_delete_ne by done.
      split; [done|]. destruct (0 <? markOrder wr); [|done].
      unfold vals. rewrite fmap_app, at_address_app. simpl.
      by rewrite at_address_other, app_nil_r.
  - rewrite ExtractDeadMarked_run in Hstep. simplify_eq. simpl.
    split; [done|]. by rewrite app_nil_r, sort_vals_perm.
  - destruct (ExtractAllMarked_run s Hok) as (s1 & Hrun & Hw & _ & [Hp _]).
    rewrite Hrun in Hstep. simplify_eq. rewrite Hw, Hp. split; [done|].
    simpl. rewrite app_nil_r, sort_vals_perm. unfold vals.
    rewrite fmap_app, at_address_app.
    fold (vals (marked_registry s)).
    by rewrite marked_registry_elsewhere, app_nil_r.
Qed.

Lemma run_unregistered d ops s outs s' :
  pool_ok s → weakrefs s !! d = None → Forall (λ o, ¬ registers d o) ops →
  run ops s = inr (outs, s') →
  weakrefs s' !! d = None ∧
  at_address d (outs ++ vals (pending s')) ≡ₚ at_address d (vals (pending s)).
Proof.
  revert s outs. induction ops as [|o ops IH]; intros s outs Hok Hd Hall.
  { by intros [= <- <-]. }
  apply Forall_cons in Hall as [Ho Hall].
  intros (out & s1 & outs' & Hstep & Hrun & ->)%run_cons_inv.
  pose proof (pool_ok_step _ _ _ _ Hok Hstep) as Hok1.
  destruct (step_unregistered _ _ _ _ _ Hok Hd Ho Hstep) as [Hd1 Hp1].
  destruct (IH _ _ Hok1 Hd1 Hall Hrun) as [Hd' Hp'].
  split; [done|].
  rewrite <- Hp1, <- app_assoc, !at_address_app.
  rewrite at_address_app in Hp'. by rewrite Hp'.
Qed.

(** C5, amended. A handle is queued at most once: the callback that
    declares the handle of the object at [d] dead queues the value (if
    marked) and removes the handle from the registry in the same step;
    from then on, as long as no [Get] or [Mark] registers the object
    again, the object stays unregistered and the values at [d] that are
    queued or handed out by extractions are exactly those queued at that
    point, each handed out once. A value registered again after its
    extraction can be queued and handed out again. *)
Theorem queued_once_per_registration d s r wr t :
  pool_ok s →
  weakrefs s !! d = Some r → refs s !! r = Some wr →
  status wr ≠ wrResurrected → finalizers s !! d = Some t →
  ∃ s1,
    runFinalizer d s = inr (tt, s1) ∧
    weakrefs s1 !! d = None ∧
    refs s1 !! r = Some (with_status wrDead wr) ∧
    pending s1 =
      (if 0 <? markOrder wr
       then pending s ++ [{| val := {| itype := t; idata := d |};
                             order := markOrder wr |}]
       else pending s) ∧
    ∀ ops outs s2,
      Forall (λ o, ¬ registers d o) ops →
      run ops s1 = inr (outs, s2) →
      weakrefs s2 !! d = None ∧
      at_address d (outs ++ vals (pending s2)) ≡ₚ at_address d (vals (pending s1)).
Proof.
  intros Hok Hi Hr Hst Hf.
  pose proof (dead_callback_run d s r wr t Hi Hr Hst Hf) as Hrun.
  pose proof (pool_ok_runFinalizer _ _ _ Hok Hrun) as Hok1.
  eexists. split; [exact Hrun|]. simpl.
  assert (delete d (weakrefs s) !! d = None) as Hd by apply lookup_delete_eq.
  split; [done|]. split.
  { apply list_lookup_insert_eq. by eapply lookup_lt_Some. }
  split; [done|].
  intros ops outs s2 Hall Hrun2.
  by apply (run_unregistered d ops _ outs s2 Hok1).
Qed.

(** ** Mark orders stay apart *)

Lemma reg_new i o : ¬ reg NewUnsafePool i o.
Proof. intros (r & wr & Hi & _). simpl in Hi. by rewrite lookup_empty in Hi. Qed.

Lemma orders_ok_new : orders_ok NewUnsafePool.
Proof.
  split; simpl; try done.
  - intros x Hx. by apply elem_of_nil in Hx.
  - constructor.
  - intros i o H. by apply reg_new in H.
  - intros i o x H. by apply reg_new in H.
  - intros i i' o H. by apply reg_new in H.
Qed.

Lemma reg_set_ref s r wr wr' i o :
  refs s !! r = Some wr → markOrder wr' = markOrder wr →
  reg (set_refs (λ h, <[r := wr']> h) s) i o → reg s i o.
Proof.
  intros Hr Hm (r0 & wr0 & Hi & Hr0 & Ho). simpl in *.
  destruct (decide (r0 = r)) as [->|Hne].
  - rewrite list_lookup_insert_eq in Hr0 by (by eapply lookup_lt_Some).
    simplify_eq. exists r, wr. split; [done|]. split; [done|]. congruence.
  - rewrite list_lookup_insert_ne in Hr0 by done. by exists r0, wr0.
Qed.

Lemma get_reg v s r s' i o :
  pool_ok s → get v s = inr (r, s') → reg s' i o →
  reg s i o ∨ (i = idata v ∧ o = 0).
Proof.
  intros Hok [[_ ->]|(_ & _ & _ & _ & ->)]%get_inv; [by left|].
  intros (r0 & wr0 & Hi & Hr0 & Ho). simpl in *.
  apply lookup_insert_Some in Hi as [[<- <-]|[Hne Hi]].
  - right. rewrite lookup_app_r in Hr0 by lia.
    rewrite Nat.sub_diag in Hr0. simpl in Hr0. by simplify_eq.
  - left. destruct (ok_registry _ Hok _ _ Hi) as (wr1 & Hr1 & _).
    rewrite (lookup_app_l_Some _ _ _ _ Hr1) in Hr0. simplify_eq.
    by exists r0, wr0.
Qed.

Lemma get_pending v s r s' : get v s = inr (r, s') → pending s' = pending s.
Proof. intros [[_ ->]|(_ & _ & _ & _ & ->)]%get_inv; done. Qed.

Lemma orders_ok_get v s r s' :
  pool_ok s → orders_ok s → get v s = inr (r, s') → orders_ok s'.
Proof.
  intros Hok Hord Hget.
  pose proof (get_counter _ _ _ _ Hget) as Hl.
  pose proof (get_pending _ _ _ _ Hget) as Hp.
  pose proof (ord_counter _ Hord) as Hc.
  split; rewrite ?Hl, ?Hp; try apply Hord.
  - intros i o [Hreg|[_ ->]]%(get_reg _ _ _ _ _ _ Hok Hget); [|done].
    by apply (ord_registry _ Hord i).
  - intros i o x [Hreg|[_ ->]]%(get_reg _ _ _ _ _ _ Hok Hget) Hx.
    + by apply (ord_apart _ Hord i).
    + pose proof (ord_pending _ Hord x Hx). lia.
  - intros i i' o [Hreg|[_ ->]]%(get_reg _ _ _ _ _ _ Hok Hget)
             [Hreg'|[_ Ho]]%(get_reg _ _ _ _ _ _ Hok Hget) Hpos; try lia.
    by apply (ord_registry_inj _ Hord i i' o).
Qed.

Lemma pool_ok_set_lastMarkOrder f s : pool_ok s → pool_ok (set_lastMarkOrder f s).
Proof. intros [H1 H2]. by split. Qed.

Lemma Mark_reg v s s' i o :
  pool_ok s → Mark v s = inr (tt, s') → reg s' i o →
  (i = idata v ∧ o = wrap_int (lastMarkOrder s + 1)) ∨
  (i ≠ idata v ∧ reg s i o).
Proof.
  intros Hok. rewrite Mark_eq.
  destruct (get v _) as [e|[r s1]] eqn:Hget; [done|].
  destruct (refs s1 !! r) as [wr|] eqn:Hr; [|done]. intros [= <-].
  pose proof (pool_ok_set_lastMarkOrder (λ n, wrap_int (n + 1)) s Hok) as Hok0.
  pose proof (pool_ok_get _ _ _ _ Hok0 Hget) as Hok1.
  destruct (get_allocated _ _ _ _ Hok0 Hget) as [Hv _].
  pose proof (get_counter _ _ _ _ Hget) as Hl. simpl in Hl.
  intros (r0 & wr0 & Hi & Hr0 & Ho). simpl in Hi, Hr0.
  destruct (decide (i = idata v)) as [->|Hne].
  - left. split; [done|]. assert (r0 = r) as -> by congruence.
    rewrite list_lookup_insert_eq in Hr0 by (by eapply lookup_lt_Some).
    simplify_eq. simpl. done.
  - right. split; [done|].
    assert (r0 ≠ r) as Hr0r.
    { intros ->. apply Hne. by eapply registry_inj. }
    rewrite list_lookup_insert_ne in Hr0 by done.
    assert (reg s1 i o) as Hreg1 by (by exists r0, wr0).
    apply (get_reg _ _ _ _ _ _ Hok0 Hget) in Hreg1 as [Hreg|[? _]]; done.
Qed.

Lemma orders_ok_Mark v s s' :
  pool_ok s → orders_ok s → lastMarkOrder s < int_max →
  Mark v s = inr (tt, s') → orders_ok s'.
Proof.
  intros Hok Hord Hmax HM.
  pose proof (ord_counter _ Hord) as Hc.
  pose proof (step_counter _ _ _ _ (step_Mark _ _ _ HM)) as Hl. simpl in Hl.
  rewrite wrap_int_in_range in Hl by (unfold int_min, int_max in *; lia).
  pose proof (Mark_pending _ _ _ HM) as Hp.
  assert (∀ i o, reg s' i o →
            (i = idata v ∧ o = lastMarkOrder s + 1) ∨ (i ≠ idata v ∧ reg s i o))
    as Hreg.
  { intros i o H. apply (Mark_reg _ _ _ _ _ Hok HM) in H.
    by rewrite wrap_int_in_range in H by (unfold int_min, int_max in *; lia). }
  split; rewrite ?Hl, ?Hp; try apply Hord.
  - lia.
  - intros x Hx. pose proof (ord_pending _ Hord x Hx). lia.
  - intros i o [[_ ->]|[_ H]]%Hreg; [lia|].
    pose proof (ord_registry _ Hord i o H). lia.
  - intros i o x [[_ ->]|[_ H]]%Hreg Hx.
    + pose proof (ord_pending _ Hord x Hx). lia.
    + by apply (ord_apart _ Hord i).
  - intros i i' o [[-> ->]|[_ H]]%Hreg [[-> Ho]|[_ H']]%Hreg Hpos; try done.
    + pose proof (ord_registry _ Hord _ _ H'). lia.
    + pose proof (ord_registry _ Hord _ _ H). lia.
    + by apply (ord_registry_inj _ Hord i i' o).
Qed.

Lemma orders_ok_set_ref s r wr wr' :
  orders_ok s → refs s !! r = Some wr → markOrder wr' = markOrder wr →
  orders_ok (set_refs (λ h, <[r := wr']> h) s).
Proof.
  intros Hord Hr Hm.
  assert (∀ i o, reg (set_refs (λ h, <[r := wr']> h) s) i o → reg s i o) as Hreg.
  { intros i o. by apply reg_set_ref with (wr := wr). }
  split; simpl; try apply Hord.
  - intros i o H%Hreg. by apply (ord_registry _ Hord i).
  - intros i o x H%Hreg. by apply (ord_apart _ Hord i).
  - intros i i' o H%Hreg H'%Hreg. by apply (ord_registry_inj _ Hord).
Qed.

Lemma orders_ok_set_finalizers f s : orders_ok s → orders_ok (set_finalizers f s).
Proof. intros [H1 H2 H3 H4 H5 H6]. by split. Qed.

Lemma orders_ok_Value r s v s' :
  orders_ok s → Value r s = inr (v, s') → orders_ok s'.
Proof.
  intros Hord. rewrite Value_eq.
  destruct (refs s !! r) as [wr|] eqn:Hr; [|done].
  destruct (decide _); intros [= <- <-]; [done|].
  by eapply orders_ok_set_ref.
Qed.

Lemma orders_ok_declared_dead v r wr s :
  pool_ok s → orders_ok s →
  weakrefs s !! idata v = Some r → refs s !! r = Some wr →
  orders_ok (declared_dead v r wr s).
Proof.
  intros Hok Hord Hi Hr.
  assert (reg s (idata v) (markOrder wr)) as Hregv by (by exists r, wr).
  assert (∀ i o, reg (declared_dead v r wr s) i o → i ≠ idata v ∧ reg s i o)
    as Hreg.
  { intros i o (r0 & wr0 & Hi0 & Hr0 & Ho). simpl in *.
    apply lookup_delete_Some in Hi0 as [Hne Hi0]. split; [done|].
    rewrite list_lookup_insert_ne in Hr0; [by exists r0, wr0|].
    intros <-. apply Hne. by eapply registry_inj. }
  assert (∀ x, x ∈ pending (declared_dead v r wr s) →
            x ∈ pending s ∨
            (0 < markOrder wr ∧ order x = markOrder wr)) as Hpend.
  { intros x. simpl. destruct (0 <? markOrder wr) eqn:Hm; [|by left].
    intros [Hx|Hx]%elem_of_app; [by left|].
    apply list_elem_of_singleton in Hx as ->. right.
    by apply Z.ltb_lt in Hm. }
  split.
  - apply Hord.
  - intros x [Hx|[Hpos ->]]%Hpend; [by apply Hord|].
    split; [done|]. by apply (ord_registry _ Hord (idata v)).
  - simpl. destruct (0 <? markOrder wr); [|apply Hord].
    rewrite fmap_app. apply NoDup_app. split; [apply Hord|].
    split; [|apply NoDup_singleton].
    intros o Ho Ho'. apply list_elem_of_singleton in Ho'. simpl in Ho'. subst o.
    apply list_elem_of_fmap in Ho as (x & Hox & Hx).
    by apply (ord_apart _ Hord _ _ _ Hregv Hx).
  - intros i o [_ H]%Hreg. by apply (ord_registry _ Hord i).
  - intros i o x [Hne H]%Hreg [Hx|[Hpos ->]]%Hpend.
    + by apply (ord_apart _ Hord i).
    + intros ->. apply Hne.
      by apply (ord_registry_inj _ Hord i (idata v) (markOrder wr)).
  - intros i i' o [_ H]%Hreg [_ H']%Hreg. by apply (ord_registry_inj _ Hord).
Qed.

Lemma orders_ok_runFinalizer d s s' :
  pool_ok s → orders_ok s → runFinalizer d s = inr (tt, s') → orders_ok s'.
Proof.
  intros Hok Hord. rewrite runFinalizer_eq.
  destruct (finalizers s !! d) as [t|] eqn:Hfin; [|by intros [= <-]].
  rewrite addPendingGC_eq. simpl.
  pose proof (pool_ok_clear_finalizer d s Hok) as Hok0.
  pose proof (orders_ok_set_finalizers (λ m, delete d m) s Hord) as Hord0.
  destruct (weakrefs s !! d) as [r|] eqn:Hi; [|by intros [= <-]].
  destruct (refs s !! r) as [wr|] eqn:Hr; [|done].
  destruct (decide (status wr = wrResurrected)) as [Hst|Hst].
  - intros Hset. apply SetFinalizer_inv in Hset as (_ & -> & _).
    apply orders_ok_set_finalizers. by eapply orders_ok_set_ref.
  - intros [= <-].
    by apply (orders_ok_declared_dead {| itype := t; idata := d |} r wr _ Hok0).
Qed.

Lemma orders_ok_unmarked s n :
  unmarked s → 0 ≤ n → lastMarkOrder s = n → orders_ok s.
Proof.
  intros [Hp Hreg] Hn Hl.
  assert (∀ i o, reg s i o → o ≤ 0) as Hle.
  { intros i o (r & wr & Hi & Hr & <-). by apply (Hreg i r). }
  split; rewrite ?Hp, ?Hl; try done.
  - intros x Hx. by apply elem_of_nil in Hx.
  - constructor.
  - intros i o H%Hle. lia.
  - intros i o x _ Hx. by apply elem_of_nil in Hx.
  - intros i i' o H%Hle _ ?. lia.
Qed.

Lemma orders_ok_step o s out s' :
  pool_ok s → orders_ok s → lastMarkOrder s + marks [o] ≤ int_max →
  step o s = inr (out, s') → orders_ok s'.
Proof.
  intros Hok Hord Hmax Hstep. pose proof Hstep as Hstep'.
  apply step_inv in Hstep. destruct o.
  - destruct Hstep as [_ [r Hget]]. by eapply orders_ok_get.
  - destruct Hstep as [_ HM]. eapply orders_ok_Mark; [done|done| |done].
    rewrite marks_cons in Hmax. change (marks []) with 0 in Hmax.
    simpl in Hmax. lia.
  - destruct Hstep as [_ [v Hv]]. by eapply orders_ok_Value.
  - destruct Hstep as [_ Hfin]. by eapply orders_ok_runFinalizer.
  - rewrite ExtractDeadMarked_run in Hstep. simplify_eq.
    destruct Hord as [H1 H2 H3 H4 H5 H6]. split; simpl; try done.
    + intros x Hx. by apply elem_of_nil in Hx.
    + constructor.
    + intros i o x _ Hx. by apply elem_of_nil in Hx.
  - destruct (ExtractAllMarked_run s Hok) as (s1 & Hrun & _ & _ & Hun).
    rewrite Hrun in Hstep. simplify_eq.
    apply step_counter in Hstep'. simpl in Hstep'.
    eapply orders_ok_unmarked; [done| |done]. apply Hord.
Qed.

(** Every state a new pool reaches by fewer than 2^63 calls of [Mark]
    satisfies both invariants; in particular the orders in its queue are
    pairwise distinct. *)
Lemma invariants_run ops s outs s' :
  pool_ok s → orders_ok s → lastMarkOrder s + marks ops ≤ int_max →
  run ops s = inr (outs, s') → pool_ok s' ∧ orders_ok s'.
Proof.
  revert s outs. induction ops as [|o ops IH]; intros s outs Hok Hord Hmax.
  { by intros [= <- <-]. }
  intros (out & s1 & outs' & Hstep & Hrun & _)%run_cons_inv.
  rewrite marks_cons in Hmax. pose proof (marks_nonneg ops).
  pose proof (ord_counter _ Hord).
  assert (lastMarkOrder s + marks [o] ≤ int_max) as Hmax1.
  { rewrite marks_cons. change (marks []) with 0. lia. }
  pose proof (pool_ok_step _ _ _ _ Hok Hstep) as Hok1.
  pose proof (orders_ok_step _ _ _ _ Hok Hord Hmax1 Hstep) as Hord1.
  apply (IH s1 outs'); [done|done| |done].
  apply step_counter in Hstep. rewrite Hstep.
  destruct (is_Mark o); [|lia].
  rewrite wrap_int_in_range; unfold int_min, int_max in *; lia.
Qed.

Lemma reachable_pending_NoDup ops outs s :
  marks ops ≤ int_max → run ops NewUnsafePool = inr (outs, s) →
  NoDup (order <$> pending s).
Proof.
  intros Hmax Hrun.
  apply (invariants_run ops NewUnsafePool outs s) in Hrun as [_ Hord];
    [apply Hord|apply pool_ok_new|apply orders_ok_new|done].
Qed.

(** ** Values that are not pointers *)

(** [Mark] on a value whose type is not a pointer type, at an address the
    registry does not know: the counter is advanced, [get] finds no
    handle and calls [runtime.SetFinalizer], which aborts the program. *)
Lemma Mark_not_pointer v s :
  weakrefs s !! idata v = None → itype v ≠ 0 → kind_is_ptr (itype v) = false →
  Mark v s = inl FinalizerNotPointer.
Proof.
  intros Hi Hnil Hkind. rewrite Mark_eq, get_eq. simpl.
  apply Z.eqb_neq in Hnil. by rewrite Hi, Hnil, Hkind.
Qed.

(** ** The registry holds exactly the live handles *)

Lemma live_registered_set_ref s r wr wr' :
  live_registered s → refs s !! r = Some wr → w wr' = w wr →
  (status wr' ≠ wrDead → status wr ≠ wrDead) →
  live_registered (set_refs (λ h, <[r := wr']> h) s).
Proof.
  intros Hlive Hr Hw Hst r0 wr0. simpl. intros Hr0 Hst0.
  destruct (decide (r0 = r)) as [->|Hne].
  - rewrite list_lookup_insert_eq in Hr0 by (by eapply lookup_lt_Some).
    simplify_eq. rewrite Hw. apply Hlive; auto.
  - rewrite list_lookup_insert_ne in Hr0 by done. by apply Hlive.
Qed.

Lemma live_registered_get v s r s' :
  live_registered s → get v s = inr (r, s') → live_registered s'.
Proof.
  intros Hlive [[_ ->]|(Hnone & _ & _ & _ & ->)]%get_inv; [done|].
  intros r0 wr0. simpl. intros Hr0 Hst0.
  apply lookup_app_Some in Hr0 as [Hr0|[Hge Hr0]].
  - pose proof (Hlive _ _ Hr0 Hst0) as Hreg.
    rewrite lookup_insert_ne; [done|]. intros Heq. congruence.
  - apply list_lookup_singleton_Some in Hr0 as [Hr0 <-]. simpl.
    rewrite lookup_insert_eq. f_equal. lia.
Qed.

Lemma rangeMarked_untouched entries marked s marked' s' r :
  rangeMarked entries marked s = inr (marked', s') → r ∉ entries.*2 →
  refs s' !! r = refs s !! r.
Proof.
  revert marked s. induction entries as [|[i r0] entries IH]; intros marked s.
  { by intros [= <- <-]. }
  rewrite rangeMarked_cons, fmap_cons. simpl.
  intros Hrun [Hne Hr]%not_elem_of_cons.
  destruct (refs s !! r0) as [wr|]; [|done].
  destruct (0 <? markOrder wr); [|by apply (IH marked s)].
  destruct (SetFinalizer _ _ _) as [e|[[] s1]] eqn:Hset; [done|].
  apply SetFinalizer_inv in Hset as (_ & -> & _).
  rewrite (IH _ _ Hrun Hr). simpl. by rewrite list_lookup_insert_ne.
Qed.

(** The loop changes no handle's copied words or status. *)
Lemma rangeMarked_refs entries marked s marked' s' r wr' :
  rangeMarked entries marked s = inr (marked', s') → refs s' !! r = Some wr' →
  ∃ wr, refs s !! r = Some wr ∧ w wr' = w wr ∧ status wr' = status wr.
Proof.
  revert marked s. induction entries as [|[i r0] entries IH]; intros marked s.
  { intros [= <- <-]. eauto. }
  rewrite rangeMarked_cons.
  destruct (refs s !! r0) as [wr0|] eqn:Hr0; [|done].
  destruct (0 <? markOrder wr0); [|by apply IH].
  destruct (SetFinalizer _ _ _) as [e|[[] s1]] eqn:Hset; [done|].
  apply SetFinalizer_inv in Hset as (_ & -> & _).
  intros Hrun Hr'. destruct (IH _ _ Hrun Hr') as (wr1 & Hr1 & Hw & Hst).
  simpl in Hr1. destruct (decide (r = r0)) as [->|Hne].
  - rewrite list_lookup_insert_eq in Hr1 by (by eapply lookup_lt_Some).
    simplify_eq. exists wr0. by rewrite Hw, Hst.
  - rewrite list_lookup_insert_ne in Hr1 by done. eauto.
Qed.

Lemma rangeMarked_weakrefs entries marked s marked' s' :
  rangeMarked entries marked s = inr (marked', s') → weakrefs s' = weakrefs s.
Proof.
  revert marked s. induction entries as [|[i r] entries IH]; intros marked s.
  { by intros [= <- <-]. }
  rewrite rangeMarked_cons.
  destruct (refs s !! r) as [wr|]; [|done].
  destruct (0 <? markOrder wr); [|by apply IH].
  destruct (SetFinalizer _ _ _) as [e|[[] s1]] eqn:Hset; [done|].
  apply SetFinalizer_inv in Hset as (_ & -> & _).
  intros H. by apply IH in H.
Qed.

Lemma live_registered_step o s out s' :
  pool_ok s → live_registered s → step o s = inr (out, s') →
  live_registered s'.
Proof.
  intros Hok Hlive Hstep. apply step_inv in Hstep. destruct o.
  - destruct Hstep as [_ [r Hget]]. by eapply live_registered_get.
  - destruct Hstep as [_ HM]. rewrite Mark_eq in HM.
    destruct (get v _) as [e|[r s1]] eqn:Hget; [done|].
    destruct (refs s1 !! r) as [wr|] eqn:Hr; [|done]. simplify_eq.
    eapply live_registered_set_ref; [|done|done|done].
    eapply live_registered_get; [|exact Hget]. done.
  - destruct Hstep as [_ [v Hv]]. rewrite Value_eq in Hv.
    destruct (refs s !! r) as [wr|] eqn:Hr; [|done].
    destruct (decide _); simplify_eq; [done|].
    by eapply live_registered_set_ref.
  - destruct Hstep as [_ Hfin]. rewrite runFinalizer_eq in Hfin.
    destruct (finalizers s !! d) as [t|]; [|by simplify_eq].
    rewrite addPendingGC_eq in Hfin. simpl in Hfin.
    destruct (weakrefs s !! d) as [r|] eqn:Hi; [|by simplify_eq].
    destruct (refs s !! r) as [wr|] eqn:Hr; [|done].
    destruct (decide _) as [Hst|Hst].
    + apply SetFinalizer_inv in Hfin as (_ & -> & _).
      apply (live_registered_set_ref (set_finalizers _ s) r wr); try done.
      intros _. by rewrite Hst.
    + simplify_eq. intros r0 wr0. simpl. intros Hr0 Hst0.
      destruct (decide (r0 = r)) as [->|Hne].
      * rewrite list_lookup_insert_eq in Hr0 by (by eapply lookup_lt_Some).
        by simplify_eq.
      * rewrite list_lookup_insert_ne in Hr0 by done.
        pose proof (Hlive _ _ Hr0 Hst0) as Hreg.
        rewrite lookup_delete_ne; [done|]. intros Heq. congruence.
  - rewrite ExtractDeadMarked_run in Hstep. by simplify_eq.
  - rewrite ExtractAllMarked_eq in Hstep.
    destruct (rangeMarked _ _ _) as [e|[marked s1]] eqn:Hrange; [done|].
    simplify_eq. intros r wr'. simpl. intros Hr' Hst'.
    destruct (rangeMarked_refs _ _ _ _ _ _ _ Hrange Hr') as (wr & Hr & Hw & Hst).
    rewrite (rangeMarked_weakrefs _ _ _ _ _ Hrange), Hw.
    apply Hlive; [done|]. by rewrite <- Hst.
Qed.

Lemma live_registered_new : live_registered NewUnsafePool.
Proof. intros r wr Hr. simpl in Hr. by rewrite lookup_nil in Hr. Qed.

Lemma live_registered_run ops s outs s' :
  pool_ok s → live_registered s → run ops s = inr (outs, s') →
  live_registered s'.
Proof.
  revert s outs. induction ops as [|o ops IH]; intros s outs Hok Hlive.
  { by intros [= <- <-]. }
  intros (out & s1 & outs' & Hstep & Hrun & _)%run_cons_inv.
  apply (IH s1 outs'); [by eapply pool_ok_step| |done].
  by eapply live_registered_step.
Qed.

(** X1. In every state a new pool reaches, an allocated handle is in the
    registry, under the data word of the value it copied, exactly when
    its status is not Dead. *)
Theorem registry_holds_live_handles ops outs s r wr :
  run ops NewUnsafePool = inr (outs, s) →
  refs s !! r = Some wr →
  (status wr ≠ wrDead ↔ weakrefs s !! id (w wr) = Some r).
Proof.
  intros Hrun Hr.
  pose proof (pool_ok_run _ _ _ _ pool_ok_new Hrun) as Hok.
  pose proof (live_registered_run _ _ _ _ pool_ok_new live_registered_new Hrun)
    as Hlive.
  split; [by apply Hlive|].
  intros Hreg. destruct (ok_registry _ Hok _ _ Hreg) as (wr0 & Hr0 & _ & Hst & _).
  congruence.
Qed.

(** ** Dead handles stay dead *)

Lemma dead_unregistered s r wr i :
  pool_ok s → refs s !! r = Some wr → status wr = wrDead →
  weakrefs s !! i ≠ Some r.
Proof.
  intros Hok Hr Hst Hi.
  destruct (ok_registry _ Hok _ _ Hi) as (wr0 & Hr0 & _ & Hst0 & _).
  congruence.
Qed.

Lemma dead_step o s out s' r wr :
  pool_ok s → refs s !! r = Some wr → status wr = wrDead →
  step o s = inr (out, s') → refs s' !! r = Some wr.
Proof.
  intros Hok Hr Hst Hstep. apply step_inv in Hstep. destruct o.
  - destruct Hstep as [_ [r0 Hget]].
    apply get_inv in Hget as [[_ ->]|(_ & _ & _ & _ & ->)]; [done|].
    simpl. by apply lookup_app_l_Some.
  - destruct Hstep as [_ HM]. rewrite Mark_eq in HM.
    destruct (get v _) as [e|[r0 s1]] eqn:Hget; [done|].
    destruct (refs s1 !! r0) as [wr0|] eqn:Hr0; [|done]. simplify_eq. simpl.
    pose proof (pool_ok_set_lastMarkOrder (λ n, wrap_int (n + 1)) s Hok) as Hok0.
    pose proof (pool_ok_get _ _ _ _ Hok0 Hget) as Hok1.
    destruct (get_allocated _ _ _ _ Hok0 Hget) as [Hreg _].
    assert (refs s1 !! r = Some wr) as Hr1.
    { apply get_inv in Hget as [[_ ->]|(_ & _ & _ & _ & ->)]; [done|].
      simpl. by apply lookup_app_l_Some. }
    rewrite list_lookup_insert_ne; [done|].
    intros ->. by eapply (dead_unregistered s1 r wr).
  - destruct Hstep as [_ [v Hv]]. rewrite Value_eq in Hv.
    destruct (refs s !! r0) as [wr0|] eqn:Hr0; [|done].
    destruct (decide (status wr0 = wrDead)) as [Hd|Hd]; simplify_eq; [done|].
    simpl. rewrite list_lookup_insert_ne; [done|]. intros ->. congruence.
  - destruct Hstep as [_ Hfin]. rewrite runFinalizer_eq in Hfin.
    destruct (finalizers s !! d) as [t|]; [|by simplify_eq].
    rewrite addPendingGC_eq in Hfin. simpl in Hfin.
    destruct (weakrefs s !! d) as [r0|] eqn:Hi; [|by simplify_eq].
    destruct (refs s !! r0) as [wr0|] eqn:Hr0; [|done].
    assert (r0 ≠ r) as Hne.
    { intros ->. by eapply (dead_unregistered s r wr). }
    destruct (decide _).
    + apply SetFinalizer_inv in Hfin as (_ & -> & _). simpl.
      by rewrite list_lookup_insert_ne.
    + simplify_eq. simpl. by rewrite list_lookup_insert_ne.
  - rewrite ExtractDeadMarked_run in Hstep. by simplify_eq.
  - rewrite ExtractAllMarked_eq in Hstep.
    destruct (rangeMarked _ _ _) as [e|[marked s1]] eqn:Hrange; [done|].
    simplify_eq. simpl.
    rewrite (rangeMarked_untouched _ _ _ _ _ r Hrange); [done|].
    intros Hin. apply list_elem_of_fmap in Hin as ([i r0] & -> & Hin).
    apply elem_of_map_to_list in Hin. simpl in *.
    by eapply (dead_unregistered s r0 wr).
Qed.

(** X2. Dead is final: once a handle is Dead, no sequence of calls on the
    pool changes it, and its [Value()] returns nil, leaving the pool as
    it is. *)
Theorem dead_handle_stays_dead ops s outs s' r wr :
  pool_ok s → refs s !! r = Some wr → status wr = wrDead →
  run ops s = inr (outs, s') →
  refs s' !! r = Some wr ∧ Value r s' = inr (nil_iface, s').
Proof.
  intros Hok Hr Hst Hrun.
  assert (refs s' !! r = Some wr) as Hr'.
  { revert s outs Hok Hr Hrun. induction ops as [|o ops IH]; intros s outs Hok Hr.
    { by intros [= <- <-]. }
    intros (out & s1 & outs' & Hstep & Hrun & _)%run_cons_inv.
    apply (IH s1 outs'); [by eapply pool_ok_step| |done].
    by eapply dead_step. }
  split; [done|]. by rewrite Value_eq, Hr', decide_True.
Qed.

(** ** No call aborts on a pool that satisfies the invariant *)

Lemma runFinalizer_succeeds d s :
  pool_ok s → ∃ s', runFinalizer d s = inr (tt, s').
Proof.
  intros Hok. rewrite runFinalizer_eq.
  destruct (finalizers s !! d) as [t|] eqn:Hf; [|eauto].
  destruct (ok_finalizers _ Hok _ _ Hf) as [Hptr [r Hi]].
  destruct (ok_registry _ Hok _ _ Hi) as (wr & Hr & _).
  rewrite addPendingGC_eq. simpl. rewrite Hi, Hr.
  destruct (decide _); [|eauto].
  rewrite SetFinalizer_set; [eauto|done|]. simpl. apply lookup_delete_eq.
Qed.

(** X3. On a pool that satisfies the invariant, the reclamation callback,
    both extractions and [Value()] on any allocated handle return, and so
    do [Get] and [Mark] on a value that is registered. When [Get] or
    [Mark] aborts, the value was not registered and the abort is not
    that of a finalizer already set: [runtime.SetFinalizer] refused the
    value itself at its first registration. *)
Theorem calls_return s :
  pool_ok s →
  (∀ d, ∃ s', runFinalizer d s = inr (tt, s')) ∧
  (∃ out s', ExtractDeadMarked s = inr (out, s')) ∧
  (∃ out s', ExtractAllMarked s = inr (out, s')) ∧
  (∀ r, (r < length (refs s))%nat → ∃ v s', Value r s = inr (v, s')) ∧
  (∀ v r, weakrefs s !! idata v = Some r → Get v s = inr (r, s)) ∧
  (∀ v r, weakrefs s !! idata v = Some r → ∃ s', Mark v s = inr (tt, s')) ∧
  (∀ v e, Get v s = inl e →
     weakrefs s !! idata v = None ∧
     e ≠ FinalizerAlreadySet ∧ e ≠ InvalidRef) ∧
  (∀ v e, Mark v s = inl e →
     weakrefs s !! idata v = None ∧
     e ≠ FinalizerAlreadySet ∧ e ≠ InvalidRef).
Proof.
  intros Hok.
  split; [intros d; by apply runFinalizer_succeeds|].
  split; [rewrite ExtractDeadMarked_run; eauto|].
  split.
  { destruct (ExtractAllMarked_run s Hok) as (s1 & Hrun & _). eauto. }
  split.
  { intros r Hr. apply lookup_lt_is_Some in Hr as [wr Hr].
    rewrite Value_eq, Hr. destruct (decide _); eauto. }
  split; [intros v r Hi; by apply get_hit|].
  split.
  { intros v r Hi. rewrite Mark_eq, (get_hit v _ r) by done. simpl.
    destruct (ok_registry _ Hok _ _ Hi) as (wr & -> & _). eauto. }
  assert (∀ v e s0, pool_ok s0 → get v s0 = inl e →
            weakrefs s0 !! idata v = None ∧
            e ≠ FinalizerAlreadySet ∧ e ≠ InvalidRef) as Hget.
  { intros v e s0 Hok0. rewrite get_eq.
    destruct (weakrefs s0 !! idata v) eqn:Hi; [done|].
    destruct (itype v =? 0); [by intros [= <-]|].
    destruct (kind_is_ptr (itype v)); simpl; [|by intros [= <-]].
    by rewrite (unregistered_no_finalizer _ _ Hok0 Hi). }
  split; [intros v e; by apply Hget|].
  intros v e. rewrite Mark_eq.
  pose proof (pool_ok_set_lastMarkOrder (λ n, wrap_int (n + 1)) s Hok) as Hok0.
  destruct (get v _) as [e0|[r s1]] eqn:Hg.
  - intros [= <-]. by apply (Hget v e0 _ Hok0).
  - destruct (get_allocated _ _ _ _ Hok0 Hg) as [_ [wr Hr]]. by rewrite Hr.
Qed.

(** X4. In every state a new pool reaches with fewer than 2^63 calls of
    [Mark], the counter is not negative, the orders of the queued values
    are positive, pairwise distinct and at most the counter, and no
    registered handle has an order above the counter, the order of a
    queued value, or the positive order of another registered handle. *)
Theorem reachable_orders_apart ops outs s :
  marks ops ≤ int_max → run ops NewUnsafePool = inr (outs, s) →
  0 ≤ lastMarkOrder s ∧
  (∀ x, x ∈ pending s → 0 < order x ≤ lastMarkOrder s) ∧
  NoDup (order <$> pending s) ∧
  (∀ i o, reg s i o → o ≤ lastMarkOrder s) ∧
  (∀ i o x, reg s i o → x ∈ pending s → o ≠ order x) ∧
  (∀ i i' o, reg s i o → reg s i' o → 0 < o → i = i').
Proof.
  intros Hmax Hrun.
  apply (invariants_run ops NewUnsafePool outs s) in Hrun as [_ Hord];
    [|apply pool_ok_new|apply orders_ok_new|done].
  by destruct Hord.
Qed.

(** X5. After the reclamation callback has declared the handle of a
    registered value dead, the value has left the registry and a second
    callback for it changes nothing: it is queued at most once. *)
Theorem addPendingGC_once v s r wr :
  weakrefs s !! idata v = Some r → refs s !! r = Some wr →
  status wr ≠ wrResurrected →
  ∃ s1, addPendingGC v s = inr (tt, s1) ∧
        weakrefs s1 !! idata v = None ∧
        refs s1 !! r = Some (with_status wrDead wr) ∧
        pending s1 = (if 0 <? markOrder wr
                      then pending s ++ [{| val := v; order := markOrder wr |}]
                      else pending s) ∧
        addPendingGC v s1 = inr (tt, s1).
Proof.
  intros Hi Hr Hst. exists (declared_dead v r wr s).
  split; [by rewrite addPendingGC_eq, Hi, Hr, decide_False|].
  split; [simpl; by rewrite lookup_delete_eq|].
  split.
  { simpl. apply list_lookup_insert_eq. by eapply lookup_lt_Some. }
  split; [done|].
  rewrite addPendingGC_eq. simpl. by rewrite lookup_delete_eq.
Qed.

(** ** Finalization in reverse order of marking *)

Lemma tracked_order_of s v o r :
  tracked s (idata v) (itype v) o r → order_of s v = o.
Proof. intros (Hi & Hr & _). unfold order_of. by rewrite Hi, Hr. Qed.

Lemma Iface_eta v : {| itype := itype v; idata := idata v |} = v.
Proof. by destruct v. Qed.

Lemma run_nil s : run [] s = inr ([], s).
Proof. done. Qed.

(** Marking a list of objects new to the pool, one after the other. *)
Lemma mark_all vs s :
  pool_ok s → Forall pointer_value vs → NoDup (idata <$> vs) →
  (∀ v, v ∈ vs → weakrefs s !! idata v = None) →
  0 ≤ lastMarkOrder s → lastMarkOrder s + Z.of_nat (length vs) ≤ int_max →
  ∃ s',
    run (OpMark <$> vs) s = inr ([], s') ∧ pool_ok s' ∧
    pending s' = pending s ∧
    (∀ v, v ∈ vs →
       ∃ r, tracked s' (idata v) (itype v) (order_of s' v) r ∧
            0 < order_of s' v) ∧
    (λ v, {| val := v; order := order_of s' v |}) <$> vs
      = stamped (lastMarkOrder s) vs ∧
    (∀ d t o r, tracked s d t o r → tracked s' d t o r).
Proof.
  revert s. induction vs as [|v vs IH]; intros s Hok Hptr Hnd Hnew Hlo Hhi.
  { exists s. split; [done|]. split; [done|]. split; [done|].
    split; [intros v Hv; by apply elem_of_nil in Hv|]. done. }
  apply Forall_cons in Hptr as [Hv Hptr].
  rewrite fmap_cons in Hnd. apply NoDup_cons in Hnd as [Hvnew Hnd].
  rewrite length_cons in Hhi.
  destruct (Mark_fresh_tracked v s Hok Hv) as
    (s1 & HM & Hok1 & Hp1 & Hl1 & Htr1 & Hreg1 & Hframe1);
    [apply Hnew; by left|].
  rewrite wrap_int_in_range in Hl1, Htr1 by (unfold int_min, int_max in *; lia).
  destruct (IH s1) as (s' & Hrun & Hok' & Hp' & Htr' & Hst' & Hframe');
    [done|done|done| |lia|lia|].
  { intros v' Hv'. rewrite Hreg1; [apply Hnew; by right|].
    intros Heq. apply Hvnew. rewrite <- Heq. by apply list_elem_of_fmap_2. }
  pose proof (Hframe' _ _ _ _ Htr1) as Htrv.
  pose proof (tracked_order_of _ _ _ _ Htrv) as Hov.
  exists s'. split.
  { rewrite fmap_cons. apply (run_cons _ _ _ [] s1 [] s'); [|done].
    by apply step_Mark. }
  split; [done|]. split; [congruence|]. split.
  { intros v' [->|Hv']%elem_of_cons; [|by apply Htr'].
    rewrite Hov. eexists. split; [exact Htrv|lia]. }
  split.
  { rewrite fmap_cons. simpl. rewrite Hov, Hst', Hl1. done. }
  intros d t o r Htr. by apply Hframe', Hframe1.
Qed.

(** Collecting a list of tracked, marked objects: their values join the
    queue in the order of collection. *)
Lemma collect_all cs s :
  pool_ok s → NoDup (idata <$> cs) →
  (∀ v, v ∈ cs → ∃ r, tracked s (idata v) (itype v) (order_of s v) r ∧
                      0 < order_of s v) →
  ∃ s',
    run ((λ v, OpCollect (idata v)) <$> cs) s = inr ([], s') ∧
    pending s' =
      pending s ++ ((λ v, {| val := v; order := order_of s v |}) <$> cs).
Proof.
  revert s. induction cs as [|v cs IH]; intros s Hok Hnd Htr.
  { exists s. by rewrite app_nil_r. }
  rewrite fmap_cons in Hnd. apply NoDup_cons in Hnd as [Hvnew Hnd].
  destruct (Htr v) as (r & Hv & Hpos); [by left|].
  destruct (Collect_tracked s _ _ _ _ Hok Hv)
    as (s1 & Hrun1 & Hok1 & Hp1 & _ & _ & _ & Hframe).
  apply Z.ltb_lt in Hpos. rewrite Hpos, Iface_eta in Hp1.
  assert (∀ v', v' ∈ cs →
            ∃ r', tracked s1 (idata v') (itype v') (order_of s v') r' ∧
                  0 < order_of s v') as Htr1.
  { intros v' Hv'. destruct (Htr v') as (r' & Htr' & Hpos'); [by right|].
    exists r'. split; [|done]. apply Hframe; [|done].
    intros Heq. apply Hvnew. rewrite <- Heq. by apply list_elem_of_fmap_2. }
  assert (∀ v', v' ∈ cs → order_of s1 v' = order_of s v') as Hsame.
  { intros v' Hv'. destruct (Htr1 v' Hv') as (r' & Htr' & _).
    by apply tracked_order_of in Htr'. }
  destruct (IH s1 Hok1 Hnd) as (s' & Hrun & Hp').
  { intros v' Hv'. rewrite (Hsame v' Hv'). by apply Htr1. }
  exists s'. split.
  { rewrite fmap_cons. apply (run_cons _ _ _ [] s1 [] s'); [|done].
    by apply step_Collect. }
  rewrite Hp', Hp1, <- app_assoc. simpl.
  rewrite (list_fmap_ext (λ v, {| val := v; order := order_of s1 v |})
             (λ v, {| val := v; order := order_of s v |}) cs); [done|].
  intros k v' Hk. f_equal. apply Hsame.
  by eapply list_elem_of_lookup_2.
Qed.

Lemma stamped_above base vs x : x ∈ stamped base vs → base < order x.
Proof.
  revert base. induction vs as [|v vs IH]; intros base; simpl.
  { intros H. by apply elem_of_nil in H. }
  intros [->|Hx]%elem_of_cons; [simpl; lia|].
  apply IH in Hx. lia.
Qed.

Lemma stamped_vals base vs : vals (stamped base vs) = vs.
Proof.
  revert base. induction vs as [|v vs IH]; intros base; [done|].
  unfold vals in *. simpl. by rewrite IH.
Qed.

Lemma stamped_reverse_sorted base vs :
  StronglySorted (λ a b, order b < order a) (reverse (stamped base vs)).
Proof.
  revert base. induction vs as [|v vs IH]; intros base; simpl.
  { constructor. }
  rewrite reverse_cons. apply StronglySorted_app_2.
  - intros x1 x2 Hx1 Hx2. apply list_elem_of_singleton in Hx2 as ->. simpl.
    rewrite elem_of_reverse in Hx1. apply stamped_above in Hx1. lia.
  - apply IH.
  - repeat constructor.
Qed.

(** X6. Objects new to the pool that are marked one after the other and
    then all collected, in whatever order, come out of the next
    extraction in the reverse order of marking. *)
Theorem reverse_mark_order vs cs s :
  pool_ok s → pending s = [] →
  Forall pointer_value vs → NoDup (idata <$> vs) →
  (∀ v, v ∈ vs → weakrefs s !! idata v = None) →
  0 ≤ lastMarkOrder s → lastMarkOrder s + Z.of_nat (length vs) ≤ int_max →
  cs ≡ₚ vs →
  ∃ s',
    run ((OpMark <$> vs) ++ ((λ v, OpCollect (idata v)) <$> cs)
         ++ [OpExtractDeadMarked]) s
    = inr (reverse vs, s').
Proof.
  intros Hok Hp Hptr Hnd Hnew Hlo Hhi Hperm.
  destruct (mark_all vs s Hok Hptr Hnd Hnew Hlo Hhi)
    as (s1 & Hrun1 & Hok1 & Hp1 & Htr1 & Hst1 & _).
  destruct (collect_all cs s1 Hok1) as (s2 & Hrun2 & Hp2).
  { by rewrite Hperm. }
  { intros v Hv. apply Htr1. by rewrite <- Hperm. }
  rewrite Hp1, Hp in Hp2. simpl in Hp2.
  assert (sort_Sort (pending s2) = reverse (stamped (lastMarkOrder s) vs))
    as Hsorted.
  { apply sort_unique; [|apply stamped_reverse_sorted].
    rewrite reverse_Permutation, <- Hst1, Hp2. by rewrite Hperm. }
  exists (set_pending (λ _, []) s2).
  pose proof (run_app _ _ _ _ _ _ _ Hrun1
                (run_app _ _ _ _ _ _ _ Hrun2 (run_ExtractDeadMarked s2))) as H.
  simpl in H. rewrite H. do 2 f_equal.
  rewrite Hsorted. unfold vals. rewrite fmap_reverse.
  fold (vals (stamped (lastMarkOrder s) vs)). by rewrite stamped_vals.
Qed.

(** ** Values handed out on release lose their finalizer *)

(** The loop of [ExtractAllMarked] only ever removes finalizers. *)
Lemma rangeMarked_finalizers_shrink entries marked s marked' s' d :
  rangeMarked entries marked s = inr (marked', s') →
  finalizers s' !! d = None ∨ finalizers s' !! d = finalizers s !! d.
Proof.
  revert marked s. induction entries as [|[i r] entries IH]; intros marked s.
  { intros [= <- <-]. by right. }
  rewrite rangeMarked_cons.
  destruct (refs s !! r) as [wr|]; [|done].
  destruct (0 <? markOrder wr); [|by apply IH].
  destruct (SetFinalizer _ _ _) as [e|[[] s1]] eqn:Hset; [done|].
  apply SetFinalizer_inv in Hset as (_ & -> & _).
  intros Hrun. destruct (IH _ _ Hrun) as [Hn|He]; [by left|].
  simpl in He. rewrite He.
  destruct (decide (idata (iface (w wr)) = d)) as [<-|Hne].
  - left. by rewrite lookup_delete_eq.
  - right. by rewrite lookup_delete_ne.
Qed.

(** It removes the finalizer of every marked handle it visits. *)
Lemma rangeMarked_finalizers_marked entries marked s marked' s' e wr :
  rangeMarked entries marked s = inr (marked', s') →
  e ∈ entries → refs s !! e.2 = Some wr → 0 < markOrder wr →
  finalizers s' !! id (w wr) = None.
Proof.
  revert marked s. induction entries as [|[i r] entries IH]; intros marked s.
  { intros _ He. by apply elem_of_nil in He. }
  rewrite rangeMarked_cons. intros Hrun He Hr Hpos.
  destruct (decide (e.2 = r)) as [Her|Hne].
  - rewrite Her in Hr. rewrite Hr in Hrun.
    apply Z.ltb_lt in Hpos. rewrite Hpos in Hrun.
    destruct (SetFinalizer _ _ _) as [e0|[[] s1]] eqn:Hset; [done|].
    apply SetFinalizer_inv in Hset as (_ & -> & _).
    destruct (rangeMarked_finalizers_shrink _ _ _ _ _ (id (w wr)) Hrun)
      as [Hn|Hsame]; [done|].
    rewrite Hsame. simpl. destruct (w wr). simpl. by rewrite lookup_delete_eq.
  - apply elem_of_cons in He as [->|He]; [done|].
    destruct (refs s !! r) as [wr0|] eqn:Hr0; [|done].
    destruct (0 <? markOrder wr0); [|by eapply IH].
    destruct (SetFinalizer _ _ _) as [e0|[[] s1]] eqn:Hset; [done|].
    apply SetFinalizer_inv in Hset as (_ & -> & _).
    eapply IH; [done|done| |done].
    simpl. by rewrite list_lookup_insert_ne.
Qed.

(** It keeps the finalizers of all other objects. *)
Lemma rangeMarked_finalizers_kept entries marked s marked' s' d :
  rangeMarked entries marked s = inr (marked', s') →
  (∀ e wr, e ∈ entries → refs s !! e.2 = Some wr → 0 < markOrder wr →
           id (w wr) ≠ d) →
  finalizers s' !! d = finalizers s !! d.
Proof.
  revert marked s. induction entries as [|[i r] entries IH]; intros marked s.
  { by intros [= <- <-]. }
  rewrite rangeMarked_cons. intros Hrun Hd.
  destruct (refs s !! r) as [wr|] eqn:Hr; [|done].
  destruct (0 <? markOrder wr) eqn:Hpos.
  - destruct (SetFinalizer _ _ _) as [e0|[[] s1]] eqn:Hset; [done|].
    apply SetFinalizer_inv in Hset as (_ & -> & _).
    rewrite (IH _ _ Hrun).
    + simpl. apply lookup_delete_ne.
      assert (id (w wr) ≠ d) as Hne.
      { apply (Hd (i, r)); [by left|done|by apply Z.ltb_lt]. }
      by destruct (w wr).
    + intros e wr' He Hr' Hpos'. simpl in Hr'.
      destruct (decide (e.2 = r)) as [Her|Hne].
      * rewrite Her, list_lookup_insert_eq in Hr'
          by (by eapply lookup_lt_Some).
        simplify_eq. simpl in Hpos'. lia.
      * rewrite list_lookup_insert_ne in Hr' by done.
        apply (Hd e); [by right|done|done].
  - apply (IH _ _ Hrun). intros e wr' He. apply Hd. by right.
Qed.

(** X7. [ExtractAllMarked] removes the finalizer of every registered
    object whose handle is marked, keeps the finalizers of the others, and
    leaves the registry as it is. *)
Theorem ExtractAllMarked_finalizers s :
  pool_ok s →
  ∃ out s',
    ExtractAllMarked s = inr (out, s') ∧
    weakrefs s' = weakrefs s ∧
    ∀ i r wr, weakrefs s !! i = Some r → refs s !! r = Some wr →
      finalizers s' !! i =
        if 0 <? markOrder wr then None else finalizers s !! i.
Proof.
  intros Hok. destruct (ExtractAllMarked_run s Hok) as (s1 & Hrun & Hw & _).
  eexists _, s1. split; [exact Hrun|]. split; [done|].
  intros i r wr Hi Hr.
  rewrite ExtractAllMarked_eq in Hrun.
  destruct (rangeMarked _ _ _) as [e|[marked s0]] eqn:Hloop; [done|].
  assert (finalizers s1 = finalizers s0) as -> by (by simplify_eq).
  destruct (ok_registry _ Hok _ _ Hi) as (wr0 & Hr0 & Hid & _).
  assert (wr0 = wr) as -> by congruence.
  destruct (0 <? markOrder wr) eqn:Hpos.
  - rewrite <- Hid.
    apply (rangeMarked_finalizers_marked _ _ _ _ _ (i, r) wr Hloop);
      [by apply elem_of_map_to_list|done|by apply Z.ltb_lt].
  - apply (rangeMarked_finalizers_kept _ _ _ _ _ _ Hloop).
    intros [i' r'] wr' He Hr' Hpos' Hid'. simpl in Hr'.
    apply elem_of_map_to_list in He.
    destruct (ok_registry _ Hok _ _ He) as (wr1 & Hr1 & Hid1 & _).
    assert (wr1 = wr') as -> by congruence.
    assert (i' = i) as -> by congruence.
    assert (r' = r) as -> by congruence.
    assert (wr' = wr) as -> by congruence.
    apply Z.ltb_ge in Hpos. lia.
Qed.


End Pool.


(** ** The reference sort meets the contract of [sort.Sort] *)

Lemma insert_sorted_perm x vs : insert_sorted x vs ≡ₚ x :: vs.
Proof.
  induction vs as [|y vs IH]; simpl; [done|].
  destruct (Less y x); [|done].
  rewrite IH. apply Permutation_swap.
Qed.

Lemma insertion_sort_perm vs : insertion_sort vs ≡ₚ vs.
Proof.
  induction vs as [|x vs IH]; simpl; [done|].
  rewrite insert_sorted_perm. by f_equiv.
Qed.

Lemma insert_sorted_sorted x vs :
  StronglySorted (λ a b, Less b a = false) vs →
  StronglySorted (λ a b, Less b a = false) (insert_sorted x vs).
Proof.
  induction 1 as [|y vs Hs IH Hy]; simpl.
  { repeat constructor. }
  destruct (Less y x) eqn:Hyx.
  - constructor; [done|].
    rewrite insert_sorted_perm. constructor; [|done].
    unfold Less in *. apply Z.ltb_ge. apply Z.ltb_lt in Hyx. lia.
  - constructor; [by constructor|].
    constructor; [done|].
    eapply Forall_impl; [exact Hy|].
    intros z Hz. unfold Less in *.
    apply Z.ltb_ge. apply Z.ltb_ge in Hyx, Hz. lia.
Qed.

Lemma insertion_sort_sorted vs :
  StronglySorted (λ a b, Less b a = false) (insertion_sort vs).
Proof.
  induction vs as [|x vs IH]; simpl; [constructor|].
  by apply insert_sorted_sorted.
Qed.


(** ** The example pools are states the pool reaches *)

Local Abbreviation run0 := (run example_kinds insertion_sort example_hook).

Lemma example_hook_preserves vs : example_hook vs = vs.
Proof. done. Qed.

Lemma pool_A_registered_reached :
  run0 [OpGet objA] NewUnsafePool = inr ([], pool_A_registered).
Proof. vm_compute. reflexivity. Qed.

Lemma pool_A_resurrected_reached :
  run0 [OpGet objA; OpValue 0] NewUnsafePool = inr ([], pool_A_resurrected).
Proof. vm_compute. reflexivity. Qed.

Lemma pool_A_marked_reached :
  run0 [OpMark objA] NewUnsafePool = inr ([], pool_A_marked).
Proof. vm_compute. reflexivity. Qed.

Lemma pool_A_queued_B_marked_reached :
  run0 [OpMark objA; OpMark objB; OpCollect 100] NewUnsafePool
  = inr ([], pool_A_queued_B_marked).
Proof. vm_compute. reflexivity. Qed.

Lemma pool_A_B_queued_reached :
  run0 [OpMark objA; OpMark objB; OpCollect 100; OpCollect 200] NewUnsafePool
  = inr ([], pool_A_B_queued).
Proof. vm_compute. reflexivity. Qed.

Lemma example_pool_ok ops outs s :
  run0 ops NewUnsafePool = inr (outs, s) → pool_ok example_kinds s.
Proof.
  apply (pool_ok_run example_kinds insertion_sort example_hook
           insertion_sort_perm example_hook_preserves).
  apply pool_ok_new.
Qed.

Lemma objA_pointer : pointer_value example_kinds objA.
Proof. by split. Qed.

Lemma objB_pointer : pointer_value example_kinds objB.
Proof. by split. Qed.

Lemma objA_field_pointer : pointer_value example_kinds objA_field.
Proof. by split. Qed.

(** ** The theorems at the example pools *)

Ltac example_contract :=
  first [ exact insertion_sort_perm
        | exact insertion_sort_sorted
        | exact example_hook_preserves ].

Lemma ExtractDeadMarked_sorted_witness :
  NoDup (order <$> pending pool_A_B_queued) ∧
  ∃ sorted out s1,
    ExtractDeadMarked insertion_sort example_hook pool_A_B_queued
      = inr (out, s1) ∧
    out = val <$> sorted ∧
    sorted ≡ₚ pending pool_A_B_queued ∧
    StronglySorted (λ a b, order b < order a) sorted ∧
    out ≡ₚ val <$> pending pool_A_B_queued ∧
    length out = length (pending pool_A_B_queued) ∧
    (∀ x, x ∈ pending pool_A_B_queued → val x ∈ out) ∧
    (∀ v, v ∈ out → ∃ x, x ∈ pending pool_A_B_queued ∧ val x = v) ∧
    s1 = set_pending (λ _, []) pool_A_B_queued ∧
    ExtractDeadMarked insertion_sort example_hook s1 = inr ([], s1) ∧
    ∀ ops outs s2 out' s3,
      run0 ops s1 = inr (outs, s2) →
      ExtractDeadMarked insertion_sort example_hook s2 = inr (out', s3) →
      ∀ v, v ∈ out' → OpCollect (idata v) ∈ ops.
Proof.
  assert (NoDup (order <$> pending pool_A_B_queued)) as Hnd.
  { simpl. apply NoDup_cons. split; [|apply NoDup_singleton].
    intros H%list_elem_of_singleton. discriminate H. }
  split; [exact Hnd|].
  exact (ExtractDeadMarked_sorted example_kinds insertion_sort example_hook
           insertion_sort_perm insertion_sort_sorted example_hook_preserves
           pool_A_B_queued Hnd).
Defined.

Lemma runFinalizer_resurrected_witness :
  pool_ok example_kinds pool_A_resurrected ∧
  weakrefs pool_A_resurrected !! 100 = Some 0%nat ∧
  refs pool_A_resurrected !! 0%nat
    = Some {| w := (4096, 100); markOrder := 0; status := wrResurrected |} ∧
  finalizers pool_A_resurrected !! 100 = Some 4096 ∧
  runFinalizer example_kinds 100 pool_A_resurrected = inr (tt, pool_A_registered).
Proof.
  assert (pool_ok example_kinds pool_A_resurrected) as Hok.
  { exact (example_pool_ok _ _ _ pool_A_resurrected_reached). }
  assert (weakrefs pool_A_resurrected !! 100 = Some 0%nat) as Hi
    by reflexivity.
  assert (refs pool_A_resurrected !! 0%nat
          = Some {| w := (4096, 100); markOrder := 0; status := wrResurrected |})
    as Hr by reflexivity.
  assert (finalizers pool_A_resurrected !! 100 = Some 4096) as Hf
    by reflexivity.
  split; [exact Hok|]. split; [exact Hi|]. split; [exact Hr|].
  split; [exact Hf|].
  destruct (runFinalizer_resurrected example_kinds 100 pool_A_resurrected 0
              _ 4096 Hok Hi Hr Hf) as [Hres _].
  destruct (Hres eq_refl) as (s' & Hrun & -> & _).
  exact Hrun.
Defined.

Lemma Mark_then_reclaim_once_witness :
  pool_ok example_kinds NewUnsafePool ∧
  pointer_value example_kinds objA ∧
  weakrefs NewUnsafePool !! idata objA = None ∧
  0 ≤ lastMarkOrder NewUnsafePool < int_max ∧
  ∃ out s1,
    run0 [OpMark objA; OpCollect (idata objA); OpExtractDeadMarked] NewUnsafePool
      = inr (out, s1) ∧
    out ≡ₚ vals (pending NewUnsafePool) ++ [objA] ∧
    occurrences objA out = S (occurrences objA (vals (pending NewUnsafePool))) ∧
    ExtractDeadMarked insertion_sort example_hook s1 = inr ([], s1).
Proof.
  assert (0 ≤ lastMarkOrder NewUnsafePool < int_max) as Hrange.
  { vm_compute. split; [discriminate|reflexivity]. }
  split; [exact (pool_ok_new example_kinds)|].
  split; [exact objA_pointer|]. split; [reflexivity|]. split; [exact Hrange|].
  apply (Mark_then_reclaim_once example_kinds insertion_sort example_hook);
    try example_contract.
  - exact (pool_ok_new example_kinds).
  - exact objA_pointer.
  - reflexivity.
  - exact Hrange.
Defined.


Lemma queued_once_per_registration_witness :
  pool_ok example_kinds pool_A_marked ∧
  weakrefs pool_A_marked !! 100 = Some 0%nat ∧
  refs pool_A_marked !! 0%nat
    = Some {| w := (4096, 100); markOrder := 1; status := wrAlive |} ∧
  wrAlive ≠ wrResurrected ∧
  finalizers pool_A_marked !! 100 = Some 4096 ∧
  ∃ s1,
    runFinalizer example_kinds 100 pool_A_marked = inr (tt, s1) ∧
    weakrefs s1 !! 100 = None ∧
    refs s1 !! 0%nat
      = Some {| w := (4096, 100); markOrder := 1; status := wrDead |} ∧
    pending s1 = [{| val := objA; order := 1 |}] ∧
    ∀ ops outs s2,
      Forall (λ o, ¬ registers 100 o) ops →
      run0 ops s1 = inr (outs, s2) →
      weakrefs s2 !! 100 = None ∧
      at_address 100 (outs ++ vals (pending s2))
        ≡ₚ at_address 100 (vals (pending s1)).
Proof.
  assert (pool_ok example_kinds pool_A_marked) as Hok.
  { exact (example_pool_ok _ _ _ pool_A_marked_reached). }
  assert (wrAlive ≠ wrResurrected) as Hst by discriminate.
  split; [exact Hok|]. split; [reflexivity|]. split; [reflexivity|].
  split; [exact Hst|]. split; [reflexivity|].
  apply (queued_once_per_registration example_kinds insertion_sort example_hook
           insertion_sort_perm example_hook_preserves 100 pool_A_marked 0
           {| w := (4096, 100); markOrder := 1; status := wrAlive |} 4096 Hok);
    solve [reflexivity | exact Hst].
Defined.

Lemma Mark_advances_counter_witness :
  pool_ok example_kinds NewUnsafePool ∧
  pointer_value example_kinds objA ∧ pointer_value example_kinds objB ∧
  idata objA ≠ idata objB ∧
  weakrefs NewUnsafePool !! idata objA = None ∧
  weakrefs NewUnsafePool !! idata objB = None ∧
  0 ≤ lastMarkOrder NewUnsafePool ∧
  lastMarkOrder NewUnsafePool + 3 ≤ int_max ∧
  ∃ out s',
    run0 ([OpMark objA; OpMark objB; OpMark objA]
          ++ [OpCollect (idata objB); OpCollect (idata objA)]
          ++ [OpExtractDeadMarked]) NewUnsafePool = inr (out, s') ∧
    out ≡ₚ vals (pending NewUnsafePool) ++ [objA; objB] ∧
    before objA objB out ∧
    (pending NewUnsafePool = [] → out = [objA; objB]).
Proof.
  assert (idata objA ≠ idata objB) as Hne by discriminate.
  assert (0 ≤ lastMarkOrder NewUnsafePool) as Hlo by discriminate.
  assert (lastMarkOrder NewUnsafePool + 3 ≤ int_max) as Hhi by discriminate.
  split; [exact (pool_ok_new example_kinds)|].
  split; [exact objA_pointer|]. split; [exact objB_pointer|].
  split; [exact Hne|]. split; [reflexivity|]. split; [reflexivity|].
  split; [exact Hlo|]. split; [exact Hhi|].
  destruct (Mark_advances_counter example_kinds insertion_sort example_hook
              insertion_sort_perm insertion_sort_sorted example_hook_preserves)
    as (_ & _ & _ & Hscenario).
  exact (Hscenario objA objB NewUnsafePool _ (pool_ok_new example_kinds)
           objA_pointer objB_pointer Hne eq_refl eq_refl Hlo Hhi
           (or_intror eq_refl)).
Defined.

Lemma Get_twice_same_handle_witness :
  pool_ok example_kinds NewUnsafePool ∧
  pointer_value example_kinds objA ∧
  ∃ r s1,
    Get example_kinds objA NewUnsafePool = inr (r, s1) ∧
    Get example_kinds objA s1 = inr (r, s1) ∧
    weakrefs s1 !! id (getwiface objA) = Some r ∧
    (∀ s2, weakrefs s2 !! id (getwiface objA) = Some r →
           Get example_kinds objA s2 = inr (r, s2)).
Proof.
  split; [exact (pool_ok_new example_kinds)|].
  split; [exact objA_pointer|].
  exact (Get_twice_same_handle example_kinds objA NewUnsafePool
           (pool_ok_new example_kinds) objA_pointer).
Defined.

Lemma Get_then_Value_witness :
  pool_ok example_kinds pool_A_registered ∧
  pointer_value example_kinds objA ∧
  (∀ r wr, weakrefs pool_A_registered !! idata objA = Some r →
           refs pool_A_registered !! r = Some wr →
           w wr = getwiface objA) ∧
  ∃ r s1 s2,
    Get example_kinds objA pool_A_registered = inr (r, s1) ∧
    Value r s1 = inr (objA, s2).
Proof.
  assert (pool_ok example_kinds pool_A_registered) as Hok.
  { exact (example_pool_ok _ _ _ pool_A_registered_reached). }
  assert (∀ r wr, weakrefs pool_A_registered !! idata objA = Some r →
                  refs pool_A_registered !! r = Some wr →
                  w wr = getwiface objA) as Hsame.
  { intros r wr Hi Hr. vm_compute in Hi. injection Hi as <-.
    vm_compute in Hr. injection Hr as <-. reflexivity. }
  split; [exact Hok|]. split; [exact objA_pointer|]. split; [exact Hsame|].
  exact (Get_then_Value example_kinds objA pool_A_registered Hok
           objA_pointer Hsame).
Defined.

Lemma Get_same_data_word_witness :
  pool_ok example_kinds NewUnsafePool ∧
  idata objA = idata objA_field ∧
  Get example_kinds objA NewUnsafePool = inr (0%nat, pool_A_registered) ∧
  Get example_kinds objA_field pool_A_registered
    = inr (0%nat, pool_A_registered) ∧
  result (Value 0%nat pool_A_registered) = Some objA.
Proof.
  assert (Get example_kinds objA NewUnsafePool = inr (0%nat, pool_A_registered))
    as Hget by (vm_compute; reflexivity).
  split; [exact (pool_ok_new example_kinds)|].
  split; [reflexivity|]. split; [exact Hget|].
  destruct (Get_same_data_word example_kinds objA objA_field NewUnsafePool
              0%nat pool_A_registered (pool_ok_new example_kinds) eq_refl Hget)
    as (_ & _ & Hget2 & wr & Hr & Hval & Hfirst).
  split; [exact Hget2|].
  rewrite Hval. simpl. f_equal. apply Hfirst. reflexivity.
Defined.

(** ** Where the pool departs from its description *)


(** C5, counterexample. [objA] is marked, collected and extracted; the
    runtime marks it again (as a finalizer that keeps its object does),
    and it is collected again: it is queued a second time, under its new
    mark order, and the next extraction hands it out a second time. *)
Lemma remarked_value_queued_twice_counterexample :
  result (run0 [OpMark objA; OpCollect 100; OpExtractDeadMarked] NewUnsafePool)
    = Some [objA] ∧
  pending <$> final (run0 [OpMark objA; OpCollect 100; OpExtractDeadMarked;
                           OpMark objA; OpCollect 100] NewUnsafePool)
    = Some [{| val := objA; order := 2 |}] ∧
  result (run0 [OpMark objA; OpCollect 100; OpExtractDeadMarked;
                OpMark objA; OpCollect 100; OpExtractDeadMarked] NewUnsafePool)
    = Some [objA; objA].
Proof. repeat split; vm_compute; reflexivity. Qed.

(** C8, counterexample. In the pool that has a handle for [objA],
    [Get(objA_field).Value()] returns [objA], a value of another type
    than [objA_field], although [objA_field] is a pointer value the
    caller holds. *)
Lemma Get_Value_shared_address_counterexample :
  pool_ok example_kinds pool_A_registered ∧
  pointer_value example_kinds objA_field ∧
  result ((let* r := Get example_kinds objA_field in Value r) pool_A_registered)
    = Some objA ∧
  objA ≠ objA_field.
Proof.
  split; [exact (example_pool_ok _ _ _ pool_A_registered_reached)|].
  split; [exact objA_field_pointer|].
  split; [vm_compute; reflexivity|discriminate].
Qed.

(** C9. [Mark] on a value that is not a pointer, here a boxed integer, in
    a new pool: the call does not return; [runtime.SetFinalizer] aborts
    the program, after the counter has been advanced. *)
Theorem Mark_int_value_aborts :
  Mark example_kinds int_value NewUnsafePool = inl FinalizerNotPointer.
Proof. vm_compute. reflexivity. Qed.

(** ** Further properties at the example pools *)

Lemma pool_A_released_reached :
  run0 [OpMark objA; OpExtractAllMarked] NewUnsafePool
  = inr ([objA], pool_A_released).
Proof. vm_compute. reflexivity. Qed.

Lemma registry_holds_live_handles_witness :
  run0 [OpMark objA; OpMark objB; OpCollect 100] NewUnsafePool
    = inr ([], pool_A_queued_B_marked) ∧
  refs pool_A_queued_B_marked !! 1%nat
    = Some {| w := (4096, 200); markOrder := 2; status := wrAlive |} ∧
  (wrAlive ≠ wrDead ↔ weakrefs pool_A_queued_B_marked !! 200 = Some 1%nat).
Proof.
  split; [exact pool_A_queued_B_marked_reached|]. split; [reflexivity|].
  exact (registry_holds_live_handles example_kinds insertion_sort example_hook
           insertion_sort_perm example_hook_preserves _ _ _ 1%nat _
           pool_A_queued_B_marked_reached eq_refl).
Defined.

Lemma dead_handle_stays_dead_witness :
  let wrA := {| w := (4096, 100); markOrder := 1; status := wrDead |} in
  pool_ok example_kinds pool_A_queued_B_marked ∧
  refs pool_A_queued_B_marked !! 0%nat = Some wrA ∧
  status wrA = wrDead ∧
  ∃ outs s',
    run0 [OpMark objA; OpValue 0; OpCollect 100; OpExtractAllMarked]
      pool_A_queued_B_marked = inr (outs, s') ∧
    refs s' !! 0%nat = Some wrA ∧ Value 0%nat s' = inr (nil_iface, s').
Proof.
  intros wrA.
  assert (pool_ok example_kinds pool_A_queued_B_marked) as Hok.
  { exact (example_pool_ok _ _ _ pool_A_queued_B_marked_reached). }
  split; [exact Hok|]. split; [reflexivity|]. split; [reflexivity|].
  eexists _, _. split; [vm_compute; reflexivity|].
  eapply (dead_handle_stays_dead example_kinds insertion_sort example_hook
           insertion_sort_perm example_hook_preserves
           [OpMark objA; OpValue 0; OpCollect 100; OpExtractAllMarked]
           pool_A_queued_B_marked);
    [exact Hok|reflexivity|reflexivity|vm_compute; reflexivity].
Defined.

Lemma calls_return_witness :
  pool_ok example_kinds pool_A_marked ∧
  (∀ d, ∃ s', runFinalizer example_kinds d pool_A_marked = inr (tt, s')) ∧
  (∃ s', Mark example_kinds objA pool_A_marked = inr (tt, s')) ∧
  (∀ e, Mark example_kinds int_value pool_A_marked = inl e →
        e ≠ FinalizerAlreadySet ∧ e ≠ InvalidRef).
Proof.
  assert (pool_ok example_kinds pool_A_marked) as Hok.
  { exact (example_pool_ok _ _ _ pool_A_marked_reached). }
  split; [exact Hok|].
  destruct (calls_return example_kinds insertion_sort example_hook
              insertion_sort_perm example_hook_preserves pool_A_marked Hok)
    as (Hfin & _ & _ & _ & _ & HMark & _ & Habort).
  split; [exact Hfin|].
  split; [exact (HMark objA 0%nat eq_refl)|].
  intros e He. destruct (Habort int_value e He) as (_ & H1 & H2).
  split; [exact H1|exact H2].
Defined.

Lemma reachable_orders_apart_witness :
  marks [OpMark objA; OpMark objB; OpCollect 100] ≤ int_max ∧
  run0 [OpMark objA; OpMark objB; OpCollect 100] NewUnsafePool
    = inr ([], pool_A_queued_B_marked) ∧
  0 ≤ lastMarkOrder pool_A_queued_B_marked ∧
  (∀ x, x ∈ pending pool_A_queued_B_marked →
        0 < order x ≤ lastMarkOrder pool_A_queued_B_marked) ∧
  (∀ i o x, reg pool_A_queued_B_marked i o →
            x ∈ pending pool_A_queued_B_marked → o ≠ order x).
Proof.
  assert (marks [OpMark objA; OpMark objB; OpCollect 100] ≤ int_max) as Hm.
  { vm_compute. discriminate. }
  split; [exact Hm|]. split; [exact pool_A_queued_B_marked_reached|].
  destruct (reachable_orders_apart example_kinds insertion_sort example_hook
              insertion_sort_perm example_hook_preserves _ _ _ Hm
              pool_A_queued_B_marked_reached)
    as (Hc & Hp & _ & _ & Hap & _).
  split; [exact Hc|]. split; [exact Hp|exact Hap].
Defined.

Lemma addPendingGC_once_witness :
  let wrA := {| w := (4096, 100); markOrder := 1; status := wrAlive |} in
  weakrefs pool_A_marked !! idata objA = Some 0%nat ∧
  refs pool_A_marked !! 0%nat = Some wrA ∧
  status wrA ≠ wrResurrected ∧
  ∃ s1, addPendingGC example_kinds objA pool_A_marked = inr (tt, s1) ∧
        weakrefs s1 !! idata objA = None ∧
        pending s1 = [{| val := objA; order := 1 |}] ∧
        addPendingGC example_kinds objA s1 = inr (tt, s1).
Proof.
  intros wrA.
  assert (status wrA ≠ wrResurrected) as Hst by discriminate.
  split; [reflexivity|]. split; [reflexivity|]. split; [exact Hst|].
  destruct (addPendingGC_once example_kinds objA pool_A_marked 0%nat wrA
              eq_refl eq_refl Hst) as (s1 & Hrun & Hgone & _ & Hq & Hagain).
  exists s1. split; [exact Hrun|]. split; [exact Hgone|].
  split; [exact Hq|exact Hagain].
Defined.

Lemma reverse_mark_order_witness :
  pool_ok example_kinds NewUnsafePool ∧
  pending NewUnsafePool = [] ∧
  Forall (pointer_value example_kinds) [objA; objB] ∧
  NoDup (idata <$> [objA; objB]) ∧
  (∀ v, v ∈ [objA; objB] → weakrefs NewUnsafePool !! idata v = None) ∧
  0 ≤ lastMarkOrder NewUnsafePool ∧
  lastMarkOrder NewUnsafePool + Z.of_nat (length [objA; objB]) ≤ int_max ∧
  [objB; objA] ≡ₚ [objA; objB] ∧
  ∃ s',
    run0 [OpMark objA; OpMark objB; OpCollect 200; OpCollect 100;
          OpExtractDeadMarked] NewUnsafePool
    = inr ([objB; objA], s').
Proof.
  assert (Forall (pointer_value example_kinds) [objA; objB]) as Hptr.
  { apply Forall_cons. split; [exact objA_pointer|].
    apply Forall_cons. split; [exact objB_pointer|]. apply Forall_nil_2. }
  assert (NoDup (idata <$> [objA; objB])) as Hnd.
  { simpl. apply NoDup_cons. split; [|apply NoDup_singleton].
    intros H%list_elem_of_singleton. discriminate H. }
  assert (∀ v, v ∈ [objA; objB] → weakrefs NewUnsafePool !! idata v = None)
    as Hnew.
  { intros v _. apply lookup_empty. }
  assert (0 ≤ lastMarkOrder NewUnsafePool) as Hlo by discriminate.
  assert (lastMarkOrder NewUnsafePool + Z.of_nat (length [objA; objB])
          ≤ int_max) as Hhi by discriminate.
  assert ([objB; objA] ≡ₚ [objA; objB]) as Hperm by apply Permutation_swap.
  split; [exact (pool_ok_new example_kinds)|]. split; [reflexivity|].
  split; [exact Hptr|]. split; [exact Hnd|]. split; [exact Hnew|].
  split; [exact Hlo|]. split; [exact Hhi|]. split; [exact Hperm|].
  exact (reverse_mark_order example_kinds insertion_sort example_hook
           insertion_sort_perm insertion_sort_sorted example_hook_preserves
           [objA; objB] [objB; objA] NewUnsafePool
           (pool_ok_new example_kinds) eq_refl Hptr Hnd Hnew Hlo Hhi Hperm).
Defined.

Lemma ExtractAllMarked_finalizers_witness :
  pool_ok example_kinds pool_A_marked ∧
  ∃ out s',
    ExtractAllMarked example_kinds insertion_sort example_hook pool_A_marked
      = inr (out, s') ∧
    weakrefs s' !! 100 = Some 0%nat ∧ finalizers s' !! 100 = None.
Proof.
  assert (pool_ok example_kinds pool_A_marked) as Hok.
  { exact (example_pool_ok _ _ _ pool_A_marked_reached). }
  split; [exact Hok|].
  destruct (ExtractAllMarked_finalizers example_kinds insertion_sort
              example_hook example_hook_preserves pool_A_marked Hok)
    as (out & s' & Hrun & Hw & Hf).
  exists out, s'. split; [exact Hrun|]. split; [rewrite Hw; reflexivity|].
  exact (Hf 100 0%nat _ eq_refl eq_refl).
Defined.


(** * The order [sort.Sort] is given *)

Lemma at_index_Some vs i x :
  at_index vs i = Some x ↔ 0 ≤ i ∧ vs !! Z.to_nat i = Some x.
Proof.
  unfold at_index, Len. split.
  - destruct (0 <=? i) eqn:Hlo; [|done]. destruct (i <? _); [|done].
    simpl. intros H. split; [by apply Z.leb_le|done].
  - intros [Hlo Hx]. pose proof (lookup_lt_Some _ _ _ Hx) as Hlt.
    assert ((0 <=? i) = true) as -> by (by apply Z.leb_le).
    assert ((i <? Z.of_nat (length vs)) = true) as ->; [|done].
    apply Z.ltb_lt. lia.
Qed.

Lemma at_index_in_range vs i :
  0 ≤ i < Len vs → ∃ x, at_index vs i = Some x.
Proof.
  unfold Len. intros [Hlo Hhi].
  destruct (lookup_lt_is_Some_2 vs (Z.to_nat i)) as [x Hx]; [lia|].
  exists x. by apply at_index_Some.
Qed.

Lemma at_index_None vs i : at_index vs i = None ↔ ¬ (0 ≤ i < Len vs).
Proof.
  split.
  - intros Hn Hr. destruct (at_index_in_range _ _ Hr) as [x Hx]. congruence.
  - intros Hr. destruct (at_index vs i) as [x|] eqn:Hx; [|done].
    apply at_index_Some in Hx as [Hlo Hx]. apply lookup_lt_Some in Hx.
    exfalso. apply Hr. unfold Len. lia.
Qed.

Lemma insert_head_perm (l : list orderedVal) j a b :
  l !! j = Some b → b :: <[j := a]> l ≡ₚ a :: l.
Proof.
  revert j. induction l as [|y l IH]; intros [|j]; simpl; try done.
  - intros [= ->]. apply Permutation_swap.
  - intros Hj. rewrite (Permutation_swap y b), (IH _ Hj).
    apply Permutation_swap.
Qed.

Lemma insert_swap_perm (l : list orderedVal) i j a b :
  l !! i = Some a → l !! j = Some b → <[j := a]> (<[i := b]> l) ≡ₚ l.
Proof.
  revert i j. induction l as [|x l IH]; intros [|i] [|j]; simpl; try done.
  - by intros [= ->] [= ->].
  - intros [= ->] Hj. by apply insert_head_perm.
  - intros Hi [= ->]. by apply insert_head_perm.
  - intros Hi Hj. f_equiv. by apply IH.
Qed.

(** X9. On the elements of a slice, [Less] is a strict weak order, as
    [sort.Sort] requires: no element is less than itself, the relation
    is asymmetric and transitive, and so is being not less either way. *)
Theorem Less_strict_weak_order vs i j k a b c :
  at_index vs i = Some a → at_index vs j = Some b → at_index vs k = Some c →
  Less_at vs i i = Some false ∧
  Less_at vs i j = Some (order b <? order a) ∧
  (Less_at vs i j = Some true → Less_at vs j i = Some false) ∧
  (Less_at vs i j = Some true → Less_at vs j k = Some true →
   Less_at vs i k = Some true) ∧
  (Less_at vs i j = Some false → Less_at vs j k = Some false →
   Less_at vs i k = Some false).
Proof.
  intros Ha Hb Hc. unfold Less_at, Less. rewrite Ha, Hb, Hc.
  split; [by rewrite Z.ltb_irrefl|]. split; [done|].
  split; [|split].
  - intros [= H%Z.ltb_lt]. f_equal. apply Z.ltb_ge. lia.
  - intros [= H1%Z.ltb_lt] [= H2%Z.ltb_lt]. f_equal. apply Z.ltb_lt. lia.
  - intros [= H1%Z.ltb_ge] [= H2%Z.ltb_ge]. f_equal. apply Z.ltb_ge. lia.
Qed.

(** X10. [Swap] on two indices of the slice exchanges the two elements
    and leaves the others in place: the result is a permutation of the
    same length, and swapping again gives the slice back. With an index
    out of range it panics. *)
Theorem Swap_exchanges vs i j :
  0 ≤ i < Len vs → 0 ≤ j < Len vs →
  ∃ vs',
    Swap vs i j = Some vs' ∧ vs' ≡ₚ vs ∧ Len vs' = Len vs ∧
    at_index vs' i = at_index vs j ∧ at_index vs' j = at_index vs i ∧
    (∀ k, k ≠ i → k ≠ j → at_index vs' k = at_index vs k) ∧
    Swap vs' i j = Some vs ∧
    (∀ k, ¬ (0 ≤ k < Len vs) → Swap vs i k = None ∧ Swap vs k j = None).
Proof.
  intros Hi Hj.
  destruct (at_index_in_range _ _ Hi) as [a Ha].
  destruct (at_index_in_range _ _ Hj) as [b Hb].
  pose proof Ha as Ha0. pose proof Hb as Hb0.
  apply at_index_Some in Ha as [_ Ha]. apply at_index_Some in Hb as [_ Hb].
  pose proof (lookup_lt_Some _ _ _ Ha) as Hia.
  pose proof (lookup_lt_Some _ _ _ Hb) as Hjb.
  set (vs' := <[Z.to_nat j := a]> (<[Z.to_nat i := b]> (vs : list orderedVal))).
  assert (Len vs' = Len vs) as Hlen.
  { unfold Len, vs'. by rewrite !length_insert. }
  assert (vs' !! Z.to_nat j = Some a) as Hj'.
  { unfold vs'. apply list_lookup_insert_eq. by rewrite length_insert. }
  assert (vs' !! Z.to_nat i = Some b) as Hi'.
  { unfold vs'. destruct (decide (Z.to_nat j = Z.to_nat i)) as [Heq|Hne].
    - rewrite Heq in *. rewrite list_lookup_insert_eq
        by (by rewrite length_insert). congruence.
    - rewrite list_lookup_insert_ne by done.
      by apply list_lookup_insert_eq. }
  exists vs'. split; [unfold Swap; by rewrite Ha0, Hb0|].
  split; [by apply insert_swap_perm|]. split; [done|].
  split; [rewrite Hb0; apply at_index_Some; split; [lia|done]|].
  split; [rewrite Ha0; apply at_index_Some; split; [lia|done]|].
  split.
  { intros k Hki Hkj. unfold at_index. rewrite Hlen.
    destruct ((0 <=? k) && (k <? Len vs)) eqn:Hk; [|done].
    apply andb_true_iff in Hk as [Hk1%Z.leb_le Hk2].
    unfold vs'. rewrite !list_lookup_insert_ne by lia. done. }
  split.
  { unfold Swap.
    assert (at_index vs' j = Some a) as -> by (apply at_index_Some; split; [lia|done]).
    assert (at_index vs' i = Some b) as -> by (apply at_index_Some; split; [lia|done]).
    f_equal. apply list_eq. intros n.
    destruct (decide (n = Z.to_nat j)) as [->|Hnj].
    { rewrite list_lookup_insert_eq; [done|]. rewrite length_insert.
      unfold Len in Hlen. lia. }
    rewrite list_lookup_insert_ne by done.
    destruct (decide (n = Z.to_nat i)) as [->|Hni].
    { rewrite list_lookup_insert_eq; [done|]. unfold Len in Hlen. lia. }
    rewrite list_lookup_insert_ne by done.
    unfold vs'. by rewrite !list_lookup_insert_ne. }
  intros k Hk. apply at_index_None in Hk. unfold Swap. rewrite Hk.
  split; [done|]. by destruct (at_index vs j).
Qed.

Lemma Less_strict_weak_order_witness :
  let vs := pending pool_A_B_queued in
  at_index vs 0 = Some {| val := objA; order := 1 |} ∧
  at_index vs 1 = Some {| val := objB; order := 2 |} ∧
  Less_at vs 1 0 = Some true ∧ Less_at vs 0 1 = Some false.
Proof.
  intros vs.
  assert (at_index vs 0 = Some {| val := objA; order := 1 |}) as H0
    by reflexivity.
  assert (at_index vs 1 = Some {| val := objB; order := 2 |}) as H1
    by reflexivity.
  split; [exact H0|]. split; [exact H1|].
  destruct (Less_strict_weak_order vs 1 0 0 _ _ _ H1 H0 H0)
    as (_ & Hlt & Hasym & _).
  split; [exact Hlt|]. exact (Hasym Hlt).
Defined.

Lemma Swap_exchanges_witness :
  let vs := pending pool_A_B_queued in
  0 ≤ 0 < Len vs ∧ 0 ≤ 1 < Len vs ∧
  ∃ vs', Swap vs 0 1 = Some vs' ∧ vs' ≡ₚ vs ∧ Swap vs' 0 1 = Some vs.
Proof.
  intros vs.
  assert (0 ≤ 0 < Len vs) as H0 by (vm_compute; split; [discriminate|reflexivity]).
  assert (0 ≤ 1 < Len vs) as H1 by (vm_compute; split; [discriminate|reflexivity]).
  split; [exact H0|]. split; [exact H1|].
  destruct (Swap_exchanges vs 0 1 H0 H1)
    as (vs' & Hs & Hp & _ & _ & _ & _ & Hback & _).
  exists vs'. split; [exact Hs|]. split; [exact Hp|exact Hback].
Defined.

(** * The constant compiler numbers constants as they are first queued *)

Section ConstantCompiler.

Context {Builder Constant : Type}.
Implicit Types kc : ConstantCompiler Builder Constant.

Lemma QueueConstant_known ki kc cki :
  constantMap kc !! ki = Some cki → QueueConstant ki kc = (cki, kc).
Proof. intros H. unfold QueueConstant. by rewrite H. Qed.

Lemma wrap_int_succ_pred z :
  int_min ≤ z ≤ int_max → wrap_int (wrap_int (z + 1) - 1) = z.
Proof.
  unfold wrap_int, int_min, int_max. intros Hz.
  destruct (decide (z = 2 ^ 63 - 1)) as [->|Hne].
  - reflexivity.
  - rewrite (Z.mod_small (z + 1 + 2 ^ 63)) by lia.
    rewrite Z.mod_small; lia.
Qed.

(** What a call returns is what the map holds for the key afterwards. *)
Lemma QueueConstant_recorded ki kc cki kc1 :
  int_min ≤ offset kc ≤ int_max →
  QueueConstant ki kc = (cki, kc1) → constantMap kc1 !! ki = Some cki.
Proof.
  intros Hz. unfold QueueConstant.
  destruct (constantMap kc !! ki) as [c|] eqn:Hki.
  - by intros [= <- <-].
  - intros [= <- <-]. simpl. rewrite lookup_insert_eq.
    by rewrite wrap_int_succ_pred.
Qed.

(** A call never changes the index of a constant queued before. *)
Lemma QueueConstant_keeps ki kc cki kc1 k ck :
  QueueConstant ki kc = (cki, kc1) →
  constantMap kc !! k = Some ck → constantMap kc1 !! k = Some ck.
Proof.
  unfold QueueConstant.
  destruct (constantMap kc !! ki) as [c|] eqn:Hki.
  - by intros [= <- <-].
  - intros [= <- <-] Hk. simpl. rewrite lookup_insert_ne; [done|].
    intros ->. congruence.
Qed.

Lemma QueueConstants_keeps kis kc ckis kc1 k ck :
  QueueConstants kis kc = (ckis, kc1) →
  constantMap kc !! k = Some ck → constantMap kc1 !! k = Some ck.
Proof.
  revert kc ckis. induction kis as [|ki kis IH]; intros kc ckis; simpl.
  { by intros [= <- <-]. }
  destruct (QueueConstant ki kc) as [cki kc0] eqn:H1.
  destruct (QueueConstants kis kc0) as [ckis' kc2] eqn:H2.
  intros [= <- <-] Hk. eapply IH; [done|]. by eapply QueueConstant_keeps.
Qed.

(** X11. Once [QueueConstant] has returned an index for a constant, every
    later call for that constant, whatever was queued in between,
    returns the same index and changes nothing. *)
Theorem QueueConstant_again ki kis kc cki kc1 ckis kc2 :
  int_min ≤ offset kc ≤ int_max →
  QueueConstant ki kc = (cki, kc1) →
  QueueConstants kis kc1 = (ckis, kc2) →
  QueueConstant ki kc2 = (cki, kc2).
Proof.
  intros Hz H1 H2. apply QueueConstant_known.
  eapply QueueConstants_keeps; [done|]. by eapply QueueConstant_recorded.
Qed.

Lemma numbered_new (constants0 : list Constant) (cc : Builder) :
  numbered (NewConstantCompiler constants0 cc).
Proof.
  split; simpl; [done| |constructor].
  intros ki j. rewrite lookup_empty, lookup_nil. split; [done|by intros [_ ?]].
Qed.

Lemma numbered_elem kc ki :
  numbered kc → ki ∈ queue kc ↔ is_Some (constantMap kc !! ki).
Proof.
  intros Hn. split.
  - intros [n Hn']%list_elem_of_lookup_1.
    exists (Z.of_nat n). apply (num_map _ Hn). split; [lia|].
    by rewrite Nat2Z.id.
  - intros [j Hj]. apply (num_map _ Hn) in Hj as [_ Hj].
    by eapply list_elem_of_lookup_2.
Qed.

(** One call keeps the numbering, and returns the place of the key in
    the queue. *)
Lemma QueueConstant_numbered ki kc cki kc1 :
  numbered kc → Z.of_nat (length (queue kc)) < int_max →
  QueueConstant ki kc = (cki, kc1) →
  numbered kc1 ∧ 0 ≤ cki ∧ queue kc1 !! Z.to_nat cki = Some ki ∧
  queue kc1 = (if decide (ki ∈ queue kc) then queue kc else queue kc ++ [ki]) ∧
  builder kc1 = builder kc ∧ constants kc1 = constants kc ∧
  compiledCount kc1 = compiledCount kc.
Proof.
  intros Hn Hlen. unfold QueueConstant.
  destruct (constantMap kc !! ki) as [c|] eqn:Hki.
  - intros [= <- <-]. split; [done|].
    apply (num_map _ Hn) in Hki as Hc. destruct Hc as [Hc0 Hc].
    split; [done|]. split; [done|].
    rewrite decide_True; [done|]. by eapply list_elem_of_lookup_2.
  - intros [= <- <-]. simpl.
    assert (ki ∉ queue kc) as Hfresh.
    { rewrite (numbered_elem _ _ Hn), Hki. by intros [? ?]. }
    pose proof (num_offset _ Hn) as Hoff.
    assert (wrap_int (offset kc + 1) = offset kc + 1) as Hw.
    { apply wrap_int_in_range. unfold int_min, int_max in *. lia. }
    assert (wrap_int (offset kc + 1 - 1) = offset kc) as Hw'.
    { replace (offset kc + 1 - 1) with (offset kc) by lia.
      apply wrap_int_in_range. unfold int_min, int_max in *. lia. }
    rewrite Hw, Hw'.
    split; [|split; [lia|split; [|by rewrite decide_False]]].
    + split; simpl.
      * rewrite length_app, Hoff. simpl. lia.
      * intros k j. destruct (decide (k = ki)) as [->|Hne].
        -- rewrite lookup_insert_eq. split.
           ++ intros [= <-]. split; [lia|].
              rewrite Hoff, Nat2Z.id. by apply list_lookup_middle.
           ++ intros [Hj0 Hj]. f_equal.
              apply lookup_app_Some in Hj as [Hj|[Hge Hj]].
              { exfalso. apply Hfresh. by eapply list_elem_of_lookup_2. }
              apply list_lookup_singleton_Some in Hj as [Hj _]. lia.
        -- rewrite lookup_insert_ne by done. rewrite (num_map _ Hn).
           split.
           ++ intros [Hj0 Hj]. split; [done|]. by apply lookup_app_l_Some.
           ++ intros [Hj0 Hj]. split; [done|].
              apply lookup_app_Some in Hj as [Hj|[Hge Hj]]; [done|].
              apply list_lookup_singleton_Some in Hj as [_ Hj]. congruence.
      * apply NoDup_app. split; [apply (num_NoDup _ Hn)|].
        split; [|apply NoDup_singleton].
        intros x Hx ->%list_elem_of_singleton. done.
    + rewrite Hoff, Nat2Z.id. by apply list_lookup_middle.
Qed.

Lemma remove_dups_NoDup (l : list N) : NoDup l → remove_dups l = l.
Proof.
  induction 1 as [|x l Hx Hl IH]; simpl; [done|].
  destruct (decide_rel _ x l); [done|]. by rewrite IH.
Qed.

Lemma remove_dups_skip (l1 l2 : list N) k :
  k ∈ l2 → remove_dups (l1 ++ k :: l2) = remove_dups (l1 ++ l2).
Proof.
  intros Hk. induction l1 as [|a l1 IH]; simpl.
  { by destruct (decide_rel _ k l2). }
  rewrite IH.
  destruct (decide_rel _ a (l1 ++ k :: l2)) as [H1|H1],
           (decide_rel _ a (l1 ++ l2)) as [H2|H2]; try done.
  - exfalso. apply H2. apply elem_of_app.
    apply elem_of_app in H1 as [?|H1]; [by left|]. right.
    by apply elem_of_cons in H1 as [->|?].
  - exfalso. apply H1. apply elem_of_app.
    apply elem_of_app in H2 as [?|?]; [by left|]. right. by right.
Qed.

Lemma first_occurrences_known (q kis : list N) k :
  k ∈ q → first_occurrences (q ++ k :: kis) = first_occurrences (q ++ kis).
Proof.
  intros Hk. unfold first_occurrences. f_equal.
  rewrite !reverse_app, reverse_cons, <- app_assoc. simpl.
  apply remove_dups_skip. by apply elem_of_reverse.
Qed.

Lemma QueueConstants_queue kis kc ckis kc1 :
  numbered kc → Z.of_nat (length (queue kc) + length kis) ≤ int_max →
  QueueConstants kis kc = (ckis, kc1) →
  numbered kc1 ∧ queue kc1 = first_occurrences (queue kc ++ kis) ∧
  Forall2 (λ ki cki, 0 ≤ cki ∧ queue kc1 !! Z.to_nat cki = Some ki) kis ckis ∧
  builder kc1 = builder kc ∧ constants kc1 = constants kc ∧
  compiledCount kc1 = compiledCount kc.
Proof.
  revert kc ckis. induction kis as [|ki kis IH]; intros kc ckis Hn Hlen; simpl.
  { intros [= <- <-]. split; [done|]. split; [|done].
    unfold first_occurrences. rewrite app_nil_r, remove_dups_NoDup.
    - by rewrite reverse_involutive.
    - rewrite reverse_Permutation. apply (num_NoDup _ Hn). }
  destruct (QueueConstant ki kc) as [cki kc0] eqn:H1.
  destruct (QueueConstants kis kc0) as [ckis' kc2] eqn:H2.
  intros [= <- <-]. simpl in Hlen.
  destruct (QueueConstant_numbered _ _ _ _ Hn ltac:(lia) H1)
    as (Hn0 & Hc0 & Hc & Hq0 & Hb0 & Hk0 & Hcc0).
  assert (length (queue kc0) ≤ S (length (queue kc)))%nat as Hlen0.
  { rewrite Hq0. destruct (decide _); [lia|]. rewrite length_app. simpl. lia. }
  destruct (IH _ _ Hn0 ltac:(lia) H2) as (Hn2 & Hq2 & Hall & Hb2 & Hk2 & Hcc2).
  split; [done|]. split.
  { rewrite Hq2, Hq0. destruct (decide (ki ∈ queue kc)) as [Hin|Hout].
    - by rewrite first_occurrences_known.
    - by rewrite <- app_assoc. }
  split; [|by rewrite Hb2, Hk2, Hcc2].
  constructor; [|done]. split; [done|].
  apply (num_map _ Hn2). eapply QueueConstants_keeps; [done|].
  apply (num_map _ Hn0). done.
Qed.

(** X12. Starting from a new compiler, after any sequence of calls of
    [QueueConstant] the queue holds the keys of the calls, each once, in
    the order of their first call; each call returned the place of its
    key in that queue, which is also what the map records for it;
    [offset] is the length of the queue. Nothing else is touched. *)
Theorem QueueConstants_first_occurrences
    (constants0 : list Constant) (cc : Builder) kis ckis kc :
  Z.of_nat (length kis) ≤ int_max →
  QueueConstants kis (NewConstantCompiler constants0 cc) = (ckis, kc) →
  queue kc = first_occurrences kis ∧
  offset kc = Z.of_nat (length (queue kc)) ∧
  Forall2 (λ ki cki, 0 ≤ cki ∧ queue kc !! Z.to_nat cki = Some ki ∧
                     constantMap kc !! ki = Some cki) kis ckis ∧
  (∀ ki, is_Some (constantMap kc !! ki) ↔ ki ∈ kis) ∧
  builder kc = cc ∧ constants kc = constants0 ∧ compiledCount kc = 0.
Proof.
  intros Hlen Hrun.
  assert (Z.of_nat (length (queue (NewConstantCompiler constants0 cc))
                      + length kis) ≤ int_max) as Hlen0 by (simpl; lia).
  destruct (QueueConstants_queue _ _ _ _ (numbered_new constants0 cc)
              Hlen0 Hrun) as (Hn & Hq & Hall & Hb & Hk & Hcc).
  simpl in Hq. split; [done|]. split; [apply (num_offset _ Hn)|].
  split.
  { eapply Forall2_impl; [exact Hall|]. simpl. intros ki cki [H0 Hki].
    split; [done|]. split; [done|]. by apply (num_map _ Hn). }
  split; [|done].
  intros ki. rewrite <- (numbered_elem _ _ Hn), Hq.
  unfold first_occurrences.
  by rewrite elem_of_reverse, elem_of_remove_dups, elem_of_reverse.
Qed.

End ConstantCompiler.

Lemma QueueConstant_again_witness :
  let kc := NewConstantCompiler ([] : list unit) tt in
  int_min ≤ offset kc ≤ int_max ∧
  QueueConstant 7 kc = (0, (QueueConstant 7 kc).2) ∧
  QueueConstant 7 (QueueConstants [3; 7; 5]%N (QueueConstant 7 kc).2).2
  = (0, (QueueConstants [3; 7; 5]%N (QueueConstant 7 kc).2).2).
Proof.
  intros kc.
  assert (int_min ≤ offset kc ≤ int_max) as Hz.
  { vm_compute. split; discriminate. }
  assert (QueueConstant 7 kc = (0, (QueueConstant 7 kc).2)) as H1
    by reflexivity.
  split; [exact Hz|]. split; [exact H1|].
  exact (QueueConstant_again 7%N [3; 7; 5]%N kc 0 _
           (QueueConstants [3; 7; 5]%N (QueueConstant 7 kc).2).1 _
           Hz H1 eq_refl).
Defined.

Lemma QueueConstants_first_occurrences_witness :
  Z.of_nat (length [7; 3; 7; 5; 3]%N) ≤ int_max ∧
  ∃ kc, QueueConstants [7; 3; 7; 5; 3]%N (NewConstantCompiler ([] : list unit) tt)
        = ([0; 1; 0; 2; 1], kc) ∧
        queue kc = [7; 3; 5]%N ∧ offset kc = 3.
Proof.
  assert (Z.of_nat (length [7; 3; 7; 5; 3]%N) ≤ int_max) as Hlen.
  { vm_compute. discriminate. }
  split; [exact Hlen|].
  eexists. split; [reflexivity|].
  destruct (QueueConstants_first_occurrences ([] : list unit) tt
              [7; 3; 7; 5; 3]%N _ _ Hlen eq_refl) as (Hq & Hoff & _).
  split; [rewrite Hq; reflexivity|rewrite Hoff, Hq; reflexivity].
Defined.

(** * The packer of [string.pack] *)

Section packer_facts.

Import stringlib.

Context `{Host}.

Implicit Types p q : packer.

(** ** The option size *)

Lemma decimal_from_congr a b ds :
  a mod 2 ^ 64 = b mod 2 ^ 64 →
  decimal_from a ds mod 2 ^ 64 = decimal_from b ds mod 2 ^ 64.
Proof.
  revert a b. induction ds as [|c ds IH]; intros a b Hab; [done|].
  unfold decimal_from in *. simpl. apply IH.
  rewrite (Z.add_mod (a * 10)), (Z.add_mod (b * 10)) by lia.
  rewrite (Z.mul_mod a), (Z.mul_mod b) by lia. by rewrite Hab.
Qed.

Lemma getOptSize_loop_spec rest k n ok :
  getOptSize_loop rest k n ok =
  let ds := leading_digits rest in
  ((k + length ds)%nat,
   match ds with [] => n | _ => wrap_uint (decimal_from n ds) end,
   match ds with [] => ok | _ => true end).
Proof.
  revert k n ok. induction rest as [|c rest IH]; intros k n ok; simpl.
  { by rewrite Nat.add_0_r. }
  unfold is_digit. destruct ((48 <=? c) && (c <=? 57)); simpl.
  - rewrite IH. simpl. f_equal; [f_equal; [lia|]|].
    + destruct (leading_digits rest) as [|d ds] eqn:Hds.
      * done.
      * unfold wrap_uint. apply decimal_from_congr.
        by rewrite Z.mod_mod by lia.
    + by destruct (leading_digits rest).
  - by rewrite Nat.add_0_r.
Qed.

Lemma length_leading_digits l : (length (leading_digits l) ≤ length l)%nat.
Proof.
  induction l as [|c l IH]; simpl; [done|].
  destruct (is_digit c); simpl; lia.
Qed.

Lemma getOptSize_eq p :
  getOptSize p =
    (bool_decide (leading_digits (drop (i p) (format p)) ≠ []),
     set_optSize (decimal (leading_digits (drop (i p) (format p))) mod 2 ^ 64)
       (set_i (i p + length (leading_digits (drop (i p) (format p)))) p)).
Proof.
  unfold getOptSize. rewrite getOptSize_loop_spec.
  simpl. destruct (leading_digits _) as [|d ds']; simpl.
  - by rewrite Nat.add_0_r.
  - done.
Qed.

(** X13. [getOptSize] reads the longest run of decimal digits at the
    current index, steps over it, and sets the option size to the number
    it writes, reduced modulo 2^64; it reports whether there was a
    digit. *)
Theorem getOptSize_digits p :
  let ds := leading_digits (drop (i p) (format p)) in
  getOptSize p =
    (bool_decide (ds ≠ []),
     set_optSize (decimal ds mod 2 ^ 64) (set_i (i p + length ds) p)).
Proof. exact (getOptSize_eq p). Qed.

(** ** Alignment *)

Lemma land_pred_pow2 m :
  1 ≤ m → Z.land (m - 1) m = 0 ↔ ∃ k, 0 ≤ k ∧ m = 2 ^ k.
Proof.
  intros Hm. split.
  - intros Hland. exists (Z.log2 m).
    pose proof (Z.log2_nonneg m) as Hk. split; [done|].
    destruct (Z.log2_spec m) as [Hlo Hhi]; [lia|].
    destruct (decide (m = 2 ^ Z.log2 m)) as [|Hne]; [done|exfalso].
    assert (Z.log2 (m - 1) = Z.log2 m) as Hlog.
    { apply Z.log2_unique; [done|]. lia. }
    assert (Z.testbit (Z.land (m - 1) m) (Z.log2 m) = true) as Hbit.
    { rewrite Z.land_spec. rewrite <- Hlog at 1.
      rewrite !Z.bit_log2 by lia. done. }
    rewrite Hland, Z.bits_0 in Hbit. done.
  - intros (k & Hk & ->).
    replace (2 ^ k - 1) with (Z.ones k) by (rewrite Z.ones_equiv; lia).
    rewrite Z.land_comm, Z.land_ones by done. apply Z_mod_same_full.
Qed.

Lemma packer_eta p :
  {| format := format p; i := i p; byteOrder := byteOrder p;
     maxAlignment := maxAlignment p; err := err p; optSize := optSize p;
     values := values p; j := j p; val := val p; intVal := intVal p;
     floatVal := floatVal p; strVal := strVal p; w := w p;
     alignOnly := alignOnly p |} = p.
Proof. by destruct p. Qed.

Lemma set_w_same p : set_w (w p ++ []) p = p.
Proof. unfold set_w. rewrite app_nil_r. apply packer_eta. Qed.

Lemma set_alignOnly_same p : alignOnly p = false → set_alignOnly false p = p.
Proof. intros Ha. unfold set_alignOnly. rewrite <- Ha. apply packer_eta. Qed.

Lemma set_err_same p : err p = None → set_err None p = p.
Proof. intros He. unfold set_err. rewrite <- He. apply packer_eta. Qed.

(** X14. [align(n)] for [n > 0] works with [m], the smaller of [n] and
    the alignment bound. If [m] is a power of two it appends the least
    number of zero bytes that makes the length of the output a multiple
    of [m], and returns true unless the packer was in align-only mode,
    which it leaves; if not, it fails with [errBadAlignment]. *)
Theorem align_pads n p :
  0 < n < 2 ^ 64 → 1 ≤ maxAlignment p → Z.of_nat (length (w p)) < 2 ^ 64 →
  let m := Z.min n (maxAlignment p) in
  let pad := (- Z.of_nat (length (w p))) mod m in
  let p1 := set_w (w p ++ replicate (Z.to_nat pad) 0) p in
  ((∃ k, 0 ≤ k ∧ m = 2 ^ k) →
     align n p = inr (negb (alignOnly p), set_alignOnly false p1) ∧
     0 ≤ pad < m ∧ Z.of_nat (length (w p1)) mod m = 0) ∧
  (¬ (∃ k, 0 ≤ k ∧ m = 2 ^ k) →
     align n p = inr (false, set_err (Some errBadAlignment) p)).
Proof.
  intros Hn Hmax Hlen m pad p1.
  assert (1 ≤ m < 2 ^ 64) as Hm by (unfold m; lia).
  assert ((if maxAlignment p <? n then maxAlignment p else n) = m) as Hclamp.
  { unfold m. destruct (Z.ltb_spec (maxAlignment p) n); lia. }
  assert (wrap_uint (m - 1) = m - 1) as Hw1.
  { unfold wrap_uint. apply Z.mod_small. lia. }
  assert (0 ≤ pad < m) as Hpad by (apply Z.mod_pos_bound; lia).
  unfold align.
  assert ((n =? 0) = false) as -> by (apply Z.eqb_neq; lia).
  rewrite Hclamp, Hw1. split.
  - intros Hpow. apply land_pred_pow2 in Hpow; [|lia].
    rewrite Hpow. simpl.
    assert ((m =? 0) = false) as -> by (apply Z.eqb_neq; lia).
    assert (wrap_uint (Z.of_nat (length (w p))) = Z.of_nat (length (w p)))
      as -> by (unfold wrap_uint; apply Z.mod_small; lia).
    split; [|split; [done|]].
    + destruct (Z.eqb_spec (Z.of_nat (length (w p)) mod m) 0) as [Hr|Hr]; simpl.
      * assert (pad = 0) as Hpad0.
        { unfold pad. apply Z.mod_opp_l_z; [lia|done]. }
        assert (p1 = p) as ->.
        { unfold p1. rewrite Hpad0. simpl. apply set_w_same. }
        destruct (alignOnly p) eqn:Ha; [done|].
        by rewrite set_alignOnly_same.
      * assert (pad = m - Z.of_nat (length (w p)) mod m) as Hpad1.
        { unfold pad. apply Z.mod_opp_l_nz; [lia|done]. }
        pose proof (Z.mod_pos_bound (Z.of_nat (length (w p))) m) as Hb.
        assert (wrap_uint (m - Z.of_nat (length (w p)) mod m) = pad) as ->.
        { rewrite Hpad1. unfold wrap_uint. apply Z.mod_small. lia. }
        fold p1. unfold fill at 1. fold p1.
        change (alignOnly (fill pad 0 p)) with (alignOnly p).
        change (fill pad 0 p) with p1.
        destruct (alignOnly p) eqn:Ha; [done|].
        rewrite set_alignOnly_same; done.
    + unfold p1. simpl. rewrite length_app, length_replicate.
      rewrite Nat2Z.inj_add, Z2Nat.id by lia. unfold pad.
      rewrite Z.add_mod_idemp_r by lia.
      rewrite Z.add_opp_diag_r. apply Z.mod_0_l. lia.
  - intros Hpow.
    destruct (Z.eqb_spec (Z.land (m - 1) m) 0) as [Hland|Hland]; [|done].
    exfalso. apply Hpow. apply land_pred_pow2; [lia|done].
Qed.

(** ** Integers of a given size *)

Lemma length_le_bytes n x : length (le_bytes n x) = n.
Proof. revert x. induction n as [|n IH]; intros x; simpl; [done|]. by rewrite IH. Qed.

Lemma length_put bo n x : length (put bo n x) = n.
Proof.
  destruct bo; simpl; [|rewrite length_reverse]; apply length_le_bytes.
Qed.

Lemma le_bytes_byte n x : Forall (λ b, 0 ≤ b < 256) (le_bytes n x).
Proof.
  revert x. induction n as [|n IH]; intros x; simpl; constructor; [|done].
  apply Z.mod_pos_bound. lia.
Qed.

Lemma le_value_le_bytes n x :
  le_value (le_bytes n x) = x mod 2 ^ (8 * Z.of_nat n).
Proof.
  revert x. induction n as [|n IH]; intros x; simpl le_bytes; simpl le_value.
  { by rewrite Z.mod_1_r. }
  rewrite IH.
  replace (8 * Z.of_nat (S n)) with (8 + 8 * Z.of_nat n) by lia.
  rewrite Z.pow_add_r by lia. change (2 ^ 8) with 256.
  rewrite Z.rem_mul_r by lia. done.
Qed.

Lemma le_bytes_app a b x :
  le_bytes (a + b) x = le_bytes a x ++ le_bytes b (x / 2 ^ (8 * Z.of_nat a)).
Proof.
  revert x. induction a as [|a IH]; intros x.
  { simpl. by rewrite Z.div_1_r. }
  change (S a + b)%nat with (S (a + b)). simpl le_bytes. rewrite IH.
  simpl. do 3 f_equal.
  replace (8 * Z.of_nat (S a)) with (8 + 8 * Z.of_nat a) by lia.
  rewrite Z.pow_add_r by lia. change (2 ^ 8) with 256.
  rewrite Z.div_div by lia. done.
Qed.

Lemma le_bytes_zero n : le_bytes n 0 = replicate n 0.
Proof.
  induction n as [|n IH]; [done|].
  change (le_bytes (S n) 0) with (0 mod 256 :: le_bytes n (0 / 256)).
  change (0 / 256) with 0. by rewrite IH.
Qed.

Lemma le_bytes_minus_one n : le_bytes n (-1) = replicate n 255.
Proof.
  induction n as [|n IH]; [done|].
  change (le_bytes (S n) (-1)) with (-1 mod 256 :: le_bytes n (-1 / 256)).
  change (-1 / 256) with (-1). by rewrite IH.
Qed.

Lemma le_bytes_congr n x y :
  x mod 2 ^ (8 * Z.of_nat n) = y mod 2 ^ (8 * Z.of_nat n) →
  le_bytes n x = le_bytes n y.
Proof.
  revert x y. induction n as [|n IH]; intros x y Hxy; simpl; [done|].
  replace (8 * Z.of_nat (S n)) with (8 + 8 * Z.of_nat n) in Hxy by lia.
  rewrite Z.pow_add_r in Hxy by lia. change (2 ^ 8) with 256 in Hxy.
  rewrite !Z.rem_mul_r in Hxy by lia.
  pose proof (Z.mod_pos_bound x 256). pose proof (Z.mod_pos_bound y 256).
  pose proof (Z.mod_pos_bound (x / 256) (2 ^ (8 * Z.of_nat n))).
  pose proof (Z.mod_pos_bound (y / 256) (2 ^ (8 * Z.of_nat n))).
  assert (0 < 2 ^ (8 * Z.of_nat n)) by (apply Z.pow_pos_nonneg; lia).
  assert (x mod 256 = y mod 256) as Hlow by lia.
  f_equal; [done|]. apply IH. lia.
Qed.

(** The first [n] of the eight bytes, and the eight bytes extended by
    the sign, are the encodings in [n] bytes. *)
Lemma take_le_bytes n x : (n ≤ 8)%nat → take n (le_bytes 8 x) = le_bytes n x.
Proof.
  intros Hn. replace 8%nat with (n + (8 - n))%nat at 1 by lia.
  rewrite le_bytes_app, take_app_length'; [done|]. by rewrite length_le_bytes.
Qed.

Lemma drop_reverse_le_bytes n x :
  (n ≤ 8)%nat →
  drop (8 - n) (reverse (le_bytes 8 x)) = reverse (le_bytes n x).
Proof.
  intros Hn. replace (le_bytes 8 x) with (le_bytes (n + (8 - n)) x)
    by (f_equal; lia).
  rewrite le_bytes_app, reverse_app, drop_app_length'; [done|].
  by rewrite length_reverse, length_le_bytes.
Qed.

Lemma le_bytes_sign_extend n x :
  int_min ≤ x ≤ int_max → (8 ≤ n)%nat →
  le_bytes 8 x ++ replicate (n - 8) (if x <? 0 then 255 else 0) = le_bytes n x.
Proof.
  intros Hx Hn. replace n with (8 + (n - 8))%nat at 2 by lia.
  rewrite le_bytes_app. f_equal. change (2 ^ (8 * Z.of_nat 8)) with (2 ^ 64).
  unfold int_min, int_max in Hx.
  destruct (Z.ltb_spec x 0).
  - replace (x / 2 ^ 64) with (-1); [by rewrite le_bytes_minus_one|].
    apply Z.div_unique with (r := x + 2 ^ 64); lia.
  - rewrite Z.div_small by lia. by rewrite le_bytes_zero.
Qed.

Lemma le_bytes_zero_extend n x :
  (8 ≤ n)%nat →
  le_bytes 8 x ++ replicate (n - 8) 0 = le_bytes n (x mod 2 ^ 64).
Proof.
  intros Hn. replace n with (8 + (n - 8))%nat at 2 by lia.
  rewrite le_bytes_app. change (2 ^ (8 * Z.of_nat 8)) with (2 ^ 64).
  rewrite Z.div_small by (apply Z.mod_pos_bound; lia).
  rewrite le_bytes_zero. f_equal. apply le_bytes_congr.
  change (2 ^ (8 * Z.of_nat 8)) with (2 ^ 64). by rewrite Z.mod_mod by lia.
Qed.

Lemma unsigned_put bo n x : unsigned bo (put bo n x) = x mod 2 ^ (8 * Z.of_nat n).
Proof.
  unfold unsigned, put. destruct bo; [|rewrite reverse_involutive];
    apply le_value_le_bytes.
Qed.

Lemma signed_put bo n x :
  (0 < n)%nat →
  - 2 ^ (8 * Z.of_nat n - 1) ≤ x < 2 ^ (8 * Z.of_nat n - 1) →
  signed bo (put bo n x) = x.
Proof.
  intros Hn Hx. unfold signed. rewrite unsigned_put, length_put.
  assert (2 ^ (8 * Z.of_nat n) = 2 * 2 ^ (8 * Z.of_nat n - 1)) as Hpow.
  { rewrite <- Z.pow_succ_r by lia. f_equal. lia. }
  assert (0 < 2 ^ (8 * Z.of_nat n - 1)) by (apply Z.pow_pos_nonneg; lia).
  destruct (Z.le_gt_cases 0 x).
  - rewrite Z.mod_small by lia.
    destruct (Z.ltb_spec x (2 ^ (8 * Z.of_nat n - 1))); lia.
  - assert (x mod 2 ^ (8 * Z.of_nat n) = x + 2 ^ (8 * Z.of_nat n)) as ->.
    { symmetry. apply Z.mod_unique with (q := -1); lia. }
    destruct (Z.ltb_spec (x + 2 ^ (8 * Z.of_nat n))
                (2 ^ (8 * Z.of_nat n - 1))); lia.
Qed.

Lemma wrap_uint_small z : 0 ≤ z < 2 ^ 64 → wrap_uint z = z.
Proof. intros Hz. unfold wrap_uint. by apply Z.mod_small. Qed.

Lemma pow2_8_bound n :
  8 ≤ n → 2 ^ 63 ≤ 2 ^ (8 * n - 1).
Proof. intros Hn. apply Z.pow_le_mono_r; lia. Qed.

(** X15. [packInt] with an option size of 1 to 16 bytes and no error
    pending: if the integer fits in that many bytes in two's complement
    (as every [int64] does from 8 bytes on) it appends exactly that many
    bytes, which read back in the current byte order as the integer, and
    returns true; otherwise it writes nothing and fails with
    [errOutOfBounds]. *)
Theorem packInt_twos_complement p :
  1 ≤ optSize p ≤ 16 → int_min ≤ intVal p ≤ int_max → err p = None →
  let n := Z.to_nat (optSize p) in
  let bs := put (byteOrder p) n (intVal p) in
  (- 2 ^ (8 * optSize p - 1) ≤ intVal p < 2 ^ (8 * optSize p - 1) →
     packInt p = inr (true, set_w (w p ++ bs) p) ∧
     length bs = n ∧ signed (byteOrder p) bs = intVal p) ∧
  (¬ (- 2 ^ (8 * optSize p - 1) ≤ intVal p < 2 ^ (8 * optSize p - 1)) →
     packInt p = inr (false, set_err (Some errOutOfBounds) p)).
Proof.
  intros Hn Hx He n bs.
  assert (- 2 ^ (8 * optSize p - 1) ≤ intVal p < 2 ^ (8 * optSize p - 1) →
          length bs = n ∧ signed (byteOrder p) bs = intVal p) as Hdec.
  { intros Hfit. split; [apply length_put|].
    apply signed_put; [lia|]. unfold n. by rewrite Z2Nat.id by lia. }
  cut ((- 2 ^ (8 * optSize p - 1) ≤ intVal p < 2 ^ (8 * optSize p - 1) →
        packInt p = inr (true, set_w (w p ++ bs) p)) ∧
       (¬ (- 2 ^ (8 * optSize p - 1) ≤ intVal p < 2 ^ (8 * optSize p - 1)) →
        packInt p = inr (false, set_err (Some errOutOfBounds) p))).
  { intros [H1 H2]. split; [|done]. intros Hfit. split; [by apply H1|by apply Hdec]. }
  clear Hdec. unfold bs, n. clear bs n.
  destruct p as [fmt i0 bo ma er os vs j0 v x fv sv out ao]; simpl in *.
  subst er. unfold int_min, int_max in Hx.
  destruct (decide (os = 4)) as [->|Hne4].
  { unfold packInt, and_then, checkBounds, write_intVal, write, fail; simpl.
    change (8 * 4 - 1) with 31.
    destruct (Z.leb_spec (- 2 ^ 31) x), (Z.leb_spec x (2 ^ 31 - 1)); simpl;
      (split; [intros ?|intros ?]; first [done|lia]). }
  destruct (decide (os = 8)) as [->|Hne8].
  { unfold packInt, write_intVal, write; simpl.
    change (8 * 8 - 1) with 63. split; [done|lia]. }
  destruct (decide (8 ≤ os)) as [Hbig|Hsmall].
  { pose proof (pow2_8_bound os Hbig) as Hpow.
    split; [intros _|lia].
    unfold packInt. simpl.
    assert ((os =? 4) = false) as -> by (apply Z.eqb_neq; lia).
    assert ((os =? 8) = false) as -> by (apply Z.eqb_neq; lia).
    assert ((8 <=? os) = true) as -> by (apply Z.leb_le; lia).
    rewrite wrap_uint_small by lia.
    assert (Z.to_nat (os - 8) = (Z.to_nat os - 8)%nat) as Hsub by lia.
    destruct bo; unfold write_intVal, write, fill, set_w, set_err; simpl;
      rewrite Hsub; do 3 f_equal.
    - rewrite <- app_assoc. f_equal. apply le_bytes_sign_extend; [done|lia].
    - rewrite <- app_assoc. f_equal.
      rewrite <- (le_bytes_sign_extend (Z.to_nat os) x) by (done || lia).
      by rewrite reverse_app, reverse_replicate. }
  assert (os = 1 ∨ os = 2 ∨ os = 3 ∨ os = 5 ∨ os = 6 ∨ os = 7) as Hcases by lia.
  unfold packInt, checkBounds, fail. simpl.
  destruct Hcases as [-> | [-> | [-> | [-> | [-> | ->]]]]]; simpl;
    repeat match goal with
    | |- context [wrap_int ?e] =>
        let c := eval vm_compute in (wrap_int e) in
        progress change (wrap_int e) with c
    end;
    match goal with
    | |- context [(?a <=? x) && (x <=? ?b)] =>
        destruct (Z.leb_spec a x), (Z.leb_spec x b)
    end; simpl.
  all: split; intros Hfit; try done; try (exfalso; simpl in *; lia).
  all: destruct bo; unfold set_w, put; simpl; do 3 f_equal.
  all: first [ apply (take_le_bytes _ x); lia
             | apply (drop_reverse_le_bytes 1 x); lia
             | apply (drop_reverse_le_bytes 2 x); lia
             | apply (drop_reverse_le_bytes 3 x); lia
             | apply (drop_reverse_le_bytes 5 x); lia
             | apply (drop_reverse_le_bytes 6 x); lia
             | apply (drop_reverse_le_bytes 7 x); lia ].
Qed.

(** X16. [packUint] with an option size of 1 to 16 bytes and no error
    pending: up to 8 bytes the integer must be non-negative and fit, else
    the call fails with [errOutOfBounds] and writes nothing; above 8
    bytes no bound is checked. On success exactly that many bytes are
    appended, and they read back, unsigned in the current byte order, as
    the integer modulo 2^64. *)
Theorem packUint_unsigned p :
  1 ≤ optSize p ≤ 16 → int_min ≤ intVal p ≤ int_max → err p = None →
  let n := Z.to_nat (optSize p) in
  let bs := put (byteOrder p) n (intVal p mod 2 ^ 64) in
  (8 < optSize p ∨ 0 ≤ intVal p < 2 ^ (8 * optSize p) →
     packUint p = inr (true, set_w (w p ++ bs) p) ∧
     length bs = n ∧ unsigned (byteOrder p) bs = intVal p mod 2 ^ 64) ∧
  (¬ (8 < optSize p ∨ 0 ≤ intVal p < 2 ^ (8 * optSize p)) →
     packUint p = inr (false, set_err (Some errOutOfBounds) p)).
Proof.
  intros Hn Hx He n bs.
  assert (8 < optSize p ∨ 0 ≤ intVal p < 2 ^ (8 * optSize p) →
          length bs = n ∧ unsigned (byteOrder p) bs = intVal p mod 2 ^ 64)
    as Hdec.
  { intros Hfit. split; [apply length_put|].
    unfold bs. rewrite unsigned_put. unfold n. rewrite Z2Nat.id by lia.
    apply Z.mod_small.
    pose proof (Z.mod_pos_bound (intVal p) (2 ^ 64)) as Hb.
    destruct (decide (8 ≤ optSize p)) as [Hbig|Hsmall].
    - assert (2 ^ 64 ≤ 2 ^ (8 * optSize p)) by (apply Z.pow_le_mono_r; lia).
      lia.
    - destruct Hfit as [?|Hfit]; [lia|].
      assert (2 ^ (8 * optSize p) ≤ 2 ^ 64) by (apply Z.pow_le_mono_r; lia).
      rewrite Z.mod_small; lia. }
  cut ((8 < optSize p ∨ 0 ≤ intVal p < 2 ^ (8 * optSize p) →
        packUint p = inr (true, set_w (w p ++ bs) p)) ∧
       (¬ (8 < optSize p ∨ 0 ≤ intVal p < 2 ^ (8 * optSize p)) →
        packUint p = inr (false, set_err (Some errOutOfBounds) p))).
  { intros [H1 H2]. split; [|done]. intros Hfit.
    split; [by apply H1|by apply Hdec]. }
  clear Hdec. unfold bs, n. clear bs n.
  destruct p as [fmt i0 bo ma er os vs j0 v x fv sv out ao]; simpl in *.
  subst er. unfold int_min, int_max in Hx.
  destruct (decide (8 < os)) as [Hbig|Hsmall].
  { split; [intros _|intros Hno; exfalso; apply Hno; by left].
    unfold packUint. simpl.
    assert ((os =? 4) = false) as -> by (apply Z.eqb_neq; lia).
    assert ((os =? 8) = false) as -> by (apply Z.eqb_neq; lia).
    assert ((8 <? os) = true) as -> by (apply Z.ltb_lt; lia).
    rewrite wrap_uint_small by lia.
    assert (Z.to_nat (os - 8) = (Z.to_nat os - 8)%nat) as Hsub by lia.
    destruct bo; unfold write_intVal, write, fill, set_w, set_err; simpl;
      rewrite Hsub; do 3 f_equal.
    - rewrite <- app_assoc. f_equal. apply le_bytes_zero_extend. lia.
    - rewrite <- app_assoc. f_equal.
      rewrite <- (le_bytes_zero_extend (Z.to_nat os) x) by lia.
      by rewrite reverse_app, reverse_replicate. }
  assert (os = 1 ∨ os = 2 ∨ os = 3 ∨ os = 4 ∨ os = 5 ∨ os = 6 ∨ os = 7 ∨ os = 8)
    as Hcases by lia.
  unfold packUint, and_then, checkBounds, write_intVal, write, fail. simpl.
  destruct Hcases as [-> | [-> | [-> | [-> | [-> | [-> | [-> | ->]]]]]]]; simpl;
    repeat match goal with
    | |- context [wrap_int ?e] =>
        let c := eval vm_compute in (wrap_int e) in
        progress change (wrap_int e) with c
    end;
    match goal with
    | |- context [(?a <=? x) && (x <=? ?b)] =>
        destruct (Z.leb_spec a x), (Z.leb_spec x b)
    end; simpl.
  all: split; intros Hfit; try done; try (exfalso; simpl in *; lia).
  all: rewrite (Z.mod_small x (2 ^ 64)) by lia.
  all: destruct bo; unfold set_w, set_err, put; simpl; do 3 f_equal.
  all: first [ reflexivity
             | apply (take_le_bytes _ x); lia
             | apply (drop_reverse_le_bytes 1 x); lia
             | apply (drop_reverse_le_bytes 2 x); lia
             | apply (drop_reverse_le_bytes 3 x); lia
             | apply (drop_reverse_le_bytes 5 x); lia
             | apply (drop_reverse_le_bytes 6 x); lia
             | apply (drop_reverse_le_bytes 7 x); lia ].
Qed.
(** ** Strings of a given size *)


(** ** [PackValues] returns *)

Lemma max_size_16 : 16 ≤ max_size.
Proof. unfold max_size. lia. Qed.

Lemma max_size_default : defaultMaxAlignement ≤ max_size.
Proof. unfold max_size. lia. Qed.

Section bound.

Variables B L : nat.

Lemma advances_trans g1 g2 p q r :
  advances B g1 p q → advances B g2 q r → advances B (g1 + g2) p r.
Proof.
  intros (Hf & Hv & Hi & Hg & Hw) (Hf' & Hv' & Hi' & Hg' & Hw').
  unfold advances. rewrite Hf', Hv'. repeat split; done || lia.
Qed.

Lemma safe_weaken g g' a : g ≤ g' → safe B L g a → safe B L g' a.
Proof.
  intros Hg Ha p Hok. destruct (Ha p Hok) as (b & q & Hrun & Hadv & Hq).
  exists b, q. split; [done|]. split; [|done].
  destruct Hadv as (? & ? & ? & ? & ?).
  unfold advances. repeat split; done || lia.
Qed.

Lemma safe_and_then g1 g2 a b :
  safe B L g1 a → safe B L g2 b → safe B L (g1 + g2) (and_then a b).
Proof.
  intros Ha Hb p Hok. unfold and_then.
  destruct (Hb p Hok) as (_ & _ & _ & (_ & _ & _ & Hg2 & _) & _).
  destruct (Ha p Hok) as (b1 & q1 & -> & Hadv1 & Hq1).
  destruct b1.
  - destruct (Hb q1) as (b2 & q2 & -> & Hadv2 & Hq2); [apply Hq1; by left|].
    exists b2, q2. split; [done|]. split; [|done]. by eapply advances_trans.
  - exists false, q1. split; [done|]. split; [|done].
    destruct Hadv1 as (? & ? & ? & ? & ?). unfold advances.
    repeat split; try done; try lia.
Qed.

(** A step that changes none of the fields the invariant mentions and
    writes [g] bytes at most. *)
Lemma safe_same g (a : step) :
  0 ≤ g →
  (∀ p, packer_ok B L p →
        ∃ b q, a p = inr (b, q) ∧ format q = format p ∧ values q = values p ∧
               maxAlignment q = maxAlignment p ∧ i q = i p ∧
               optSize q = optSize p ∧ strVal q = strVal p ∧
               Z.of_nat (length (w q)) ≤ Z.of_nat (length (w p)) + g) →
  safe B L g a.
Proof.
  intros Hg Ha p Hok.
  destruct (Ha p Hok) as (b & q & Hrun & Hf & Hv & Hm & Hi & Ho & Hs & Hw).
  exists b, q. split; [done|].
  destruct Hok as (Hi0 & Hb0 & Hm0 & Ho0 & Hs0 & Hv0).
  split.
  - unfold advances. rewrite Hf, Hv, Hi. repeat split; done || lia.
  - intros _. unfold packer_ok. rewrite Hf, Hv, Hm, Hi, Ho, Hs. done.
Qed.

Ltac same_fields :=
  eexists _, _; split; [reflexivity|];
  repeat (split; [reflexivity|]);
  simpl; rewrite ?length_app, ?length_replicate, ?length_put, ?length_take,
                 ?length_drop, ?length_reverse, ?length_le_bytes;
  simpl; lia.

Lemma safe_fail e : safe B L 0 (fail e).
Proof. apply safe_same; [done|]. intros p _. unfold fail. same_fields. Qed.

Lemma nextValue_inv p b q :
  nextValue p = inr (b, q) →
  format q = format p ∧ values q = values p ∧
  maxAlignment q = maxAlignment p ∧ i q = i p ∧ optSize q = optSize p ∧
  strVal q = strVal p ∧ w q = w p ∧
  (b = true → ∃ v, val q = Some v ∧ v ∈ values p).
Proof.
  unfold nextValue. destruct (j p <? length (values p))%nat.
  - destruct (values p !! j p) as [v|] eqn:Hv; [|done]. intros [= <- <-].
    simpl. repeat split; try done. intros _. exists v. split; [done|].
    by eapply list_elem_of_lookup_2.
  - intros [= <- <-]. repeat split; done.
Qed.

Lemma nextValue_total p : ∃ b q, nextValue p = inr (b, q).
Proof.
  unfold nextValue.
  destruct (Nat.ltb_spec (j p) (length (values p))) as [Hj|Hj].
  - destruct (lookup_lt_is_Some_2 _ _ Hj) as [v ->]. by eexists _, _.
  - by eexists _, _.
Qed.

Lemma safe_nextIntValue : safe B L 0 nextIntValue.
Proof.
  apply safe_same; [done|]. intros p _. unfold nextIntValue.
  destruct (nextValue_total p) as (b & q & Hq). rewrite Hq.
  apply nextValue_inv in Hq as (? & ? & ? & ? & ? & ? & Hw & _).
  destruct b; [|eexists _, _; split; [done|]; rewrite Hw;
                repeat split; done || lia].
  destruct (val q ≫= rt_ToInt); eexists _, _; (split; [done|]); simpl;
    rewrite Hw; repeat split; done || lia.
Qed.

Lemma safe_nextFloatValue : safe B L 0 nextFloatValue.
Proof.
  apply safe_same; [done|]. intros p _. unfold nextFloatValue.
  destruct (nextValue_total p) as (b & q & Hq). rewrite Hq.
  apply nextValue_inv in Hq as (? & ? & ? & ? & ? & ? & Hw & _).
  destruct b; [|eexists _, _; split; [done|]; rewrite Hw;
                repeat split; done || lia].
  destruct (val q ≫= rt_ToFloat); eexists _, _; (split; [done|]); simpl;
    rewrite Hw; repeat split; done || lia.
Qed.

Lemma safe_nextStringValue : safe B L 0 nextStringValue.
Proof.
  intros p Hok. pose proof Hok as (Hi0 & Hb0 & Hm0 & Ho0 & Hs0 & Hv0).
  unfold nextStringValue.
  destruct (nextValue_total p) as (b & q & Hq). rewrite Hq.
  apply nextValue_inv in Hq as (Hf & Hv & Hm & Hi & Ho & Hs & Hw & Hval).
  assert (advances B 0 p q) as Hadv.
  { unfold advances. rewrite Hf, Hv, Hi, Hw. repeat split; done || lia. }
  assert (packer_ok B L q) as Hokq.
  { unfold packer_ok. rewrite Hf, Hv, Hm, Hi, Ho, Hs. done. }
  destruct b; [|by eexists _, _].
  destruct (Hval eq_refl) as (v & Hvq & Hin). rewrite Hvq. simpl.
  destruct (rt_AsString v) as [s|] eqn:Hstr.
  - eexists _, _. split; [done|]. split; [done|]. intros _.
    unfold packer_ok. simpl. rewrite Hf, Hv, Hm, Hi, Ho.
    repeat split; try done; try lia. by eapply Hv0.
  - eexists _, _. split; [done|]. split; [done|]. simpl. by intros [|].
Qed.

Lemma safe_checkBounds lo hi : safe B L 0 (checkBounds lo hi).
Proof.
  apply safe_same; [done|]. intros p _. unfold checkBounds, fail.
  destruct ((lo <=? intVal p) && (intVal p <=? hi)); same_fields.
Qed.

Lemma safe_checkFloatSize m : safe B L 0 (checkFloatSize m).
Proof.
  apply safe_same; [done|]. intros p _. unfold checkFloatSize, fail.
  destruct (_ && _); same_fields.
Qed.

Lemma safe_writeByte b : safe B L 1 (writeByte b).
Proof. apply safe_same; [done|]. intros p _. unfold writeByte. same_fields. Qed.

Lemma safe_write_intVal n : safe B L (Z.of_nat n) (write_intVal n).
Proof.
  apply safe_same; [lia|]. intros p _. unfold write_intVal, write. same_fields.
Qed.

Lemma safe_write_float32 : safe B L 4 write_float32.
Proof.
  apply safe_same; [done|]. intros p _. unfold write_float32, write. same_fields.
Qed.

Lemma safe_write_float64 : safe B L 8 write_float64.
Proof.
  apply safe_same; [done|]. intros p _. unfold write_float64, write. same_fields.
Qed.

Lemma safe_writeStr_0 : safe B L (Z.of_nat L) (writeStr 0).
Proof.
  intros p Hok. pose proof Hok as (Hi0 & Hb0 & Hm0 & Ho0 & Hs0 & Hv0).
  unfold writeStr. simpl. eexists _, _. split; [done|]. split.
  - unfold advances. simpl. rewrite length_app.
    repeat split; try done; lia.
  - intros _. done.
Qed.

(** The run of digits ends at the latest where the format has a byte
    that is not a digit. *)
Lemma leading_digits_stop l k :
  (∀ c, l !! k = Some c → is_digit c = false) →
  (length (leading_digits l) ≤ k)%nat.
Proof.
  revert k. induction l as [|c l IH]; intros k Hk; simpl; [lia|].
  destruct (is_digit c) eqn:Hc; simpl; [|lia].
  destruct k as [|k].
  - specialize (Hk c eq_refl). congruence.
  - specialize (IH k Hk). lia.
Qed.

Lemma getOptSize_inv p ok q :
  (i p ≤ B)%nat → (∀ c, format p !! B = Some c → is_digit c = false) →
  getOptSize p = (ok, q) →
  format q = format p ∧ values q = values p ∧
  maxAlignment q = maxAlignment p ∧ (i p ≤ i q ≤ B)%nat ∧
  strVal q = strVal p ∧ w q = w p ∧ err q = err p ∧ 0 ≤ optSize q.
Proof.
  intros Hi Hb. rewrite getOptSize_eq. intros [= <- <-].
  pose proof (leading_digits_stop (drop (i p) (format p)) (B - i p)) as Hlen.
  rewrite lookup_drop in Hlen.
  replace (i p + (B - i p))%nat with B in Hlen by lia.
  specialize (Hlen Hb). simpl. repeat split; try done; try lia.
  apply Z.mod_pos_bound. lia.
Qed.

(** On success [smallOptSize] leaves a size between 1 and 16, or the
    default. *)
Lemma safe_smallOptSize d : 1 ≤ d ≤ max_size → safe B L 0 (smallOptSize d).
Proof.
  intros Hd p Hok. pose proof Hok as (Hi0 & Hb0 & Hm0 & Ho0 & Hs0 & Hv0).
  pose proof max_size_16 as HM.
  unfold smallOptSize.
  destruct (getOptSize p) as [ok q] eqn:Hget.
  apply (getOptSize_inv _ _ _ Hi0 Hb0) in Hget
    as (Hf & Hv & Hm & Hi & Hs & Hw & He & Ho).
  assert (∀ q', format q' = format q → values q' = values q →
                i q' = i q → w q' = w q → advances B 0 p q') as Hadv.
  { intros q' Hf' Hv' Hi' Hw'. unfold advances.
    rewrite Hf', Hv', Hi', Hw', Hf, Hv, Hw. repeat split; done || lia. }
  destruct (Z.ltb_spec 16 (optSize q)) as [Hbig|Hsmall].
  { eexists _, _. split; [done|]. split; [by apply Hadv|].
    simpl. by intros [|]. }
  destruct (Z.eqb_spec (optSize q) 0) as [H0|H0].
  - assert ((d =? 0) = false) as -> by (apply Z.eqb_neq; lia).
    eexists _, _. split; [done|]. split; [by apply Hadv|]. intros _.
    unfold packer_ok. simpl. rewrite Hf, Hv, Hm, Hs.
    repeat split; done || lia.
  - eexists _, _. split; [done|]. split; [by apply Hadv|]. intros _.
    unfold packer_ok. rewrite Hf, Hv, Hm, Hs.
    repeat split; done || lia.
Qed.

Lemma smallOptSize_size d p q :
  smallOptSize d p = inr (true, q) → 1 ≤ d → 1 ≤ optSize q.
Proof.
  unfold smallOptSize. destruct (getOptSize p) as [ok q0] eqn:Hget.
  rewrite getOptSize_eq in Hget. injection Hget as _ <-. simpl.
  set (n := decimal _ mod 2 ^ 64).
  assert (0 ≤ n) by (apply Z.mod_pos_bound; lia).
  destruct (16 <? n); [done|].
  destruct (Z.eqb_spec n 0).
  - destruct (d =? 0); [done|]. intros [= <-]. simpl. lia.
  - intros [= <-]. simpl. lia.
Qed.

Lemma safe_align_with (n : packer → Z) :
  (∀ p, packer_ok B L p → 0 ≤ n p) →
  safe B L max_size (λ p, align (n p) p).
Proof.
  intros Hn p Hok. specialize (Hn p Hok).
  pose proof Hok as (Hi0 & Hb0 & Hm0 & Ho0 & Hs0 & Hv0).
  pose proof max_size_16 as HM.
  assert (∀ q, format q = format p → values q = values p →
               maxAlignment q = maxAlignment p → i q = i p →
               optSize q = optSize p → strVal q = strVal p →
               Z.of_nat (length (w q)) ≤ Z.of_nat (length (w p)) + max_size →
            ∃ b q', (if alignOnly q then inr (false, set_alignOnly false q)
                     else inr (true, q) : panic + (bool * packer))
                    = inr (b, q') ∧ advances B max_size p q' ∧
                    (b = true ∨ err q' = None → packer_ok B L q')) as Hfin.
  { intros q Hf Hv Hma Hiq Hoq Hsq Hwq.
    destruct (alignOnly q); eexists _, _; (split; [done|]); (split;
      [unfold advances; simpl; rewrite Hf, Hv, Hiq;
       repeat split; done || lia
      |intros _; unfold packer_ok; simpl; rewrite Hf, Hv, Hma, Hiq, Hoq, Hsq;
       done]). }
  unfold align. destruct (Z.eqb_spec (n p) 0) as [Hn0|Hn0].
  { apply Hfin; done || lia. }
  set (m := if maxAlignment p <? n p then maxAlignment p else n p).
  assert (1 ≤ m ≤ max_size) as Hm.
  { unfold m. destruct (Z.ltb_spec (maxAlignment p) (n p)); lia. }
  destruct (negb _).
  { eexists _, _. split; [done|]. split.
    - unfold advances. simpl. repeat split; done || lia.
    - simpl. by intros [|]. }
  assert ((m =? 0) = false) as -> by (apply Z.eqb_neq; lia).
  set (r := wrap_uint (Z.of_nat (length (w p))) mod m).
  assert (0 ≤ r < m) as Hr by (apply Z.mod_pos_bound; lia).
  destruct (negb (r =? 0)); apply Hfin; try done; try lia.
  unfold fill. simpl. rewrite length_app, length_replicate.
  assert (wrap_uint (m - r) ≤ m - r) as Hle.
  { unfold wrap_uint. apply Z.mod_le; lia. }
  assert (0 ≤ wrap_uint (m - r)).
  { unfold wrap_uint. apply Z.mod_pos_bound. lia. }
  lia.
Qed.

Lemma safe_align n : 0 ≤ n → safe B L max_size (align n).
Proof. intros Hn. apply (safe_align_with (λ _, n)). done. Qed.

Lemma safe_align_optSize : safe B L max_size (λ p, align (optSize p) p).
Proof. apply safe_align_with. by intros p (_ & _ & _ & [? _] & _). Qed.

Lemma safe_packInt : safe B L max_size packInt.
Proof.
  pose proof max_size_16 as HM.
  apply safe_same; [lia|]. intros p (Hi0 & Hb0 & Hm0 & Ho0 & Hs0 & Hv0).
  unfold packInt, and_then, checkBounds, write_intVal, write, fail.
  destruct (optSize p =? 4).
  { destruct (_ && _); same_fields. }
  destruct (optSize p =? 8); [same_fields|].
  destruct (Z.leb_spec 8 (optSize p)).
  { assert (wrap_uint (optSize p - 8) ≤ optSize p - 8)
      by (unfold wrap_uint; apply Z.mod_le; lia).
    assert (0 ≤ wrap_uint (optSize p - 8))
      by (unfold wrap_uint; apply Z.mod_pos_bound; lia).
    destruct (byteOrder p) eqn:Hbo; simpl; rewrite ?Hbo; unfold fill;
      same_fields. }
  destruct (_ && _); [|same_fields].
  destruct (byteOrder p) eqn:Hbo; simpl; rewrite ?Hbo; same_fields.
Qed.

Lemma safe_packUint : safe B L max_size packUint.
Proof.
  pose proof max_size_16 as HM.
  apply safe_same; [lia|]. intros p (Hi0 & Hb0 & Hm0 & Ho0 & Hs0 & Hv0).
  unfold packUint, and_then, checkBounds, write_intVal, write, fail.
  destruct (optSize p =? 4).
  { destruct (_ && _); same_fields. }
  destruct (optSize p =? 8).
  { destruct (_ && _); same_fields. }
  destruct (Z.ltb_spec 8 (optSize p)).
  { assert (wrap_uint (optSize p - 8) ≤ optSize p - 8)
      by (unfold wrap_uint; apply Z.mod_le; lia).
    assert (0 ≤ wrap_uint (optSize p - 8))
      by (unfold wrap_uint; apply Z.mod_pos_bound; lia).
    destruct (byteOrder p) eqn:Hbo; simpl; rewrite ?Hbo; unfold fill;
      same_fields. }
  destruct (_ && _); [|same_fields].
  destruct (byteOrder p) eqn:Hbo; simpl; rewrite ?Hbo; same_fields.
Qed.

Ltac solve_safe :=
  lazymatch goal with
  | |- safe _ _ _ (and_then _ _) =>
      eapply safe_and_then; [solve_safe|solve_safe]
  | |- safe _ _ _ (align _) => apply safe_align; lia
  | |- safe _ _ _ (smallOptSize _) =>
      apply safe_smallOptSize; pose proof max_size_16; lia
  | |- safe _ _ _ (λ p, align (optSize p) p) => apply safe_align_optSize
  | |- safe _ _ _ (writeStr 0) => apply safe_writeStr_0
  | |- safe _ _ _ (writeByte _) => apply safe_writeByte
  | |- safe _ _ _ nextIntValue => apply safe_nextIntValue
  | |- safe _ _ _ nextFloatValue => apply safe_nextFloatValue
  | |- safe _ _ _ nextStringValue => apply safe_nextStringValue
  | |- safe _ _ _ (checkBounds _ _) => apply safe_checkBounds
  | |- safe _ _ _ (checkFloatSize _) => apply safe_checkFloatSize
  | |- safe _ _ _ (write_intVal _) => apply safe_write_intVal
  | |- safe _ _ _ write_float32 => apply safe_write_float32
  | |- safe _ _ _ write_float64 => apply safe_write_float64
  | |- safe _ _ _ packInt => apply safe_packInt
  | |- safe _ _ _ packUint => apply safe_packUint
  end.

(** Whatever the option byte, [c] apart, the switch of [PackValues] does
    not panic, writes at most [option_growth L] bytes and keeps the
    invariant unless it sets an error. *)
Lemma PackValues_switch_ok opt p :
  1 ≤ defaultMaxAlignement → opt ≠ char "c" → packer_ok B L p →
  ∃ q, PackValues_switch opt p = inr q ∧
       advances B (option_growth L) p q ∧
       (err q = None → packer_ok B L q).
Proof.
  intros Hd Hc Hok. pose proof Hok as (Hi0 & Hb0 & Hm0 & Ho0 & Hs0 & Hv0).
  pose proof max_size_16 as HM. pose proof max_size_default as HD.
  assert (∀ g a, safe B L g a → g ≤ option_growth L →
            ∃ q, discard a p = inr q ∧ advances B (option_growth L) p q ∧
                 (err q = None → packer_ok B L q)) as Hchain.
  { intros g a Ha Hg. unfold discard.
    destruct (safe_weaken _ _ _ Hg Ha p Hok) as (b & q & -> & Hadv & Hq).
    exists q. split; [done|]. split; [done|]. intros He. apply Hq. by right. }
  assert (∀ q, format q = format p → values q = values p → i q = i p →
               maxAlignment q = maxAlignment p → optSize q = optSize p →
               strVal q = strVal p → w q = w p →
            ∃ q', inr q = (inr q' : panic + packer) ∧
                  advances B (option_growth L) p q' ∧
                  (err q' = None → packer_ok B L q')) as Hset.
  { intros q Hf Hv Hiq Hmq Hoq Hsq Hwq. exists q. split; [done|]. split.
    - unfold advances, option_growth. rewrite Hf, Hv, Hiq, Hwq.
      repeat split; done || lia.
    - intros _. unfold packer_ok. rewrite Hf, Hv, Hiq, Hmq, Hoq, Hsq. done. }
  unfold PackValues_switch.
  repeat match goal with
  | |- ∃ q, (if opt =? char "c" then _ else _) = _ ∧ _ =>
      destruct (Z.eqb_spec opt (char "c")); [done|]
  | |- ∃ q, (if ?c then _ else _) = _ ∧ _ => destruct c
  | |- ∃ q, discard ?a p = _ ∧ _ =>
      eapply Hchain; [solve_safe|unfold option_growth; lia]
  | |- ∃ q, inr _ = _ ∧ _ => by apply Hset
  end.
  destruct (safe_smallOptSize defaultMaxAlignement) with (p := p)
    as (b & q & Hrun & Hadv & Hq); [lia|done|].
  rewrite Hrun.
  assert (advances B (option_growth L) p q) as Hadv'.
  { destruct Hadv as (? & ? & ? & ? & ?). unfold advances, option_growth.
    repeat split; done || lia. }
  destruct b.
  - pose proof (smallOptSize_size _ _ _ Hrun Hd) as Hsize.
    destruct Hq as (Hiq & Hbq & Hmq & Hoq & Hsq & Hvq); [by left|].
    eexists. split; [done|]. split; [done|]. intros _.
    unfold packer_ok. simpl. repeat split; done || lia.
  - eexists. split; [done|]. split; [done|]. intros He. apply Hq. by right.
Qed.

End bound.
Lemma PackValues_loop_returns L fuel p :
  1 ≤ defaultMaxAlignement → char "c" ∉ format p →
  packer_ok (length (format p)) L p →
  Z.of_nat (length (w p)) ≤ Z.of_nat (i p) * option_growth L →
  (length (format p) - i p < fuel)%nat →
  ∃ out e, PackValues_loop fuel p = Some (inr (out, e)) ∧
           (e ≠ None → out = []) ∧
           Z.of_nat (length out)
           ≤ Z.of_nat (length (format p)) * option_growth L.
Proof.
  intros Hd. revert p.
  induction fuel as [|fuel IH]; intros p Hc Hok Hw Hfuel; [lia|].
  assert (0 ≤ option_growth L) as Hg.
  { unfold option_growth. pose proof max_size_16. lia. }
  pose proof Hok as (Hi0 & _).
  simpl. destruct ((if err p is None then true else false) && hasNext p) eqn:Hcond.
  - apply andb_true_iff in Hcond as [_ Hnext]. unfold hasNext in Hnext.
    apply Nat.ltb_lt in Hnext. unfold nextOption.
    destruct (lookup_lt_is_Some_2 _ _ Hnext) as [opt Hopt]. rewrite Hopt.
    destruct (PackValues_switch_ok (length (format p)) L opt
                (set_i (S (i p)) p) Hd)
      as (q & -> & (Hf & Hv & Hi & _ & Hwq) & Hokq).
    { intros ->. apply Hc. by eapply list_elem_of_lookup_2. }
    { destruct Hok as (? & ? & ? & ? & ? & ?). unfold packer_ok. simpl.
      repeat split; done || lia. }
    simpl in Hf, Hi, Hwq. destruct (err q) as [e|] eqn:He.
    + eexists _, _. split; [done|]. split; [done|]. simpl. nia.
    + destruct (IH q) as (out & e & Hrun & Hempty & Hlen).
      * by rewrite Hf.
      * rewrite Hf. by apply Hokq.
      * nia.
      * rewrite Hf. lia.
      * rewrite Hf in Hlen. by exists out, e.
  - destruct (alignOnly p); eexists _, _; (split; [done|]);
      (split; [done|]); simpl; nia.
Qed.

(** X18. For a format without the option [c], the one option that
    writes as many bytes as a number in the format says, [PackValues]
    always returns when the default alignment bound is at least 1: the
    loop ends within one iteration per byte of the format, nothing panics
    (no index out of range, no division by zero in [align]), the returned
    string is empty whenever an error is returned, and it has at most
    [option_growth L] bytes per byte of the format, [L] bounding the
    lengths of the strings among the values. *)
Theorem PackValues_returns (format0 : list Z) (values0 : list rt_Value)
    (L : nat) :
  1 ≤ defaultMaxAlignement → char "c" ∉ format0 →
  (∀ v s, v ∈ values0 → rt_AsString v = Some s → (length s ≤ L)%nat) →
  ∃ out e, PackValues format0 values0 = Some (inr (out, e)) ∧
           (e ≠ None → out = []) ∧
           Z.of_nat (length out)
           ≤ Z.of_nat (length format0)
             * (2 * Z.max 16 defaultMaxAlignement + Z.of_nat L + 1).
Proof.
  intros Hd Hc HL.
  apply (PackValues_loop_returns L); [done|done| |simpl; lia|simpl; lia].
  pose proof max_size_16. pose proof max_size_default.
  unfold packer_ok. simpl. repeat split; try done; try lia.
  intros c Hlook. apply lookup_lt_Some in Hlook. lia.
Qed.

(** With an [X] as the last byte of the format, the loop ends in an
    error. *)
Lemma PackValues_loop_trailing_X f L fuel p :
  1 ≤ defaultMaxAlignement → char "c" ∉ f →
  format p = f ++ [char "X"] →
  packer_ok (length f) L p → err p = None →
  (S (length f) - i p < fuel)%nat →
  ∃ e, PackValues_loop fuel p = Some (inr ([], Some e)).
Proof.
  intros Hd Hc. revert p.
  induction fuel as [|fuel IH]; intros p Hfmt Hok Herr Hfuel; [lia|].
  pose proof Hok as (Hi & Hb & Hm & Ho & Hs & Hv).
  simpl. rewrite Herr. simpl.
  assert (hasNext p = true) as ->.
  { unfold hasNext. apply Nat.ltb_lt. rewrite Hfmt, length_app. simpl. lia. }
  unfold nextOption.
  destruct (decide (i p = length f)) as [Hlast|Hmore].
  - rewrite Hfmt, Hlast, list_lookup_middle by done.
    change (PackValues_switch (char "X") (set_i (S (length f)) p))
      with (inr (set_alignOnly true (set_i (S (length f)) p))
              : panic + packer).
    simpl. rewrite Herr.
    destruct fuel as [|fuel]; [lia|]. simpl. rewrite Herr. simpl.
    assert (hasNext (set_alignOnly true (set_i (S (length f)) p)) = false)
      as ->; [|by eexists].
    unfold hasNext. simpl. apply Nat.ltb_ge.
    rewrite Hfmt, length_app. simpl. lia.
  - assert (i p < length f)%nat as Hlt by lia.
    destruct (lookup_lt_is_Some_2 _ _ Hlt) as [opt Hopt].
    rewrite Hfmt, lookup_app_l, Hopt by done.
    destruct (PackValues_switch_ok (length f) L opt (set_i (S (i p)) p) Hd)
      as (q & -> & (Hf & _ & Hiq & _) & Hokq).
    { intros ->. apply Hc. by eapply list_elem_of_lookup_2. }
    { unfold packer_ok. simpl. repeat split; done || lia. }
    simpl in Hf, Hiq. destruct (err q) as [e|] eqn:Heq.
    + by eexists.
    + apply IH; [by rewrite Hf|by apply Hokq|done|lia].
Qed.

(** The longest string among the values. *)
Lemma strings_bounded (vs : list rt_Value) :
  ∃ L : nat, ∀ v s, v ∈ vs → rt_AsString v = Some s → (length s ≤ L)%nat.
Proof.
  induction vs as [|v0 vs [L HL]].
  { exists 0%nat. intros v s Hv. by apply elem_of_nil in Hv. }
  destruct (rt_AsString v0) as [s0|] eqn:Hs0.
  - exists (L `max` length s0)%nat. intros v s [->|Hv]%elem_of_cons Hs.
    + assert (s = s0) as -> by congruence. lia.
    + specialize (HL v s Hv Hs). lia.
  - exists L. intros v s [->|Hv]%elem_of_cons Hs; [congruence|].
    by eapply HL.
Qed.

(** X19. A format that ends with the option [X] and has no option [c]
    never packs: whatever comes before the [X] and whatever the values,
    [PackValues] returns an error and the empty string. *)
Theorem PackValues_trailing_X (f : list Z) (values0 : list rt_Value) :
  1 ≤ defaultMaxAlignement → char "c" ∉ f →
  ∃ e, PackValues (f ++ bytes "X") values0 = Some (inr ([], Some e)).
Proof.
  intros Hd Hc. destruct (strings_bounded values0) as [L HL].
  pose proof max_size_16. pose proof max_size_default.
  apply (PackValues_loop_trailing_X f L); try done.
  - unfold packer_ok. simpl. repeat split; try done; try lia.
    intros c. rewrite list_lookup_middle by done. by intros [= <-].
  - simpl. rewrite length_app. simpl. lia.
Qed.

(** ** A format of [j] options *)

Lemma put_wrap_int bo x : put bo 8 (wrap_int x) = put bo 8 x.
Proof.
  assert (le_bytes 8 (wrap_int x) = le_bytes 8 x) as Heq.
  { apply le_bytes_congr. change (2 ^ (8 * Z.of_nat 8)) with (2 ^ 64).
    unfold wrap_int. rewrite <- Zminus_mod_idemp_l, Z.mod_mod by lia.
    rewrite Zminus_mod_idemp_l. f_equal. lia. }
  unfold put. by rewrite Heq.
Qed.

(** One [j] option with a value at hand: the value is consumed and its
    eight bytes are appended. *)
Lemma switch_j_value p v n :
  maxAlignment p = 1 → alignOnly p = false →
  values p !! j p = Some v → rt_ToInt v = Some n →
  ∃ q, PackValues_switch (char "j") p = inr q ∧
       format q = format p ∧ values q = values p ∧ i q = i p ∧
       j q = S (j p) ∧ byteOrder q = byteOrder p ∧
       maxAlignment q = 1 ∧ alignOnly q = false ∧ err q = None ∧
       w q = w p ++ put (byteOrder p) 8 n.
Proof.
  intros Hm Ha Hv Hn.
  change (PackValues_switch (char "j") p)
    with (discard (and_then (and_then (align 8) nextIntValue) (write_intVal 8)) p).
  unfold discard, and_then, align. simpl. rewrite Hm. simpl.
  rewrite Z.mod_1_r. simpl. rewrite Ha.
  unfold nextIntValue, nextValue.
  pose proof (lookup_lt_Some _ _ _ Hv) as Hlt.
  apply Nat.ltb_lt in Hlt. rewrite Hlt, Hv. simpl. rewrite Hn.
  unfold write_intVal, write. simpl.
  eexists. split; [done|]. simpl. rewrite put_wrap_int.
  repeat split; done.
Qed.

(** One [j] option with no value left. *)
Lemma switch_j_no_value p :
  maxAlignment p = 1 → alignOnly p = false →
  (length (values p) ≤ j p)%nat →
  ∃ q, PackValues_switch (char "j") p = inr q ∧
       err q = Some errNotEnoughValues.
Proof.
  intros Hm Ha Hj.
  change (PackValues_switch (char "j") p)
    with (discard (and_then (and_then (align 8) nextIntValue) (write_intVal 8)) p).
  unfold discard, and_then, align. simpl. rewrite Hm. simpl.
  rewrite Z.mod_1_r. simpl. rewrite Ha.
  unfold nextIntValue, nextValue.
  apply Nat.ltb_ge in Hj. rewrite Hj. simpl. by eexists.
Qed.

Lemma PackValues_loop_ints k ns fuel p :
  format p = replicate k (char "j") →
  Forall2 (λ v n, rt_ToInt v = Some n) (values p) ns →
  maxAlignment p = 1 → alignOnly p = false → err p = None →
  j p = i p → (i p ≤ k)%nat → (i p ≤ length ns)%nat →
  (k - i p < fuel)%nat →
  PackValues_loop fuel p =
    Some (inr (if decide (k ≤ length ns)%nat
               then (w p ++ concat (put (byteOrder p) 8 <$> drop (i p) (take k ns)),
                     None)
               else ([], Some errNotEnoughValues))).
Proof.
  revert p. induction fuel as [|fuel IH];
    intros p Hfmt Hvals Hm Ha He Hj Hik Hin Hfuel; [lia|].
  pose proof (Forall2_length _ _ _ Hvals) as Hlen.
  simpl. rewrite He. simpl. unfold hasNext. rewrite Hfmt, length_replicate.
  destruct (Nat.ltb_spec (i p) k) as [Hlt|Hge].
  - unfold nextOption. rewrite Hfmt, lookup_replicate_2 by done.
    destruct (decide (i p < length ns)%nat) as [Hval|Hnone].
    + destruct (lookup_lt_is_Some_2 ns (i p) Hval) as [n Hn].
      destruct (Forall2_lookup_r _ _ _ _ _ Hvals Hn) as (v & Hv & Hvn).
      destruct (switch_j_value (set_i (S (i p)) p) v n)
        as (q & -> & Hfq & Hvq & Hiq & Hjq & Hbq & Hmq & Haq & Heq & Hwq);
        [done|done|simpl; by rewrite Hj|done|].
      simpl in *. rewrite Heq.
      rewrite IH;
        [|by rewrite Hfq|by rewrite Hvq|done|done|done
         |rewrite Hjq, Hiq, Hj; done|lia|lia|lia].
      rewrite Hbq, Hwq, Hiq. destruct (decide (k ≤ length ns)%nat); [|done].
      rewrite <- app_assoc. do 4 f_equal.
      rewrite (drop_S _ n (i p)); [done|].
      rewrite lookup_take_lt by lia. done.
    + destruct (switch_j_no_value (set_i (S (i p)) p)) as (q & -> & Heq);
        [done|done|simpl; lia|].
      rewrite Heq. rewrite decide_False by lia. done.
  - rewrite Ha. assert (i p = k) as Hk by lia.
    rewrite decide_True by lia.
    rewrite Hk, drop_ge; [by rewrite app_nil_r|].
    rewrite length_take. lia.
Qed.

(** X20. With the default alignment bound 1, a format of [k] options [j]
    packs the first [k] values, in order, each as its eight bytes in
    the native byte order; values beyond the [k]-th are ignored, and with
    fewer than [k] values the call fails with [errNotEnoughValues]. *)
Theorem PackValues_ints k (vs : list rt_Value) (ns : list Z) :
  defaultMaxAlignement = 1 →
  Forall2 (λ v n, rt_ToInt v = Some n) vs ns →
  PackValues (replicate k (char "j")) vs =
    Some (inr (if decide (k ≤ length vs)%nat
               then (concat (put nativeEndian 8 <$> take k ns), None)
               else ([], Some errNotEnoughValues))).
Proof.
  intros Hd Hvs. pose proof (Forall2_length _ _ _ Hvs) as Hlen.
  unfold PackValues.
  rewrite (PackValues_loop_ints k ns); simpl;
    try done; try lia; [|by rewrite length_replicate; lia].
  rewrite Hlen. by destruct (decide _).
Qed.

End packer_facts.

(** ** The packer at work *)

Section packer_examples.

Import stringlib.

Lemma align_pads_witness :
  0 < 4 < 2 ^ 64 ∧ 1 ≤ maxAlignment example_packer ∧
  Z.of_nat (length (w example_packer)) < 2 ^ 64 ∧
  (∃ k, 0 ≤ k ∧ Z.min 4 (maxAlignment example_packer) = 2 ^ k) ∧
  align 4 example_packer
  = inr (true, set_alignOnly false (set_w [7; 0; 0; 0] example_packer)).
Proof.
  assert (0 < 4 < 2 ^ 64) as Hn by (split; reflexivity).
  assert (1 ≤ maxAlignment example_packer) as Hm by (vm_compute; discriminate).
  assert (Z.of_nat (length (w example_packer)) < 2 ^ 64) as Hl by reflexivity.
  assert (∃ k, 0 ≤ k ∧ Z.min 4 (maxAlignment example_packer) = 2 ^ k) as Hp.
  { exists 2. split; [discriminate|reflexivity]. }
  split; [exact Hn|]. split; [exact Hm|]. split; [exact Hl|].
  split; [exact Hp|].
  destruct (align_pads (H := example_host) 4 example_packer Hn Hm Hl)
    as [Hpow _].
  destruct (Hpow Hp) as [Hrun _]. exact Hrun.
Defined.

Lemma packInt_twos_complement_witness :
  1 ≤ optSize example_int_packer ≤ 16 ∧
  int_min ≤ intVal example_int_packer ≤ int_max ∧
  err example_int_packer = None ∧
  - 2 ^ (8 * optSize example_int_packer - 1) ≤ intVal example_int_packer
    < 2 ^ (8 * optSize example_int_packer - 1) ∧
  packInt example_int_packer
  = inr (true, set_w [255; 255; 254] example_int_packer) ∧
  signed BigEndian [255; 255; 254] = -2.
Proof.
  assert (1 ≤ optSize example_int_packer ≤ 16) as Hn
    by (vm_compute; split; discriminate).
  assert (int_min ≤ intVal example_int_packer ≤ int_max) as Hx
    by (vm_compute; split; discriminate).
  assert (- 2 ^ (8 * optSize example_int_packer - 1)
          ≤ intVal example_int_packer
          < 2 ^ (8 * optSize example_int_packer - 1)) as Hfit
    by (vm_compute; split; [discriminate|reflexivity]).
  split; [exact Hn|]. split; [exact Hx|]. split; [reflexivity|].
  split; [exact Hfit|].
  destruct (packInt_twos_complement (H := example_host) example_int_packer
              Hn Hx eq_refl) as [Hok _].
  destruct (Hok Hfit) as (Hrun & _ & Hback).
  split; [exact Hrun|exact Hback].
Defined.

Lemma packUint_unsigned_witness :
  1 ≤ optSize example_uint_packer ≤ 16 ∧
  int_min ≤ intVal example_uint_packer ≤ int_max ∧
  err example_uint_packer = None ∧
  8 < optSize example_uint_packer ∧
  packUint example_uint_packer
  = inr (true,
         set_w [255; 255; 255; 255; 255; 255; 255; 255; 0; 0; 0; 0] 
           example_uint_packer) ∧
  unsigned LittleEndian [255; 255; 255; 255; 255; 255; 255; 255; 0; 0; 0; 0]
  = 2 ^ 64 - 1.
Proof.
  assert (1 ≤ optSize example_uint_packer ≤ 16) as Hn
    by (vm_compute; split; discriminate).
  assert (int_min ≤ intVal example_uint_packer ≤ int_max) as Hx
    by (vm_compute; split; discriminate).
  assert (8 < optSize example_uint_packer) as Hbig by reflexivity.
  split; [exact Hn|]. split; [exact Hx|]. split; [reflexivity|].
  split; [exact Hbig|].
  destruct (packUint_unsigned (H := example_host) example_uint_packer
              Hn Hx eq_refl) as [Hok _].
  destruct (Hok (or_introl Hbig)) as (Hrun & _ & Hback).
  split; [exact Hrun|exact Hback].
Defined.


Lemma PackValues_returns_witness :
  1 ≤ defaultMaxAlignement (Host := example_host) ∧
  (char "c" ∉ bytes "<i4 >i2 !4 Xi4 s1 z") ∧
  (∀ v s, v ∈ [VInt 5; VInt (-2); VString [76; 117; 97]; VString [67]] →
          rt_AsString (Host := example_host) v = Some s →
          (length s ≤ 3)%nat) ∧
  ∃ out e,
    PackValues (H := example_host) (bytes "<i4 >i2 !4 Xi4 s1 z")
      [VInt 5; VInt (-2); VString [76; 117; 97]; VString [67]]
    = Some (inr (out, e)) ∧
    (e ≠ None → out = []) ∧
    Z.of_nat (length out)
    ≤ Z.of_nat (length (bytes "<i4 >i2 !4 Xi4 s1 z"))
      * (2 * Z.max 16 (defaultMaxAlignement (Host := example_host))
         + Z.of_nat 3 + 1).
Proof.
  assert (1 ≤ defaultMaxAlignement (Host := example_host)) as Hd
    by (vm_compute; discriminate).
  assert (char "c" ∉ bytes "<i4 >i2 !4 Xi4 s1 z") as Hc.
  { intros Hin. apply list_elem_of_In in Hin. vm_compute in Hin.
    intuition discriminate. }
  assert (∀ v s,
            v ∈ [VInt 5; VInt (-2); VString [76; 117; 97]; VString [67]] →
            rt_AsString (Host := example_host) v = Some s →
            (length s ≤ 3)%nat) as HL.
  { intros v s Hv.
    repeat (apply elem_of_cons in Hv as [-> | Hv]);
      try (by apply elem_of_nil in Hv);
      simpl; intros [= <-]; simpl; lia. }
  split; [exact Hd|]. split; [exact Hc|]. split; [exact HL|].
  exact (PackValues_returns (H := example_host) _ _ 3%nat Hd Hc HL).
Defined.

Lemma PackValues_trailing_X_witness :
  1 ≤ defaultMaxAlignement (Host := example_host) ∧
  (char "c" ∉ bytes "<i4") ∧
  ∃ e, PackValues (H := example_host) (bytes "<i4" ++ bytes "X") [VInt 5]
       = Some (inr ([], Some e)).
Proof.
  assert (1 ≤ defaultMaxAlignement (Host := example_host)) as Hd
    by (vm_compute; discriminate).
  assert (char "c" ∉ bytes "<i4") as Hc.
  { intros Hin. apply list_elem_of_In in Hin. vm_compute in Hin.
    intuition discriminate. }
  split; [exact Hd|]. split; [exact Hc|].
  exact (PackValues_trailing_X (H := example_host) (bytes "<i4") [VInt 5]
           Hd Hc).
Defined.

Lemma PackValues_ints_witness :
  defaultMaxAlignement (Host := example_host) = 1 ∧
  Forall2 (λ v n, rt_ToInt (Host := example_host) v = Some n)
    [VInt 1; VInt (-2); VInt 7] [1; -2; 7] ∧
  PackValues (H := example_host) (bytes "jj") [VInt 1; VInt (-2); VInt 7]
  = Some (inr ([1; 0; 0; 0; 0; 0; 0; 0;
                254; 255; 255; 255; 255; 255; 255; 255], None)).
Proof.
  assert (Forall2 (λ v n, rt_ToInt (Host := example_host) v = Some n)
            [VInt 1; VInt (-2); VInt 7] [1; -2; 7]) as Hvs.
  { repeat constructor. }
  split; [reflexivity|]. split; [exact Hvs|].
  exact (PackValues_ints (H := example_host) 2 _ _ eq_refl Hvs).
Defined.

(** The format of the example above, run: two integers in the two byte
    orders, padding to the alignment bound, a string with its length in
    one byte and a zero-terminated string. *)
Lemma PackValues_example :
  PackValues (H := example_host) (bytes "<i4 >i2 !4 Xi4 s1 z")
    [VInt 5; VInt (-2); VString [76; 117; 97]; VString [67]]
  = Some (inr ([5; 0; 0; 0; 255; 254; 0; 0; 3; 76; 117; 97; 67; 0], None)).
Proof. vm_compute. reflexivity. Qed.

End packer_examples.
